(** * A shallow embedding of flux's git checkout layer, of fluxctl's
      polling (backoff, awaitSync) and of the daemon registration handler.

    Source files embedded here:
    - git/operations.go and git/repo.go    (Module [Git])
    - fluxctl's await code, package main   (Module [Fluxctl])
    - http/server/server.go, doRegister    (Module [Server])

    What the program calls but does not contain (the git binary, the wall
    clock, the sync tracker, the websocket upgrade, encoding/json) is an
    interface: a type class whose instance is the environment the code runs
    in.  Every function threads the state of that environment explicitly.

    Part I holds the definitions, Part II the theorems. *)

From Stdlib Require Import ZArith List String Ascii Bool Lia Sorted.
Import ListNotations.

Local Open Scope string_scope.
Local Open Scope list_scope.

(* ################################################################## *)
(** * Part I: definitions                                              *)
(* ################################################################## *)

(* ================================================================== *)
(** ** Go's [strings] and [bufio] helpers used by the sources          *)
(* ================================================================== *)

Module GoStrings.

(** [strings.HasPrefix s p]. *)
Definition HasPrefix (s p : string) : bool := String.prefix p s.

(** [strings.Contains s sub]: [sub] occurs somewhere in [s]. *)
Fixpoint Contains (s sub : string) : bool :=
  String.prefix sub s ||
  match s with
  | EmptyString => false
  | String _ s' => Contains s' sub
  end.

(** [strings.Split s sep] for a one-byte separator: the pieces of [s]
    between consecutive separators, in order; one more piece than there
    are separators. *)
Fixpoint Split (s : string) (sep : ascii) : list string :=
  match s with
  | EmptyString => [EmptyString]
  | String a s' =>
      if Ascii.eqb a sep then EmptyString :: Split s' sep
      else match Split s' sep with
           | piece :: rest => String a piece :: rest
           | [] => [String a EmptyString]
           end
  end.

(** [strings.Join pieces sep]. *)
Fixpoint Join (pieces : list string) (sep : string) : string :=
  match pieces with
  | [] => EmptyString
  | p :: rest =>
      match rest with
      | [] => p
      | _ :: _ => (p ++ sep ++ Join rest sep)%string
      end
  end.

(** [strings.HasSuffix s (string c)] for a one-byte suffix. *)
Fixpoint EndsWith (s : string) (c : ascii) : bool :=
  match s with
  | EmptyString => false
  | String a s' =>
      match s' with
      | EmptyString => Ascii.eqb a c
      | String _ _ => EndsWith s' c
      end
  end.

Definition newline : ascii := "010"%char.
Definition carriage_return : ascii := "013"%char.

(** [bufio]'s dropCR: one trailing carriage return is removed. *)
Fixpoint dropCR (line : string) : string :=
  match line with
  | EmptyString => EmptyString
  | String a rest =>
      match rest with
      | EmptyString => if Ascii.eqb a carriage_return then EmptyString else line
      | String _ _ => String a (dropCR rest)
      end
  end.

(** The raw lines a [bufio.Scanner] with the default [ScanLines] is
    offered: the pieces between newlines, without the empty piece that
    follows a final newline. *)
Definition rawLines (s : string) : list string :=
  let pieces := Split s newline in
  match rev pieces with
  | EmptyString :: before => rev before
  | _ => pieces
  end.

(** [bufio.MaxScanTokenSize]: a scanner gives up ([Scan] returns false) at
    a line that does not fit its buffer. *)
Definition MaxScanTokenSize : N := 65536.

End GoStrings.

(* ================================================================== *)
(** ** package git (git/operations.go, git/repo.go, git/note.go)       *)
(* ================================================================== *)

Module Git.
Import GoStrings.

(** *** Errors

    Go's [error] values that this package produces or passes on.  The
    sentinel [ErrNoChanges] is one allocated value: a later [errors.New]
    with the same text is a different error, which is why the sentinel has
    a constructor of its own. *)
Inductive error : Type :=
| ErrNoChanges                               (* var ErrNoChanges = errors.New(...) *)
| ErrorsNew (msg : string)                   (* errors.New(msg) *)
| ExitError (msg : string)                   (* what exec.Cmd.Run returned *)
| Wrap (cause : error) (msg : string)        (* errors.Wrap(cause, msg) *)
| PushError (url : string) (cause : error)   (* git/errors.go *)
| JSONError (msg : string).                  (* an encoding/json error *)

(** Modelled from the spec: [PushError(url, err)] is declared in
    git/errors.go, which is not among the sources; the spec describes it as
    an operation-scoped error that carries the target URL, so it is a
    constructor holding the URL and the cause. *)
Definition mkPushError (url : string) (err : error) : error := PushError url err.

(** The class of an error, as a caller can tell it apart by inspecting its
    cause: the sentinel, a failed git command, a failed push, a JSON
    encoding or decoding failure. *)
Inductive kind : Type := KNoChanges | KCommand | KPush | KJSON.

Fixpoint kind_of (e : error) : kind :=
  match e with
  | ErrNoChanges => KNoChanges
  | ErrorsNew _ => KCommand
  | ExitError _ => KCommand
  | Wrap c _ => kind_of c
  | PushError _ _ => KPush
  | JSONError _ => KJSON
  end.

(** *** Data model *)

Record Repo : Type := mkRepo {
  URL : string;
  Branch : string;
  Key : string;
  Path : string
}.

Record Config : Type := mkConfig {
  SyncTag : string;
  NotesRef : string;
  UserName : string;
  UserEmail : string
}.

Record Checkout : Type := mkCheckout {
  repo : Repo;
  Dir : string;
  config : Config;
  realNotesRef : string
}.

(** The zero value [Checkout{}]. *)
Definition zeroCheckout : Checkout :=
  mkCheckout (mkRepo "" "" "" "") "" (mkConfig "" "" "" "") "".

(** *** Running a command: [os/exec]

    [Cmd] is the [exec.Cmd] that [execGitCmd] builds; [ProcResult] is what
    running it gives back: the error of [Run] (absent on exit status 0),
    and what the process wrote to its two output streams. *)
Record Cmd : Type := mkCmd {
  cmd_name : string;
  cmd_args : list string;
  cmd_dir : string;
  cmd_env : list string;
  cmd_stdout : bool          (* false: ioutil.Discard; true: the caller's buffer *)
}.

Record ProcResult : Type := mkProcResult {
  run_err : option string;
  proc_stdout : string;
  proc_stderr : string
}.

(** The host the package runs on.  [Machine] is everything a git process
    can read and change (repositories, the remote, the file system);
    [Run] is [exec.Cmd.Run]; [Quote] is [fmt]'s [%q] ([strconv.Quote]);
    [TrimSpace] is [strings.TrimSpace]; [Spec] is [update.Spec]; the two
    JSON functions are [json.Marshal] on a note and
    [json.NewDecoder(out).Decode(&note)], each giving the message of its
    error on the left. *)
Class Host : Type := {
  Machine : Type;
  Run : Cmd -> Machine -> ProcResult * Machine;
  Quote : string -> string;
  TrimSpace : string -> string;
  Spec : Type;
  jsonMarshalNote : string * Spec -> string + string;
  jsonDecodeNote : string -> string + string * Spec
}.

Section Operations.
Context {host : Host}.

(** [type Note struct { JobID job.ID; Spec update.Spec }]; [job.ID] is a
    string. *)
Record Note : Type := mkNote {
  JobID : string;
  NoteSpec : Spec
}.

Definition jsonMarshal (n : Note) : string + string :=
  jsonMarshalNote (JobID n, NoteSpec n).

Definition jsonDecode (body : string) : string + Note :=
  match jsonDecodeNote body with
  | inl msg => inl msg
  | inr (id, sp) => inr (mkNote id sp)
  end.

(** The state the package's functions thread: the machine, the commands
    run so far (oldest first; ghost state), and what [println] wrote. *)
Record World : Type := mkWorld {
  machine : Machine;
  trace : list Cmd;
  console : list string
}.

(** A state monad over [World]. *)
Definition M (A : Type) : Type := World -> A * World.

Definition ret {A : Type} (a : A) : M A := fun w => (a, w).

Definition bind {A B : Type} (m : M A) (k : A -> M B) : M B :=
  fun w => let (a, w') := m w in k a w'.

Definition println (s : string) : M unit :=
  fun w => (tt, mkWorld (machine w) (trace w) (console w ++ [s])).

Definition runCmd (c : Cmd) : M ProcResult :=
  fun w =>
    let (r, m') := Run c (machine w) in
    (r, mkWorld m' (trace w ++ [c]) (console w)).

End Operations.

Declare Scope git_scope.
Notation "x <- c ;; k" := (bind c (fun x => k))
  (at level 61, c at next level, right associativity) : git_scope.
Local Open Scope git_scope.

Section Functions.
Context {host : Host}.

(** [func env(keyPath string) []string] *)
Definition base : string :=
  "GIT_SSH_COMMAND=ssh -o UserKnownHostsFile=/dev/null -o StrictHostKeyChecking=no".

Definition env (keyPath : string) : list string :=
  if String.eqb keyPath "" then [base]
  else [(base ++ " -i " ++ Quote keyPath)%string; "GIT_TERMINAL_PROMPT=0"].

(** [func findFatalMessage(output io.Reader) string]: the scanner's loop
    over the lines; [Scan] stops at a line longer than its buffer. *)
Fixpoint scanFatal (lines : list string) : string :=
  match lines with
  | [] => ""
  | line :: rest =>
      if (MaxScanTokenSize <=? N.of_nat (String.length line))%N then ""
      else if HasPrefix (dropCR line) "fatal:" then dropCR line
      else scanFatal rest
  end.

Definition findFatalMessage (output : string) : string :=
  scanFatal (rawLines output).

(** The error [execGitCmd] makes of a finished process: none on exit
    status 0; otherwise the first fatal line of its diagnostics as a new
    error, or the error of [Run] when there is no such line. *)
Definition cmdError (r : ProcResult) : option error :=
  match run_err r with
  | Some e =>
      let msg := findFatalMessage (proc_stderr r) in
      if String.eqb msg "" then Some (ExitError e) else Some (ErrorsNew msg)
  | None => None
  end.

(** [func execGitCmd(dir, keyPath string, out io.Writer, args ...string) error].
    [out] says whether the caller passed a buffer; the second component of
    the result is what that buffer then holds. *)
Definition execGitCmd (dir keyPath : string) (out : bool) (args : list string)
  : M (option error * string) :=
  let c := mkCmd "git" args dir (env keyPath) out in
  r <- runCmd c ;;
  let captured := if out then proc_stdout r else "" in
  match run_err r with
  | Some e =>
      _ <- println (proc_stderr r) ;;
      let msg := findFatalMessage (proc_stderr r) in
      if String.eqb msg "" then ret (Some (ExitError e), captured)
      else ret (Some (ErrorsNew msg), captured)
  | None => ret (None, captured)
  end.

(** The commands of the functions below, as [execGitCmd] builds them. *)
Definition gitCmd (dir keyPath : string) (out : bool) (args : list string) : Cmd :=
  mkCmd "git" args dir (env keyPath) out.

(** What running [c] in the world [w] gives, and the world it leaves:
    the machine as the process left it, [c] added to the trace, and the
    diagnostics of a failed process printed. *)
Definition outcome (c : Cmd) (w : World) : ProcResult := fst (Run c (machine w)).

Definition ran (c : Cmd) (w : World) : World :=
  mkWorld (snd (Run c (machine w))) (trace w ++ [c])
    (match run_err (outcome c w) with
     | Some _ => console w ++ [proc_stderr (outcome c w)]
     | None => console w
     end).

(** [func check(workingDir, subdir string) bool] *)
Definition check (workingDir subdir : string) : M bool :=
  r <- execGitCmd workingDir "" false ["diff"; "--quiet"; "--"; subdir] ;;
  ret (match fst r with Some _ => true | None => false end).

(** [func commit(workingDir, commitMessage string) error] *)
Definition commit (workingDir commitMessage : string) : M (option error) :=
  r <- execGitCmd workingDir "" false
         ["commit"; "--no-verify"; "-a"; "-m"; commitMessage] ;;
  match fst r with
  | Some err => ret (Some (Wrap err "git commit"))
  | None => ret None
  end.

(** [fmt.Sprintf("git push %s %s", upstream, refs)]: [%s] prints a slice
    of strings between brackets, separated by blanks. *)
Definition pushMessage (upstream : string) (refs : list string) : string :=
  ("git push " ++ upstream ++ " [" ++ Join refs " " ++ "]")%string.

(** [func push(keyPath, workingDir, upstream string, refs ...string) error] *)
Definition push (keyPath workingDir upstream : string) (refs : list string)
  : M (option error) :=
  let args := ["push"; upstream] ++ refs in
  r <- execGitCmd workingDir keyPath false args ;;
  match fst r with
  | Some err => ret (Some (Wrap err (pushMessage upstream refs)))
  | None => ret None
  end.

(** [func addNote(workingDir, rev, notesRef string, note []byte) error] *)
Definition addNote (workingDir rev notesRef note : string) : M (option error) :=
  r <- execGitCmd workingDir "" false
         ["notes"; "--ref"; notesRef; "add"; "-m"; note; rev] ;;
  ret (fst r).

(** [func getNote(workingDir, notesRef, rev string) (Note pointer, error)] *)
Definition getNote (workingDir notesRef rev : string)
  : M (option Note * option error) :=
  r <- execGitCmd workingDir "" true ["notes"; "--ref"; notesRef; "show"; rev] ;;
  match fst r with
  | Some err => ret (None, Some err)
  | None =>
      match jsonDecode (snd r) with
      | inl msg => ret (None, Some (JSONError msg))
      | inr note => ret (Some note, None)
      end
  end.

(** [func headRevision(path string) (string, error)] *)
Definition headRevision (path : string) : M (string * option error) :=
  r <- execGitCmd path "" true ["rev-list"; "--max-count"; "1"; "HEAD"] ;;
  match fst r with
  | Some err => ret ("", Some err)
  | None => ret (TrimSpace (snd r), None)
  end.

(** [func revlist(path, ref string) ([]string, error)]; a nil slice is the
    empty list. *)
Definition revlist (path ref : string) : M (list string * option error) :=
  r <- execGitCmd path "" true ["rev-list"; ref] ;;
  match fst r with
  | Some err => ret ([], Some err)
  | None => ret (Split (snd r) newline, None)
  end.

(** [func (c Checkout) CommitAndPush(commitMessage string, note *Note) error] *)
Definition CommitAndPush (c : Checkout) (commitMessage : string)
  (note : option Note) : M (option error) :=
  changed <- check (Dir c) (Path (repo c)) ;;
  if negb changed then ret (Some ErrNoChanges)
  else
    cerr <- commit (Dir c) commitMessage ;;
    match cerr with
    | Some err => ret (Some err)
    | None =>
        nerr <- match note with
                | Some n =>
                    match jsonMarshal n with
                    | inl msg => ret (Some (JSONError msg))
                    | inr noteBytes =>
                        h <- headRevision (Dir c) ;;
                        match snd h with
                        | Some err => ret (Some err)
                        | None => addNote (Dir c) (fst h) (realNotesRef c) noteBytes
                        end
                    end
                | None => ret None
                end ;;
        match nerr with
        | Some err => ret (Some err)
        | None =>
            perr <- push (Key (repo c)) (Dir c) (URL (repo c))
                      [Branch (repo c); realNotesRef c] ;;
            match perr with
            | Some err => ret (Some (mkPushError (URL (repo c)) err))
            | None => ret None
            end
        end
    end.

(** The git subcommand of a command: its first argument. *)
Definition subcommand (c : Cmd) : string := hd "" (cmd_args c).

(** The commands of [CommitAndPush], [GetNote] and [revlist]. *)
Definition diffCmd (c : Checkout) : Cmd :=
  gitCmd (Dir c) "" false ["diff"; "--quiet"; "--"; Path (repo c)].

Definition commitCmd (c : Checkout) (commitMessage : string) : Cmd :=
  gitCmd (Dir c) "" false ["commit"; "--no-verify"; "-a"; "-m"; commitMessage].

Definition pushCmd (c : Checkout) : Cmd :=
  gitCmd (Dir c) (Key (repo c)) false
    ["push"; URL (repo c); Branch (repo c); realNotesRef c].

Definition showNoteCmd (c : Checkout) (rev : string) : Cmd :=
  gitCmd (Dir c) "" true ["notes"; "--ref"; realNotesRef c; "show"; rev].

Definition revlistCmd (c : Checkout) (ref : string) : Cmd :=
  gitCmd (Dir c) "" true ["rev-list"; ref].

(** [func (c Checkout) GetNote(rev string) (Note pointer, error)] *)
Definition GetNote (c : Checkout) (rev : string) : M (option Note * option error) :=
  getNote (Dir c) (realNotesRef c) rev.

(** [func (c Checkout) RevisionsBetween(ref1, ref2 string) ([]string, error)] *)
Definition RevisionsBetween (c : Checkout) (ref1 ref2 : string)
  : M (list string * option error) :=
  revlist (Dir c) (ref1 ++ ".." ++ ref2)%string.

(** [func (c Checkout) RevisionsBefore(ref string) ([]string, error)] *)
Definition RevisionsBefore (c : Checkout) (ref : string)
  : M (list string * option error) :=
  revlist (Dir c) ref.

End Functions.

(** *** The file system and [Clean]

    [os.RemoveAll] works on the host's file system.  An [Entry] is a file
    or directory by its path; a pinned entry is one the process may not
    remove (for want of permissions, say).  A directory that still holds a
    pinned entry cannot be removed either. *)
Record Entry : Type := mkEntry {
  entry_path : string;
  entry_pinned : bool
}.

Definition FS : Type := list Entry.

(** [p] is [dir] itself or lies below it. *)
Definition within (dir p : string) : bool :=
  String.eqb p dir || String.prefix (dir ++ "/")%string p.

(** Some pinned entry is [p] or lies below it. *)
Definition blocked (fs : FS) (p : string) : bool :=
  existsb (fun e => entry_pinned e && within p (entry_path e)) fs.

(** [os.RemoveAll(path)]: removes [path] and everything below it that it
    can, and reports the first failure; a [path] that does not exist is no
    error. *)
Definition RemoveAll (path : string) (fs : FS) : FS * option string :=
  (filter (fun e => negb (within path (entry_path e)) || blocked fs (entry_path e)) fs,
   if blocked fs path then Some "unlinkat: permission denied" else None).

(** [func (c Checkout) Clean()]: no result, and the error of [RemoveAll]
    is dropped. *)
Definition Clean (c : Checkout) (fs : FS) : FS :=
  if negb (String.eqb (Dir c) "") then fst (RemoveAll (Dir c) fs) else fs.

End Git.

(* ================================================================== *)
(** ** package main of fluxctl: backoff                                 *)
(* ================================================================== *)

(** [await] and [awaitJob] of that file are not embedded.  As the file
    stands they are not Go that compiles: [await] passes a [commitRef]
    that is declared nowhere, [awaitJob] assigns to a [result] that is
    declared nowhere, names a package [history] that the file does not
    import, and returns the string [commitRef] where its signature
    declares a [history.CommitEventMetadata].  A definition of either
    would have to make up what the source leaves out. *)

Module Fluxctl.

Local Open Scope Z_scope.

(** *** [time.Duration] and [time.Time]

    A [Duration] is a signed 64-bit count of nanoseconds: its arithmetic
    wraps around.  A [Time] is a count of nanoseconds on the wall clock
    ([time.Now().UTC()]), far from the ends of its range. *)
Definition wrap64 (z : Z) : Z := (z + 2 ^ 63) mod 2 ^ 64 - 2 ^ 63.

Definition maxDuration : Z := 2 ^ 63 - 1.
Definition minDuration : Z := - 2 ^ 63.

Definition isDuration (d : Z) : Prop := minDuration <= d <= maxDuration.

Definition mul (a b : Z) : Z := wrap64 (a * b).

Definition Millisecond : Z := 1000000.
Definition Minute : Z := 60000000000.

(** [func min(t1, t2 time.Duration) time.Duration] *)
Definition min (t1 t2 : Z) : Z := if t1 <? t2 then t1 else t2.

(** *** Errors *)
Inductive error : Type :=
| ErrTimeout                     (* var ErrTimeout = errors.New("timeout") *)
| Errorf (msg : string)          (* fmt.Errorf(...) *)
| Remote (msg : string).         (* an error of the client or of the job *)

(** *** The polled world

    [time.Now()] reads the clock of the world.  The clock moves while the
    predicate runs and while the process sleeps, and stands still between
    two statements of [backoff].

    [Called ok err] records one invocation of the predicate with what it
    returned, [Slept d] one call [time.Sleep(d)]; the log is ghost state,
    oldest entry first. *)
Inductive Event : Type :=
| Called (ok : bool) (err : option error)
| Slept (d : Z).

Record World (St : Type) : Type := mkWorld {
  clock : Z;
  state : St;
  log : list Event
}.
Arguments mkWorld {St} _ _ _.
Arguments clock {St} _.
Arguments state {St} _.
Arguments log {St} _.

(** The scheduler: [wakeup t d] is the time at which a [time.Sleep(d)]
    started at [t] returns, for [0 < d].  Go promises [t + d <= wakeup t d]. *)
Class Scheduler : Type := {
  wakeup : Z -> Z -> Z
}.

(** A predicate [func() (bool, error)] over a state [St]: called at a time,
    it gives its two results, the new state, and the time of its return. *)
Definition Predicate (St : Type) : Type :=
  St -> Z -> (bool * option error) * St * Z.

Section Backoff.
Context {sched : Scheduler} {St : Type}.

(** [time.Sleep(d)]: returns at once when [d <= 0]. *)
Definition Sleep (d : Z) (w : World St) : World St :=
  mkWorld (if d <=? 0 then clock w else wakeup (clock w) d)
          (state w) (log w ++ [Slept d]).

(** [ok, err := f()] *)
Definition invoke (f : Predicate St) (w : World St) : (bool * option error) * World St :=
  let '(r, s', t') := f (state w) (clock w) in
  (r, mkWorld t' s' (log w ++ [Called (fst r) (snd r)])).

Definition isSome {A : Type} (o : option A) : bool :=
  match o with Some _ => true | None => false end.

(** The [for] loop of [backoff]; one unit of fuel per invocation of the
    predicate.  [None]: the fuel ran out before the loop ended. *)
Fixpoint backoffLoop (fuel : nat) (finish maxDelay factor delay : Z)
  (f : Predicate St) (w : World St) : option (option error * World St) :=
  if clock w <? finish then
    match fuel with
    | O => None
    | S fuel' =>
        let '(r, w1) := invoke f w in
        if fst r || isSome (snd r) then Some (snd r, w1)
        else
          let w2 := if clock w1 + delay <? finish then Sleep delay w1 else w1 in
          backoffLoop fuel' finish maxDelay factor
            (min (mul delay factor) maxDelay) f w2
    end
  else Some (Some ErrTimeout, w).

(** [func backoff(initialDelay, factor, maxFactor, timeout time.Duration,
    f func() (bool, error)) error] *)
Definition backoff (fuel : nat) (initialDelay factor maxFactor timeout : Z)
  (f : Predicate St) (w : World St) : option (option error * World St) :=
  let maxDelay := mul initialDelay maxFactor in
  let finish := clock w + timeout in
  backoffLoop fuel finish maxDelay factor initialDelay f w.

(** The loop's post statement, [delay = min(delay*factor, maxDelay)]. *)
Definition nextDelay (maxDelay factor delay : Z) : Z :=
  min (mul delay factor) maxDelay.

(** The end of the loop's body: sleep if there will be time to try again. *)
Definition pause (finish delay : Z) (w1 : World St) : World St :=
  if clock w1 + delay <? finish then Sleep delay w1 else w1.

(** The value of the loop variable [delay] at the [n]-th iteration of a
    loop that starts with [delay0]. *)
Fixpoint delayAt (maxDelay factor delay0 : Z) (n : nat) : Z :=
  match n with
  | O => delay0
  | S n' => nextDelay maxDelay factor (delayAt maxDelay factor delay0 n')
  end.

(** An event after which the loop goes on: a sleep, or an invocation that
    reported neither completion nor an error. *)
Definition pending (e : Event) : Prop :=
  match e with
  | Called ok err => ok = false /\ err = None
  | Slept _ => True
  end.

(** How a run of [backoff] that started with the log [before] and the
    deadline [finish] has ended with the result [r] in the world [w']:
    either on the deadline, with [ErrTimeout], after events that were all
    pending; or right after an invocation that reported completion or an
    error, with the error of that invocation. *)
Definition ended (finish : Z) (before : list Event) (r : option error)
  (w' : World St) : Prop :=
  exists evs,
    log w' = before ++ evs
    /\ ((r = Some ErrTimeout /\ finish <= clock w' /\ Forall pending evs)
        \/ (exists pre ok err,
              evs = pre ++ [Called ok err]
              /\ Forall pending pre
              /\ (ok = true \/ err <> None)
              /\ r = err)).

(** The durations slept, in order, as the log holds them. *)
Fixpoint sleeps (l : list Event) : list Z :=
  match l with
  | [] => []
  | Slept d :: l' => d :: sleeps l'
  | Called _ _ :: l' => sleeps l'
  end.

(** The number of invocations of the predicate that the log holds. *)
Fixpoint calls (l : list Event) : nat :=
  match l with
  | [] => O
  | Called _ _ :: l' => S (calls l')
  | Slept _ :: l' => calls l'
  end.

(** What follows each invocation that the log holds, oldest first:
    [Some d] for an invocation followed by [Slept d], [None] for one
    followed at once by the next invocation, or by nothing. *)
Fixpoint pauses (l : list Event) : list (option Z) :=
  match l with
  | [] => []
  | Slept _ :: l' => pauses l'
  | Called _ _ :: l' =>
      match l' with
      | Slept d :: _ => Some d :: pauses l'
      | _ => None :: pauses l'
      end
  end.

(** The world in which the [n]-th iteration of the loop starts, counting
    from 0, when the invocations of the iterations before it were all
    pending: the body of an iteration invokes the predicate and pauses with
    the value the loop variable has in that iteration. *)
Fixpoint iterationAt (finish maxDelay factor delay0 : Z) (f : Predicate St)
  (w : World St) (n : nat) : World St :=
  match n with
  | O => w
  | S n' =>
      pause finish (delayAt maxDelay factor delay0 n')
        (snd (invoke f (iterationAt finish maxDelay factor delay0 f w n')))
  end.

End Backoff.

End Fluxctl.

(* ================================================================== *)
(** ** http/server/server.go: registration of a daemon                 *)
(* ================================================================== *)

Module Server.

Local Open Scope Z_scope.

(** The calls made on an [http.ResponseWriter], oldest first. *)
Inductive WriterCall : Type :=
| WriteHeader (code : Z)
| WriteBody (body : string).

Definition ResponseWriter : Type := list WriterCall.

(** [http.StatusBadRequest] *)
Definition StatusBadRequest : Z := 400.

(** The status line a client sees: that of the first call; a body written
    before any header sends 200. *)
Definition statusSent (w : ResponseWriter) : option Z :=
  match w with
  | [] => None
  | WriteHeader code :: _ => Some code
  | WriteBody _ :: _ => Some 200
  end.

(** What [doRegister] calls: [getInstanceID], [websocket.Upgrade(w, r, nil)]
    (an error by its message, or the connection; it may write to [w]),
    [fmt]'s formatting of a format string without operands, the three RPC
    client constructors, [s.service.RegisterDaemon] on the daemon registry
    and the client's [Close]. *)
Class Service : Type := {
  Request : Type;
  Conn : Type;
  Client : Type;
  Registry : Type;
  getInstanceID : Request -> string;
  Upgrade : ResponseWriter -> Request -> (string + Conn) * ResponseWriter;
  Sprintf : string -> string;
  NewClientV4 : Conn -> Client;
  NewClientV5 : Conn -> Client;
  NewClientV6 : Conn -> Client;
  RegisterDaemon : string -> Client -> Registry -> option string * Registry;
  Close : Client -> Registry -> option string * Registry
}.

Section Register.
Context {svc : Service}.

(** The server's state: the registry, and the calls of [RegisterDaemon]
    made so far (ghost state). *)
Record State : Type := mkState {
  registry : Registry;
  registrations : list (string * Client)
}.

(** [func (s HTTPService) doRegister(w http.ResponseWriter, r *http.Request,
    newRPCFn platformCloserFn)] *)
Definition doRegister (w : ResponseWriter) (r : Request)
  (newRPCFn : Conn -> Client) (s : State) : ResponseWriter * State :=
  let inst := getInstanceID r in
  let '(ws, w1) := Upgrade w r in
  match ws with
  | inl err =>
      let w2 := w1 ++ [WriteHeader StatusBadRequest] in
      let w3 := w2 ++ [WriteBody (Sprintf err)] in
      (w3, s)
  | inr conn =>
      let rpcClient := newRPCFn conn in
      let '(_, reg1) := RegisterDaemon inst rpcClient (registry s) in
      let '(_, reg2) := Close rpcClient reg1 in
      (w1, mkState reg2 (registrations s ++ [(inst, rpcClient)]))
  end.

Definition RegisterV4 (w : ResponseWriter) (r : Request) (s : State) :=
  doRegister w r NewClientV4 s.

Definition RegisterV5 (w : ResponseWriter) (r : Request) (s : State) :=
  doRegister w r NewClientV5 s.

Definition RegisterV6 (w : ResponseWriter) (r : Request) (s : State) :=
  doRegister w r NewClientV6 s.

End Register.

End Server.

(* ================================================================== *)
(** ** Concrete environments, on which the functions can be run        *)
(* ================================================================== *)

Module Fixtures.
Import GoStrings.

(** A small git host: one repository that is dirty or clean and a table
    of notes by revision. *)
Record DemoMachine : Type := mkDemo {
  dirty : bool;
  notes : list (string * string)
}.

Definition succeeded (out : string) : Git.ProcResult :=
  Git.mkProcResult None out "".

Definition exited (diagnostics : string) : Git.ProcResult :=
  Git.mkProcResult (Some "exit status 1") "" diagnostics.

Fixpoint lookupNote (rev : string) (table : list (string * string)) : option string :=
  match table with
  | [] => None
  | (r, body) :: rest => if String.eqb r rev then Some body else lookupNote rev rest
  end.

Definition line (s : string) : string := (s ++ String newline "")%string.

Definition demoRun (c : Git.Cmd) (m : DemoMachine) : Git.ProcResult * DemoMachine :=
  match Git.cmd_args c with
  | "diff" :: _ =>
      (if dirty m then exited "" else succeeded "", m)
  | "commit" :: _ =>
      (succeeded "", mkDemo false (notes m))
  | "rev-list" :: "--max-count" :: _ =>
      (succeeded (line "c0ffee"), m)
  | "rev-list" :: _ =>
      (succeeded (line "c0ffee" ++ line "beef")%string, m)
  | "notes" :: "--ref" :: _ :: "show" :: rev :: _ =>
      match lookupNote rev (notes m) with
      | Some body => (succeeded body, m)
      | None => (exited ("error: no note found for object " ++ rev), m)
      end
  | "notes" :: "--ref" :: _ :: "add" :: "-m" :: body :: rev :: _ =>
      (succeeded "", mkDemo (dirty m) ((rev, body) :: notes m))
  | "push" :: _ =>
      (succeeded "", m)
  | _ => (exited "fatal: not a git command", m)
  end.

(** A toy JSON for notes whose [Spec] is a string: a body that opens with
    a brace decodes, any other body is a syntax error. *)
Definition demoDecode (body : string) : string + string * string :=
  match body with
  | String "{" rest => inr ("job-1", rest)
  | _ => inl "invalid character looking for beginning of value"
  end.

Definition demoMarshal (n : string * string) : string + string :=
  inr ("{" ++ snd n)%string.

Definition demoQuote (s : string) : string :=
  (String "034" s ++ String "034" "")%string.

Definition demoHost : Git.Host :=
  {| Git.Machine := DemoMachine;
     Git.Run := demoRun;
     Git.Quote := demoQuote;
     Git.TrimSpace := fun s => s;
     Git.Spec := string;
     Git.jsonMarshalNote := demoMarshal;
     Git.jsonDecodeNote := demoDecode |}.

Definition demoCheckout : Git.Checkout :=
  Git.mkCheckout (Git.mkRepo "git@example.com:org/conf" "master" "/etc/key" "manifests")
    "/tmp/flux-gitclone1/repo"
    (Git.mkConfig "flux-sync" "flux" "flux" "flux@example.com")
    "refs/notes/flux".

Definition demoWorld (d : bool) (table : list (string * string)) : @Git.World demoHost :=
  @Git.mkWorld demoHost (mkDemo d table) [] [].

(** A scheduler that wakes a sleeper exactly on time. *)
Definition exactScheduler : Fluxctl.Scheduler :=
  {| Fluxctl.wakeup := fun t d => (t + d)%Z |}.

(** A predicate that counts its calls, takes [cost] nanoseconds each time
    and reports completion on call number [doneAt] (never, for 0). *)
Definition countingPredicate (doneAt : nat) (cost : Z) : Fluxctl.Predicate nat :=
  fun n t => ((Nat.eqb (S n) doneAt, None), S n, (t + cost)%Z).

Definition startWorld {St : Type} (s : St) : Fluxctl.World St :=
  Fluxctl.mkWorld 0%Z s [].

(** A server whose upgrade fails for a request that is no websocket
    handshake ([false]) and gives connection 7 otherwise; the registry is
    the list of the instances that registered. *)
Definition demoService : Server.Service :=
  {| Server.Request := bool;
     Server.Conn := nat;
     Server.Client := nat * nat;
     Server.Registry := list string;
     Server.getInstanceID := fun _ => "default";
     Server.Upgrade := fun w r =>
       if r then (inr 7, w) else (inl "websocket: not a websocket handshake", w);
     Server.Sprintf := fun s => s;
     Server.NewClientV4 := fun c => (4, c);
     Server.NewClientV5 := fun c => (5, c);
     Server.NewClientV6 := fun c => (6, c);
     Server.RegisterDaemon := fun inst _ reg => (None, inst :: reg);
     Server.Close := fun _ reg => (None, reg) |}.

End Fixtures.

(* ================================================================== *)
(** ** package git, the rest of git/operations.go and git/repo.go      *)
(* ================================================================== *)

(** A tactic for goals that are conjunctions of small facts: it splits
    them and closes each part by computation, by the injectivity and
    disjointness of constructors, or from the hypotheses. *)
Ltac split_all :=
  repeat (intros;
          match goal with
          | |- _ /\ _ => split
          | |- _ <-> _ => split
          end);
  intros; try reflexivity; try discriminate; try congruence; eauto.

Module GitRepo.
Import GoStrings.
Import Git.

Local Open Scope git_scope.
Local Open Scope Z_scope.

(** What [Clone] and [WorkingClone] return besides the errors of the git
    commands: [NoRepoError], an error of the operating system (by its
    text), and [CloningError(url, err)].

    Modelled from the spec: [NoRepoError] and [CloningError] are declared
    in git/errors.go, which is not among the sources; the spec names
    [NoRepoError] as the answer to an empty URL and [CloningError] as the
    error that wraps the cause of a failed clone and carries the URL. *)
Inductive cloneError : Type :=
| NoRepoError
| OSError (msg : string)
| CloningError (url : string) (cause : error)
| GitError (err : error).

(** [os.ModePerm] and the mode of a key file that ssh accepts, [0400]. *)
Definition ModePerm : Z := 511.
Definition ownerReadOnly : Z := 256.

(** The operating system under the package: [os.TempDir()],
    [ioutil.TempDir] (the new directory, or the text of the error),
    [os.Stat(name)] followed by [Mode()], [os.Chmod], [filepath.Join] of
    two elements, and the text [PushError(url, err).Error()] of the error
    declared in git/errors.go. *)
Class OS {host : Host} : Type := {
  osTempDir : string;
  TempDir : string -> string -> Machine -> (string + string) * Machine;
  Stat : string -> Machine -> string + Z;
  Chmod : string -> Z -> Machine -> option string * Machine;
  Join : string -> string -> string;
  pushErrorText : string -> error -> string
}.

Section Functions.
Context {host : Host} {os : OS}.

(** [err.Error()]: [errors.Wrap(cause, msg)] prints [msg], a colon and
    the cause. *)
Fixpoint Error (e : error) : string :=
  match e with
  | ErrNoChanges => "no changes made in repo"
  | ErrorsNew msg => msg
  | ExitError msg => msg
  | Wrap cause msg => (msg ++ ": " ++ Error cause)%string
  | PushError url cause => pushErrorText url cause
  | JSONError msg => msg
  end.

(** The operating system's calls, as steps of the state monad. *)
Definition tempDir (dir prefix : string) : M (string + string) :=
  fun w =>
    let (r, m') := TempDir dir prefix (machine w) in
    (r, mkWorld m' (trace w) (console w)).

Definition stat (name : string) : M (string + Z) :=
  fun w => (Stat name (machine w), w).

(** [func narrowKeyPerms(keyPath string) error] *)
Definition narrowKeyPerms (keyPath : string) : M (option string) :=
  fun w =>
    let (r, m') := Chmod keyPath ownerReadOnly (machine w) in
    (r, mkWorld m' (trace w) (console w)).

(** [func config(workingDir, user, email string) error].  The loop
    ranges over a map, whose order Go leaves open: [nameFirst] says which
    of the two entries the run visits first. *)
Definition configEntries (user email : string) (nameFirst : bool)
  : list (string * string) :=
  if nameFirst then [("user.name", user); ("user.email", email)]
  else [("user.email", email); ("user.name", user)].

Fixpoint configLoop (workingDir : string) (entries : list (string * string))
  : M (option error) :=
  match entries with
  | [] => ret None
  | (k, v) :: rest =>
      r <- execGitCmd workingDir "" false ["config"; k; v] ;;
      match fst r with
      | Some err => ret (Some (Wrap err "setting git config"))
      | None => configLoop workingDir rest
      end
  end.

Definition config (workingDir user email : string) (nameFirst : bool)
  : M (option error) :=
  configLoop workingDir (configEntries user email nameFirst).

(** The arguments [clone] builds. *)
Definition cloneArgs (repoBranch repoURL repoPath : string) : list string :=
  let args := ["clone"] in
  let args := if negb (String.eqb repoBranch "")
              then args ++ ["--branch"; repoBranch] else args in
  args ++ [repoURL; repoPath].

(** [func clone(workingDir, keyPath, repoURL, repoBranch string)
    (path string, err error)] *)
Definition clone (workingDir keyPath repoURL repoBranch : string)
  : M (string * option error) :=
  let repoPath := Join workingDir "repo" in
  r <- execGitCmd workingDir keyPath false (cloneArgs repoBranch repoURL repoPath) ;;
  match fst r with
  | Some err => ret ("", Some (Wrap err "git clone"))
  | None => ret (repoPath, None)
  end.

(** [func pull(keyPath, workingDir, upstream, ref string) error] *)
Definition pull (keyPath workingDir upstream ref : string) : M (option error) :=
  r <- execGitCmd workingDir keyPath false ["pull"; "--ff-only"; upstream; ref] ;;
  match fst r with
  | Some err =>
      ret (Some (Wrap err ("git pull --ff-only " ++ upstream ++ " " ++ ref)%string))
  | None => ret None
  end.

(** [func fetch(keyPath, workingDir, upstream, refspec string) error] *)
Definition fetch (keyPath workingDir upstream refspec : string) : M (option error) :=
  r <- execGitCmd workingDir keyPath false ["fetch"; upstream; refspec] ;;
  match fst r with
  | Some err => ret (Some (Wrap err ("git fetch " ++ upstream ++ " " ++ refspec)%string))
  | None => ret None
  end.

(** [func getNotesRef(workingDir, ref string) (string, error)] *)
Definition getNotesRef (workingDir ref : string) : M (string * option error) :=
  r <- execGitCmd workingDir "" true ["notes"; "--ref"; ref; "get-ref"] ;;
  match fst r with
  | Some err => ret ("", Some err)
  | None => ret (TrimSpace (snd r), None)
  end.

(** [func moveTagAndPush(path, key, tag, ref, msg, upstream string) error] *)
Definition moveTagAndPush (path key tag ref msg upstream : string) : M (option error) :=
  r <- execGitCmd path "" false ["tag"; "--force"; "-a"; "-m"; msg; tag; ref] ;;
  match fst r with
  | Some err => ret (Some (Wrap err ("moving tag " ++ tag)%string))
  | None =>
      p <- execGitCmd path key false ["push"; "--force"; upstream; "tag"; tag] ;;
      match fst p with
      | Some err => ret (Some (Wrap err "pushing tag to origin"))
      | None => ret None
      end
  end.

(** The test both clones and [Pull] make of a failed notes fetch:
    [err != nil && !strings.Contains(err.Error(), "Couldn't find remote ref")]. *)
Definition fetchFailed (fe : option error) : option error :=
  match fe with
  | Some err =>
      if negb (Contains (Error err) "Couldn't find remote ref") then Some err else None
  | None => None
  end.

(** The block of [Clone] that looks after the key file:
    [if r.Key != "" { stat ...; if stat.Mode()&os.ModePerm != 0400
    { narrowKeyPerms(r.Key) } }]. *)
Definition checkKey (key : string) : M (option cloneError) :=
  if negb (String.eqb key "") then
    s <- stat key ;;
    match s with
    | inl err => ret (Some (OSError err))
    | inr mode =>
        if negb (Z.land mode ModePerm =? ownerReadOnly) then
          n <- narrowKeyPerms key ;;
          match n with
          | Some err => ret (Some (OSError err))
          | None => ret None
          end
        else ret None
    end
  else ret None.

(** [func (r Repo) Clone(c Config) (Checkout, error)] *)
Definition Clone (r : Repo) (c : Config) (nameFirst : bool)
  : M (Checkout * option cloneError) :=
  if String.eqb (URL r) "" then ret (zeroCheckout, Some NoRepoError)
  else
    t <- tempDir osTempDir "flux-gitclone" ;;
    match t with
    | inl err => ret (zeroCheckout, Some (OSError err))
    | inr workingDir =>
        k <- checkKey (Key r) ;;
        match k with
        | Some err => ret (zeroCheckout, Some err)
        | None =>
            cl <- clone workingDir (Key r) (URL r) (Branch r) ;;
            match snd cl with
            | Some err => ret (zeroCheckout, Some (CloningError (URL r) err))
            | None =>
                let repoDir := fst cl in
                ce <- config repoDir (UserName c) (UserEmail c) nameFirst ;;
                match ce with
                | Some err => ret (zeroCheckout, Some (GitError err))
                | None =>
                    nr <- getNotesRef repoDir (NotesRef c) ;;
                    match snd nr with
                    | Some err => ret (zeroCheckout, Some (GitError err))
                    | None =>
                        let notesRef := fst nr in
                        fe <- fetch (Key r) repoDir (URL r)
                                (notesRef ++ ":" ++ notesRef)%string ;;
                        match fetchFailed fe with
                        | Some err => ret (zeroCheckout, Some (GitError err))
                        | None => ret (mkCheckout r repoDir c notesRef, None)
                        end
                    end
                end
            end
        end
    end.

(** [func (c Checkout) WorkingClone() (Checkout, error)] *)
Definition WorkingClone (c : Checkout) (nameFirst : bool)
  : M (Checkout * option cloneError) :=
  t <- tempDir osTempDir "flux-working" ;;
  match t with
  | inl err => ret (zeroCheckout, Some (OSError err))
  | inr workingDir =>
      cl <- clone workingDir "" (Dir c) (Branch (repo c)) ;;
      match snd cl with
      | Some err => ret (zeroCheckout, Some (GitError err))
      | None =>
          let repoDir := fst cl in
          ce <- config repoDir (UserName (Git.config c)) (UserEmail (Git.config c))
                  nameFirst ;;
          match ce with
          | Some err => ret (zeroCheckout, Some (GitError err))
          | None =>
              fe <- fetch "" repoDir (Dir c)
                      (realNotesRef c ++ ":" ++ realNotesRef c)%string ;;
              match fetchFailed fe with
              | Some err => ret (zeroCheckout, Some (GitError err))
              | None =>
                  ret (mkCheckout (repo c) repoDir (Git.config c) (realNotesRef c), None)
              end
          end
      end
  end.

(** [func (c Checkout) ManifestDir() string] *)
Definition ManifestDir (c : Checkout) : string := Join (Dir c) (Path (repo c)).

(** [func (c Checkout) Pull() error] *)
Definition Pull (c : Checkout) : M (option error) :=
  pe <- pull (Key (repo c)) (Dir c) (URL (repo c)) (Branch (repo c)) ;;
  match pe with
  | Some err => ret (Some err)
  | None =>
      fe <- fetch (Key (repo c)) (Dir c) (URL (repo c))
              (realNotesRef c ++ ":" ++ realNotesRef c)%string ;;
      ret (fetchFailed fe)
  end.

(** [func (c Checkout) HeadRevision() (string, error)] *)
Definition HeadRevision (c : Checkout) : M (string * option error) :=
  headRevision (Dir c).

(** [func (c Checkout) MoveTagAndPush(ref, msg string) error] *)
Definition MoveTagAndPush (c : Checkout) (ref msg : string) : M (option error) :=
  moveTagAndPush (Dir c) (Key (repo c)) (SyncTag (Git.config c)) ref msg (URL (repo c)).

(** The commands of the functions above, as [execGitCmd] builds them. *)
Definition pullCmd (c : Checkout) : Cmd :=
  gitCmd (Dir c) (Key (repo c)) false
    ["pull"; "--ff-only"; URL (repo c); Branch (repo c)].

Definition fetchNotesCmd (c : Checkout) : Cmd :=
  gitCmd (Dir c) (Key (repo c)) false
    ["fetch"; URL (repo c); (realNotesRef c ++ ":" ++ realNotesRef c)%string].

Definition tagCmd (c : Checkout) (ref msg : string) : Cmd :=
  gitCmd (Dir c) "" false
    ["tag"; "--force"; "-a"; "-m"; msg; SyncTag (Git.config c); ref].

Definition pushTagCmd (c : Checkout) : Cmd :=
  gitCmd (Dir c) (Key (repo c)) false
    ["push"; "--force"; URL (repo c); "tag"; SyncTag (Git.config c)].

Definition headCmd (c : Checkout) : Cmd :=
  gitCmd (Dir c) "" true ["rev-list"; "--max-count"; "1"; "HEAD"].

Definition addNoteCmd (c : Checkout) (rev note : string) : Cmd :=
  gitCmd (Dir c) "" false ["notes"; "--ref"; realNotesRef c; "add"; "-m"; note; rev].

(** The commands of [Clone] and [WorkingClone] in a working directory. *)
Definition cloneCmd (workingDir keyPath repoURL repoBranch : string) : Cmd :=
  gitCmd workingDir keyPath false
    (cloneArgs repoBranch repoURL (Join workingDir "repo")).

Definition configCmds (repoDir user email : string) (nameFirst : bool) : list Cmd :=
  map (fun kv => gitCmd repoDir "" false ["config"; fst kv; snd kv])
    (configEntries user email nameFirst).

Definition getRefCmd (repoDir ref : string) : Cmd :=
  gitCmd repoDir "" true ["notes"; "--ref"; ref; "get-ref"].

Definition fetchCmd (keyPath repoDir upstream ref : string) : Cmd :=
  gitCmd repoDir keyPath false ["fetch"; upstream; (ref ++ ":" ++ ref)%string].

(** The world in which the machine is [m] and nothing else has changed. *)
Definition onMachine (m : Machine) (w : World) : World :=
  mkWorld m (trace w) (console w).

(** A line that [findFatalMessage] can scan, and one it passes over. *)
Definition scannable (l : string) : Prop :=
  (N.of_nat (String.length l) < MaxScanTokenSize)%N.

Definition notFatal (l : string) : Prop :=
  HasPrefix (dropCR l) "fatal:" = false.

End Functions.

End GitRepo.

(* ================================================================== *)
(** ** package main of fluxctl: awaitSync                              *)
(* ================================================================== *)

Module FluxctlSync.
Import Fluxctl.

Local Open Scope Z_scope.

(** [noInstanceID] is declared in another file of package main: the
    instance ID of a client that names no instance, the empty string. *)
Definition noInstanceID : string := "".

(** [api.ClientService], as far as [awaitSync] uses it: [SyncStatus] is
    called at a time on the tracker's state and gives the outstanding
    refs and an error, the tracker's new state and the time of its
    return. *)
Class SyncService : Type := {
  SyncTracker : Type;
  SyncStatus : string -> string -> SyncTracker -> Z
               -> (list string * option error) * SyncTracker * Z
}.

Section AwaitSync.
Context {sched : Scheduler} {client : SyncService}.

(** The [func() (bool, error)] that [awaitSync] hands to [backoff]:
    [return err == nil && len(refs) == 0, err]. *)
Definition pollSync (commitRef : string) : Predicate SyncTracker :=
  fun tr now =>
    let '(r, tr', now') := SyncStatus noInstanceID commitRef tr now in
    ((negb (isSome (snd r)) && Nat.eqb (List.length (fst r)) 0, snd r), tr', now').

(** [func awaitSync(client api.ClientService, commitRef string) error] *)
Definition awaitSync (fuel : nat) (commitRef : string) (w : World SyncTracker)
  : option (option error * World SyncTracker) :=
  backoff fuel (100 * Millisecond) 2 100 (1 * Minute) (pollSync commitRef) w.

End AwaitSync.

End FluxctlSync.

(* ================================================================== *)
(** ** http/server/server.go: more of the handlers and the logging     *)
(* ================================================================== *)

Module ServerMore.
Import GoStrings.
Import Server.

Local Open Scope Z_scope.

(** *** The md5 fingerprint of GetConfig *)

Definition hexDigits : string := "0123456789abcdef".

Definition hexDigit (n : N) : ascii :=
  match String.get (N.to_nat n) hexDigits with
  | Some c => c
  | None => "0"%char
  end.

(** [fmt.Sprintf("%0.2x", b)] for a byte: two hexadecimal digits, in
    lower case. *)
Definition hex2 (b : Byte.byte) : string :=
  String (hexDigit (Byte.to_N b / 16)) (String (hexDigit (Byte.to_N b mod 16)) "").

(** The loop of case [md5]:
    [for i, b := range hash { fingerprint = fmt.Sprintf("%s%0.2x", fingerprint, b);
    if i < len(hash)-1 { fingerprint = fingerprint + ":" } }];
    [len] is [len(hash)] and [i] the index of the head of [rest]. *)
Fixpoint fingerprintLoop (len : Z) (i : Z) (rest : list Byte.byte)
  (fingerprint : string) : string :=
  match rest with
  | [] => fingerprint
  | b :: rest' =>
      let fingerprint := (fingerprint ++ hex2 b)%string in
      let fingerprint := if i <? len - 1 then (fingerprint ++ ":")%string
                         else fingerprint in
      fingerprintLoop len (i + 1) rest' fingerprint
  end.

Definition md5Fingerprint (hash : list Byte.byte) : string :=
  fingerprintLoop (Z.of_nat (List.length hash)) 0 hash "".

(** *** PostIntegrationsGithub *)

(** An error of the GitHub client: an [httperror.APIError] with its
    status code, or another error. *)
Inductive githubError : Type :=
| APIError (StatusCode : Z) (msg : string)
| OtherError (msg : string).

Definition StatusOK : Z := 200.
Definition StatusUnprocessableEntity : Z := 422.
Definition StatusInternalServerError : Z := 500.

(** What the handler reads of a request: the route variables [owner] and
    [repository], the header [GithubToken], and the instance. *)
Record GithubRequest : Type := mkGithubRequest {
  instance : string;
  owner : string;
  repository : string;
  token : string
}.

(** What the handler calls: [transport.WriteError] and
    [transport.ErrorResponse] (each by what it writes), the service's
    [GenerateDeployKey] and [GetConfig] followed by [Git.HideKey().Key],
    and [github.NewGithubClient(tok).InsertDeployKey]. *)
Class Integration : Type := {
  Instances : Type;
  Github : Type;
  WriteError : Z -> string -> list WriterCall;
  ErrorResponse : string -> list WriterCall;
  GenerateDeployKey : string -> Instances -> option string * Instances;
  GetPublicKey : string -> Instances -> (string + string) * Instances;
  InsertDeployKey : string -> string -> string -> string -> Github
                    -> option githubError * Github
}.

Section Github.
Context {integ : Integration}.

Definition githubErrorText (e : githubError) : string :=
  match e with
  | APIError _ msg => msg
  | OtherError msg => msg
  end.

(** [func (s HTTPService) PostIntegrationsGithub(w http.ResponseWriter,
    r *http.Request)]: the writer, the instances behind the service and
    GitHub after the call. *)
Definition PostIntegrationsGithub (w : ResponseWriter) (r : GithubRequest)
  (s : Instances) (g : Github) : ResponseWriter * Instances * Github :=
  let inst := instance r in
  let repo := repository r in
  let tok := token r in
  if String.eqb repo "" || String.eqb (owner r) "" || String.eqb tok "" then
    (w ++ WriteError StatusUnprocessableEntity "repo, owner or token is empty", s, g)
  else
    let '(err, s1) := GenerateDeployKey inst s in
    match err with
    | Some e => (w ++ ErrorResponse e, s1, g)
    | None =>
        let '(cfg, s2) := GetPublicKey inst s1 in
        match cfg with
        | inl e => (w ++ ErrorResponse e, s2, g)
        | inr publicKey =>
            let '(ierr, g1) := InsertDeployKey tok (owner r) repo publicKey g in
            match ierr with
            | Some e =>
                let code := match e with
                            | APIError StatusCode _ => StatusCode
                            | OtherError _ => StatusInternalServerError
                            end in
                (w ++ WriteError code (githubErrorText e), s2, g1)
            | None => (w ++ [WriteHeader StatusOK], s2, g1)
            end
        end
    end.

End Github.

(** *** UpdateImages *)

(** What the handler reads of a request: the instance, the route
    variables [image] and [kind], the error of [r.ParseForm()], the form
    values [service], the query values [exclude], and the form values
    [user] and [message]. *)
Record UpdateRequest : Type := mkUpdateRequest {
  ur_instance : string;
  ur_image : string;
  ur_kind : string;
  ur_parseForm : option string;
  ur_services : list string;
  ur_excludes : list string;
  ur_user : string;
  ur_message : string
}.

Definition StatusBadRequest400 : Z := 400.

(** What the handler calls: the four parsers of package flux (each gives
    the text of its error on the left), [%q], [transport.WriteError],
    [transport.ErrorResponse] and [transport.JSONResponse] by what they
    write, and the service's [UpdateImages] on the state behind it. *)
Class Release : Type := {
  ServiceSpec : Type;
  ImageSpec : Type;
  ReleaseKind : Type;
  ServiceID : Type;
  JobID : Type;
  Fleet : Type;
  ParseServiceSpec : string -> string + ServiceSpec;
  ParseImageSpec : string -> string + ImageSpec;
  ParseReleaseKind : string -> string + ReleaseKind;
  ParseServiceID : string -> string + ServiceID;
  Quoted : string -> string;
  WriteErrorText : Z -> string -> list WriterCall;
  ErrorResponseText : string -> list WriterCall;
  JSONResponse : JobID -> list WriterCall;
  ServiceUpdateImages :
    string -> list ServiceSpec * ImageSpec * ReleaseKind * list ServiceID
              * (string * string)
    -> Fleet -> (string + JobID) * Fleet
}.

Section UpdateImages.
Context {rel : Release}.

(** [errors.Wrapf(err, format, arg).Error()] for a format that ends in
    [%q]. *)
Definition wrapf (err what arg : string) : string :=
  (what ++ " " ++ Quoted arg ++ ": " ++ err)%string.

(** The two loops of the handler: each appends what it parsed and stops
    at the first value that does not parse, which it returns with the
    error. *)
Fixpoint parseServiceSpecs (values : list string) (serviceSpecs : list ServiceSpec)
  : (string * string) + list ServiceSpec :=
  match values with
  | [] => inr serviceSpecs
  | service :: rest =>
      match ParseServiceSpec service with
      | inl err => inl (service, err)
      | inr serviceSpec => parseServiceSpecs rest (serviceSpecs ++ [serviceSpec])
      end
  end.

Fixpoint parseExcludes (values : list string) (excludes : list ServiceID)
  : (string * string) + list ServiceID :=
  match values with
  | [] => inr excludes
  | ex :: rest =>
      match ParseServiceID ex with
      | inl err => inl (ex, err)
      | inr s => parseExcludes rest (excludes ++ [s])
      end
  end.

(** [func (s HTTPService) UpdateImages(w http.ResponseWriter, r *http.Request)] *)
Definition UpdateImages (w : ResponseWriter) (r : UpdateRequest) (s : Fleet)
  : ResponseWriter * Fleet :=
  match ur_parseForm r with
  | Some err =>
      (w ++ WriteErrorText StatusBadRequest400 ("parsing form: " ++ err)%string, s)
  | None =>
      match parseServiceSpecs (ur_services r) [] with
      | inl (service, err) =>
          (w ++ WriteErrorText StatusBadRequest400
                  (wrapf err "parsing service spec" service), s)
      | inr serviceSpecs =>
          match ParseImageSpec (ur_image r) with
          | inl err =>
              (w ++ WriteErrorText StatusBadRequest400
                      (wrapf err "parsing image spec" (ur_image r)), s)
          | inr imageSpec =>
              match ParseReleaseKind (ur_kind r) with
              | inl err =>
                  (w ++ WriteErrorText StatusBadRequest400
                          (wrapf err "parsing release kind" (ur_kind r)), s)
              | inr releaseKind =>
                  match parseExcludes (ur_excludes r) [] with
                  | inl (ex, err) =>
                      (w ++ WriteErrorText StatusBadRequest400
                              (wrapf err "parsing excluded service" ex), s)
                  | inr excludes =>
                      let '(res, s') :=
                        ServiceUpdateImages (ur_instance r)
                          (serviceSpecs, imageSpec, releaseKind, excludes,
                           (ur_user r, ur_message r)) s in
                      match res with
                      | inl err => (w ++ ErrorResponseText err, s')
                      | inr jobID => (w ++ JSONResponse jobID, s')
                      end
                  end
              end
          end
      end
  end.

End UpdateImages.

(** *** The logging middleware *)

(** [type codeWriter struct { http.ResponseWriter; code int }] *)
Record codeWriter : Type := mkCodeWriter {
  cw_writer : ResponseWriter;
  code : Z
}.

(** [type teeWriter struct { http.ResponseWriter; buf bytes.Buffer }],
    around a [codeWriter]. *)
Record teeWriter : Type := mkTeeWriter {
  tw_writer : codeWriter;
  buf : string
}.

(** [func (w *codeWriter) WriteHeader(code int)] *)
Definition codeWriter_WriteHeader (w : codeWriter) (c : Z) : codeWriter :=
  mkCodeWriter (cw_writer w ++ [WriteHeader c]) c.

(** [Write] of a [codeWriter] is that of the writer it embeds. *)
Definition codeWriter_Write (w : codeWriter) (p : string) : codeWriter :=
  mkCodeWriter (cw_writer w ++ [WriteBody p]) (code w).

(** [func (w *teeWriter) Write(p []byte) (int, error)] *)
Definition teeWriter_Write (w : teeWriter) (p : string) : teeWriter :=
  mkTeeWriter (codeWriter_Write (tw_writer w) p) (buf w ++ p)%string.

(** [WriteHeader] of a [teeWriter] is that of the [codeWriter] it embeds. *)
Definition teeWriter_WriteHeader (w : teeWriter) (c : Z) : teeWriter :=
  mkTeeWriter (codeWriter_WriteHeader (tw_writer w) c) (buf w).

(** A handler, by the calls it makes on the writer it is handed. *)
Definition teeWriter_call (w : teeWriter) (c : WriterCall) : teeWriter :=
  match c with
  | WriteHeader c' => teeWriter_WriteHeader w c'
  | WriteBody p => teeWriter_Write w p
  end.

Definition ServeHTTP (calls : list WriterCall) (w : teeWriter) : teeWriter :=
  fold_left teeWriter_call calls w.

(** Everything a list of calls writes to the body, and the code of the
    last [WriteHeader] among them ([d] when there is none). *)
Fixpoint written (calls : list WriterCall) : string :=
  match calls with
  | [] => ""
  | WriteHeader _ :: rest => written rest
  | WriteBody p :: rest => (p ++ written rest)%string
  end.

Fixpoint lastCode (calls : list WriterCall) (d : Z) : Z :=
  match calls with
  | [] => d
  | WriteHeader c :: rest => lastCode rest c
  | WriteBody _ :: rest => lastCode rest d
  end.

(** A value logged under a key. *)
Inductive LogValue : Type :=
| VString (s : string)
| VInt (n : Z).

(** What [logging] uses of its environment: [url.QueryUnescape],
    [time.Duration.String] and [strings.TrimSpace]. *)
Class LogEnv : Type := {
  QueryUnescape : string -> option string;
  DurationString : Z -> string;
  LogTrimSpace : string -> string
}.

Section Logging.
Context {lenv : LogEnv}.

(** [func mustUnescape(s string) string] *)
Definition mustUnescape (s : string) : string :=
  match QueryUnescape s with
  | Some unescaped => unescaped
  | None => s
  end.

(** [func logging(next http.Handler, logger log.Logger) http.Handler],
    applied to a writer and a request: [url] is [r.URL.String()], [begin]
    and [now] are the clock before and after [next]; the result is the
    writer after the call and the keys and values that the call of [Log]
    adds to those of [logger]. *)
Definition logging (next : list WriterCall) (w : ResponseWriter) (url : string)
  (begin now : Z) : ResponseWriter * list (string * LogValue) :=
  let cw := mkCodeWriter w StatusOK in
  let tw := mkTeeWriter cw "" in
  let tw := ServeHTTP next tw in
  let requestLogger :=
    [("url", VString (mustUnescape url));
     ("took", VString (DurationString (now - begin)));
     ("status_code", VInt (code (tw_writer tw)))] in
  let requestLogger :=
    if negb (code (tw_writer tw) =? StatusOK)
    then requestLogger ++ [("error", VString (LogTrimSpace (buf tw)))]
    else requestLogger in
  (cw_writer (tw_writer tw), requestLogger).

End Logging.

End ServerMore.

(* ================================================================== *)
(** ** More concrete environments                                      *)
(* ================================================================== *)

Module MoreFixtures.
Import GoStrings.
Import Fixtures.

Local Open Scope Z_scope.

(** A git host like [Fixtures.demoHost] whose fetch finds no notes ref on
    the remote, and whose tag command fails when the repository is dirty. *)
Definition freshRun (c : Git.Cmd) (m : DemoMachine) : Git.ProcResult * DemoMachine :=
  match Git.cmd_args c with
  | "fetch" :: _ =>
      (exited (line "warning: no common commits"
               ++ line "fatal: Couldn't find remote ref refs/notes/flux")%string, m)
  | "clone" :: _ => (succeeded "", m)
  | "config" :: _ => (succeeded "", m)
  | "pull" :: _ => (succeeded "", m)
  | "notes" :: "--ref" :: _ :: "get-ref" :: _ => (succeeded (line "refs/notes/flux"), m)
  | "tag" :: _ => (if dirty m then exited (line "fatal: bad tag") else succeeded "", m)
  | _ => demoRun c m
  end.

Definition freshHost : Git.Host :=
  {| Git.Machine := DemoMachine;
     Git.Run := freshRun;
     Git.Quote := demoQuote;
     Git.TrimSpace := fun s =>
       match rev (Split s newline) with
       | EmptyString :: before => Join (rev before) (String newline "")
       | _ => s
       end;
     Git.Spec := string;
     Git.jsonMarshalNote := demoMarshal;
     Git.jsonDecodeNote := demoDecode |}.

(** An operating system whose key file has the mode [keyMode]. *)
Definition demoOS (keyMode : Z) : @GitRepo.OS freshHost :=
  @GitRepo.Build_OS freshHost
    "/tmp"
    (fun dir prefix (m : DemoMachine) => (inr (dir ++ "/" ++ prefix ++ "1")%string, m))
    (fun _ _ => inr keyMode)
    (fun _ _ (m : DemoMachine) =>
       (None, mkDemo (dirty m) (("chmod", "0400") :: notes m)))
    (fun a b => (a ++ "/" ++ b)%string)
    (fun _ _ => "push failed").

Definition freshWorld (d : bool) : @Git.World freshHost :=
  @Git.mkWorld freshHost (mkDemo d []) [] [].

(** A git host like [freshHost] whose notes show prints the body of the
    note and a newline, as git does, and whose JSON decoder reads one
    value and leaves the white space after it. *)
Definition notesRun (c : Git.Cmd) (m : DemoMachine) : Git.ProcResult * DemoMachine :=
  match Git.cmd_args c with
  | "notes" :: "--ref" :: _ :: "show" :: rev :: _ =>
      match lookupNote rev (notes m) with
      | Some body => (succeeded (line body), m)
      | None => (exited ("error: no note found for object " ++ rev), m)
      end
  | _ => freshRun c m
  end.

Definition notesHost : Git.Host :=
  {| Git.Machine := DemoMachine;
     Git.Run := notesRun;
     Git.Quote := demoQuote;
     Git.TrimSpace := @Git.TrimSpace freshHost;
     Git.Spec := string;
     Git.jsonMarshalNote := demoMarshal;
     Git.jsonDecodeNote := fun body => demoDecode (@Git.TrimSpace freshHost body) |}.

Definition notesWorld (d : bool) : @Git.World notesHost :=
  @Git.mkWorld notesHost (mkDemo d []) [] [].

(** A sync tracker that reports one outstanding ref to the first two
    queries and none from the third on; a query takes a millisecond. *)
Definition demoSyncStatus (inst ref : string) (polls : nat) (now : Z)
  : (list string * option Fluxctl.error) * nat * Z :=
  ((match polls with
    | O => [ref]
    | S O => [ref]
    | S (S _) => []
    end, None),
   S polls, now + Fluxctl.Millisecond).

Definition demoSync : FluxctlSync.SyncService :=
  {| FluxctlSync.SyncTracker := nat; FluxctlSync.SyncStatus := demoSyncStatus |}.

(** An integration whose GitHub refuses the key of the owner [nobody]
    with the status 404. *)
Definition demoIntegration : ServerMore.Integration :=
  {| ServerMore.Instances := list string;
     ServerMore.Github := list string;
     ServerMore.WriteError := fun code msg =>
       [Server.WriteHeader code; Server.WriteBody msg];
     ServerMore.ErrorResponse := fun msg =>
       [Server.WriteHeader 500; Server.WriteBody msg];
     ServerMore.GenerateDeployKey := fun inst s => (None, inst :: s);
     ServerMore.GetPublicKey := fun inst s => (inr "ssh-rsa AAAA", s);
     ServerMore.InsertDeployKey := fun tok owner repo key g =>
       if String.eqb owner "nobody"
       then (Some (ServerMore.APIError 404 "Not Found"), g)
       else (None, key :: g) |}.

(** A release service whose parsers accept every value but the empty
    string, and which counts the jobs it was given. *)
Definition demoParse (v : string) : string + string :=
  if String.eqb v "" then inl "empty" else inr v.

Definition demoRelease : ServerMore.Release :=
  {| ServerMore.ServiceSpec := string;
     ServerMore.ImageSpec := string;
     ServerMore.ReleaseKind := string;
     ServerMore.ServiceID := string;
     ServerMore.JobID := nat;
     ServerMore.Fleet := nat;
     ServerMore.ParseServiceSpec := demoParse;
     ServerMore.ParseImageSpec := demoParse;
     ServerMore.ParseReleaseKind := demoParse;
     ServerMore.ParseServiceID := demoParse;
     ServerMore.Quoted := demoQuote;
     ServerMore.WriteErrorText := fun code msg =>
       [Server.WriteHeader code; Server.WriteBody msg];
     ServerMore.ErrorResponseText := fun msg =>
       [Server.WriteHeader 500; Server.WriteBody msg];
     ServerMore.JSONResponse := fun _ => [Server.WriteBody "job"];
     ServerMore.ServiceUpdateImages := fun _ _ jobs => (inr jobs, S jobs) |}.

Definition demoLogEnv : ServerMore.LogEnv :=
  {| ServerMore.QueryUnescape := fun s => Some s;
     ServerMore.DurationString := fun _ => "1ms";
     ServerMore.LogTrimSpace := fun s => s |}.

End MoreFixtures.

(* ################################################################## *)
(** * Part II: theorems                                                *)
(* ################################################################## *)

(* ================================================================== *)
(** ** Facts about the string helpers                                  *)
(* ================================================================== *)

Module GoStringsFacts.
Import GoStrings.

Lemma Split_not_nil (s : string) (sep : ascii) : Split s sep <> [].
Proof.
  destruct s as [|a s]; simpl; [discriminate|].
  destruct (Ascii.eqb a sep); [discriminate|].
  destruct (Split s sep); discriminate.
Qed.

Lemma Split_cons (s : string) (sep : ascii) :
  exists piece rest, Split s sep = piece :: rest.
Proof.
  destruct (Split s sep) as [|p r] eqn:E.
  - exfalso. exact (Split_not_nil _ _ E).
  - eauto.
Qed.

(** Joining the pieces with the separator gives the string back: [Split]
    loses nothing and invents nothing. *)
Lemma Join_Split (s : string) (sep : ascii) :
  Join (Split s sep) (String sep "") = s.
Proof.
  induction s as [|a s IH]; simpl; [reflexivity|].
  destruct (Ascii.eqb a sep) eqn:E.
  - apply Ascii.eqb_eq in E. subst a.
    destruct (Split_cons s sep) as (p & r & Hs).
    rewrite Hs in *. simpl. f_equal. exact IH.
  - destruct (Split_cons s sep) as (p & r & Hs).
    rewrite Hs in *. destruct r as [|q r].
    + simpl in *. now f_equal.
    + simpl in *. now f_equal.
Qed.

(** After a final separator comes one last, empty piece (so there are at
    least two pieces). *)
Lemma Split_ends (s : string) (sep : ascii) (d : string) :
  EndsWith s sep = true ->
  exists piece rest, Split s sep = piece :: rest /\ rest <> [] /\ last rest d = "".
Proof.
  induction s as [|a s IH]; simpl; [discriminate|].
  destruct s as [|b s'].
  - intros E. rewrite E. exists "", [""]. repeat split. discriminate.
  - intros E. destruct (IH E) as (p & r & Hs & Hr & Hl). rewrite Hs.
    destruct (Ascii.eqb a sep).
    + exists "", (p :: r). repeat split; [discriminate|].
      destruct r; [contradiction|exact Hl].
    + exists (String a p), r. repeat split; assumption.
Qed.

Lemma Split_last_empty (s : string) (sep : ascii) (d : string) :
  EndsWith s sep = true -> last (Split s sep) d = "".
Proof.
  intros E. destruct (Split_ends s sep d E) as (p & r & Hs & Hr & Hl).
  rewrite Hs. destruct r; [contradiction|exact Hl].
Qed.

Lemma prefix_split (p s : string) :
  String.prefix p s = true <-> exists r, s = (p ++ r)%string.
Proof.
  revert s. induction p as [|a p IH]; intros s; simpl.
  - split; [intros _; exists s; reflexivity|].
    intros _. destruct s; reflexivity.
  - destruct s as [|b s].
    + split; [discriminate|]. intros (r & H). discriminate.
    + simpl. destruct (Ascii.ascii_dec a b) as [->|Hne].
      * rewrite IH. split; intros (r & H); exists r; [now f_equal|now inversion H].
      * split; [discriminate|]. intros (r & H). inversion H. congruence.
Qed.

Lemma prefix_app (p s t : string) :
  String.prefix p s = true -> String.prefix p (s ++ t) = true.
Proof.
  rewrite !prefix_split. intros (r & ->). exists (r ++ t)%string.
  clear. induction p as [|a p IH]; simpl; [reflexivity|now f_equal].
Qed.

(** [Contains] finds exactly the strings that hold [sub] between two
    other strings. *)
Lemma Contains_spec (s sub : string) :
  Contains s sub = true <-> exists l r, s = (l ++ sub ++ r)%string.
Proof.
  split.
  - induction s as [|a s IH]; simpl; intros H.
    + rewrite orb_false_r in H. destruct sub; [|discriminate].
      exists "", "". reflexivity.
    + apply orb_true_iff in H. destruct H as [H|H].
      * apply (proj1 (prefix_split sub (String a s))) in H.
        destruct H as (r & H). exists "", r. exact H.
      * destruct (IH H) as (l & r & ->). exists (String a l), r. reflexivity.
  - intros (l & r & ->). induction l as [|a l IH].
    + simpl append.
      assert (P : String.prefix sub (sub ++ r) = true)
        by (apply prefix_split; eauto).
      destruct (sub ++ r)%string; cbn [Contains]; rewrite P; reflexivity.
    + simpl. apply orb_true_iff. right. exact IH.
Qed.

Lemma Contains_app_l (s t sub : string) :
  Contains s sub = true -> Contains (s ++ t) sub = true.
Proof.
  rewrite !Contains_spec. intros (l & r & ->). exists l, (r ++ t)%string.
  clear. induction l as [|a l IH]; simpl.
  - induction sub as [|c sub IHs]; simpl; [reflexivity|now f_equal].
  - now f_equal.
Qed.

End GoStringsFacts.

(* ================================================================== *)
(** ** package git                                                     *)
(* ================================================================== *)

Module GitFacts.
Import GoStrings GoStringsFacts Git.

Section Facts.
Context {host : Host}.

(** *** What each operation runs and returns *)

Lemma execGitCmd_eq (dir keyPath : string) (out : bool) (args : list string) (w : World) :
  execGitCmd dir keyPath out args w =
  ((cmdError (outcome (gitCmd dir keyPath out args) w),
    if out then proc_stdout (outcome (gitCmd dir keyPath out args) w) else ""),
   ran (gitCmd dir keyPath out args) w).
Proof.
  unfold execGitCmd, bind, runCmd, ran, outcome, cmdError, gitCmd.
  destruct (Run _ (machine w)) as [r m'] eqn:E. simpl.
  destruct (run_err r); [|reflexivity].
  unfold println. simpl.
  destruct (String.eqb (findFatalMessage (proc_stderr r)) ""); reflexivity.
Qed.

Lemma cmdError_kind (r : ProcResult) (e : error) :
  cmdError r = Some e -> kind_of e = KCommand.
Proof.
  unfold cmdError. destruct (run_err r); [|discriminate].
  destruct (String.eqb _ ""); intros H; inversion H; reflexivity.
Qed.

Lemma cmdError_None (r : ProcResult) :
  cmdError r = None <-> run_err r = None.
Proof.
  unfold cmdError. destruct (run_err r); [|tauto].
  destruct (String.eqb _ ""); split; discriminate.
Qed.

Lemma check_eq (workingDir subdir : string) (w : World) :
  check workingDir subdir w =
  (match cmdError (outcome (gitCmd workingDir "" false ["diff"; "--quiet"; "--"; subdir]) w) with
   | Some _ => true
   | None => false
   end,
   ran (gitCmd workingDir "" false ["diff"; "--quiet"; "--"; subdir]) w).
Proof. unfold check, bind. rewrite execGitCmd_eq. reflexivity. Qed.

Lemma commit_eq (workingDir commitMessage : string) (w : World) :
  commit workingDir commitMessage w =
  (match cmdError (outcome (gitCmd workingDir "" false
                      ["commit"; "--no-verify"; "-a"; "-m"; commitMessage]) w) with
   | Some err => Some (Wrap err "git commit")
   | None => None
   end,
   ran (gitCmd workingDir "" false ["commit"; "--no-verify"; "-a"; "-m"; commitMessage]) w).
Proof.
  unfold commit, bind. rewrite execGitCmd_eq. simpl.
  destruct (cmdError _); reflexivity.
Qed.

Lemma push_eq (keyPath workingDir upstream : string) (refs : list string) (w : World) :
  push keyPath workingDir upstream refs w =
  (match cmdError (outcome (gitCmd workingDir keyPath false (["push"; upstream] ++ refs)) w) with
   | Some err => Some (Wrap err (pushMessage upstream refs))
   | None => None
   end,
   ran (gitCmd workingDir keyPath false (["push"; upstream] ++ refs)) w).
Proof.
  unfold push, bind. rewrite execGitCmd_eq. cbn [fst].
  destruct (cmdError _); reflexivity.
Qed.

Lemma addNote_eq (workingDir rev notesRef note : string) (w : World) :
  addNote workingDir rev notesRef note w =
  (cmdError (outcome (gitCmd workingDir "" false
               ["notes"; "--ref"; notesRef; "add"; "-m"; note; rev]) w),
   ran (gitCmd workingDir "" false ["notes"; "--ref"; notesRef; "add"; "-m"; note; rev]) w).
Proof. unfold addNote, bind. rewrite execGitCmd_eq. reflexivity. Qed.

Lemma headRevision_eq (path : string) (w : World) :
  headRevision path w =
  (match cmdError (outcome (gitCmd path "" true ["rev-list"; "--max-count"; "1"; "HEAD"]) w) with
   | Some err => ("", Some err)
   | None => (TrimSpace (proc_stdout (outcome
                (gitCmd path "" true ["rev-list"; "--max-count"; "1"; "HEAD"]) w)), None)
   end,
   ran (gitCmd path "" true ["rev-list"; "--max-count"; "1"; "HEAD"]) w).
Proof.
  unfold headRevision, bind. rewrite execGitCmd_eq. cbn [fst snd].
  destruct (cmdError _); reflexivity.
Qed.

Lemma getNote_eq (workingDir notesRef rev : string) (w : World) :
  getNote workingDir notesRef rev w =
  (match cmdError (outcome (gitCmd workingDir "" true
                      ["notes"; "--ref"; notesRef; "show"; rev]) w) with
   | Some err => (None, Some err)
   | None =>
       match jsonDecode (proc_stdout (outcome (gitCmd workingDir "" true
                           ["notes"; "--ref"; notesRef; "show"; rev]) w)) with
       | inl msg => (None, Some (JSONError msg))
       | inr note => (Some note, None)
       end
   end,
   ran (gitCmd workingDir "" true ["notes"; "--ref"; notesRef; "show"; rev]) w).
Proof.
  unfold getNote, bind. rewrite execGitCmd_eq. cbn [fst snd].
  destruct (cmdError _); [reflexivity|].
  destruct (jsonDecode _); reflexivity.
Qed.

Lemma revlist_eq (path ref : string) (w : World) :
  revlist path ref w =
  (match cmdError (outcome (gitCmd path "" true ["rev-list"; ref]) w) with
   | Some err => ([], Some err)
   | None => (Split (proc_stdout (outcome (gitCmd path "" true ["rev-list"; ref]) w)) newline,
              None)
   end,
   ran (gitCmd path "" true ["rev-list"; ref]) w).
Proof.
  unfold revlist, bind. rewrite execGitCmd_eq. cbn [fst snd].
  destruct (cmdError _); reflexivity.
Qed.

Lemma trace_ran (c : Cmd) (w : World) : trace (ran c w) = trace w ++ [c].
Proof. reflexivity. Qed.

(** *** The environment of a git command *)

Lemma env_head (keyPath : string) :
  exists suffix rest, env keyPath = (base ++ suffix)%string :: rest.
Proof.
  unfold env. destruct (String.eqb keyPath "").
  - now exists "", [].
  - eexists. eexists. reflexivity.
Qed.

(** C8: every git command runs with an environment whose first entry is
    GIT_SSH_COMMAND and holds both UserKnownHostsFile=/dev/null and
    StrictHostKeyChecking=no, whether or not a key path is given; without a
    key path that entry is all there is, and with one the -i option and
    GIT_TERMINAL_PROMPT=0 are added. *)
Theorem env_disables_host_key_checking (keyPath : string) :
  HasPrefix (hd "" (env keyPath)) "GIT_SSH_COMMAND=" = true
  /\ Contains (hd "" (env keyPath)) "UserKnownHostsFile=/dev/null" = true
  /\ Contains (hd "" (env keyPath)) "StrictHostKeyChecking=no" = true
  /\ env "" = [base]
  /\ Contains base " -i " = false
  /\ (keyPath <> "" ->
      env keyPath = [(base ++ " -i " ++ Quote keyPath)%string; "GIT_TERMINAL_PROMPT=0"])
  /\ (forall dir out args w,
        execGitCmd dir keyPath out args w =
          ((cmdError (outcome (gitCmd dir keyPath out args) w),
            if out then proc_stdout (outcome (gitCmd dir keyPath out args) w) else ""),
           ran (gitCmd dir keyPath out args) w)
        /\ trace (snd (execGitCmd dir keyPath out args w))
           = trace w ++ [gitCmd dir keyPath out args]
        /\ cmd_env (gitCmd dir keyPath out args) = env keyPath).
Proof.
  destruct (env_head keyPath) as (suffix & rest & He).
  split; [|split; [|split; [|split; [|split; [|split]]]]].
  - rewrite He. cbn [hd]. unfold HasPrefix. apply prefix_app. reflexivity.
  - rewrite He. cbn [hd]. apply Contains_app_l. reflexivity.
  - rewrite He. cbn [hd]. apply Contains_app_l. reflexivity.
  - reflexivity.
  - reflexivity.
  - intros Hk. unfold env. apply String.eqb_neq in Hk. rewrite Hk. reflexivity.
  - intros dir out args w. split; [apply execGitCmd_eq|].
    split; [rewrite execGitCmd_eq|]; reflexivity.
Qed.

(** *** CommitAndPush *)

Lemma CommitAndPush_clean (c : Checkout) (commitMessage : string)
  (note : option Note) (w : World) :
  cmdError (outcome (diffCmd c) w) = None ->
  CommitAndPush c commitMessage note w = (Some ErrNoChanges, ran (diffCmd c) w).
Proof.
  intros Ed. unfold CommitAndPush, bind.
  rewrite check_eq. fold (diffCmd c). rewrite Ed. reflexivity.
Qed.

Lemma CommitAndPush_dirty (c : Checkout) (commitMessage : string)
  (note : option Note) (w : World) :
  cmdError (outcome (diffCmd c) w) <> None ->
  exists rest,
    trace (snd (CommitAndPush c commitMessage note w))
      = trace w ++ diffCmd c :: commitCmd c commitMessage :: rest
    /\ (forall e, fst (CommitAndPush c commitMessage note w) = Some e ->
                  kind_of e <> KNoChanges)
    /\ (fst (CommitAndPush c commitMessage note w) = None ->
          exists mid, rest = mid ++ [pushCmd c])
    /\ (note = None ->
          cmdError (outcome (commitCmd c commitMessage) (ran (diffCmd c) w)) = None ->
          rest = [pushCmd c]).
Proof.
  intros Ed. unfold CommitAndPush, bind.
  rewrite check_eq. fold (diffCmd c).
  destruct (cmdError (outcome (diffCmd c) w)) as [e|]; [clear Ed|congruence].
  cbn [negb].
  rewrite commit_eq. fold (commitCmd c commitMessage).
  destruct (cmdError (outcome (commitCmd c commitMessage) (ran (diffCmd c) w)))
    as [ec|] eqn:Ec.
  { exists []. cbn [fst snd ret].
    split; [now rewrite ?trace_ran, <- ?app_assoc|]. split.
    - intros e' H. inversion H. cbn [kind_of].
      rewrite (cmdError_kind _ _ Ec). discriminate.
    - split; discriminate. }
  destruct note as [n|].
  - destruct (jsonMarshal n) as [msg|noteBytes].
    { exists []. cbn [fst snd ret].
      split; [now rewrite ?trace_ran, <- ?app_assoc|]. split.
      - intros e' H. inversion H. discriminate.
      - split; discriminate. }
    rewrite headRevision_eq.
    set (hc := gitCmd (Dir c) "" true ["rev-list"; "--max-count"; "1"; "HEAD"]).
    destruct (cmdError (outcome hc _)) as [eh|] eqn:Eh; cbn [fst snd ret].
    { exists [hc]. split; [now rewrite ?trace_ran, <- ?app_assoc|]. split.
      - intros e' H. inversion H. subst e'. rewrite (cmdError_kind _ _ Eh). discriminate.
      - split; discriminate. }
    rewrite addNote_eq.
    set (ac := gitCmd (Dir c) "" false _).
    destruct (cmdError (outcome ac _)) as [ea|] eqn:Ea; cbn [fst snd ret].
    { exists [hc; ac]. split; [now rewrite ?trace_ran, <- ?app_assoc|]. split.
      - intros e' H. inversion H. subst e'. rewrite (cmdError_kind _ _ Ea). discriminate.
      - split; discriminate. }
    rewrite push_eq.
    change (gitCmd (Dir c) (Key (repo c)) false _) with (pushCmd c).
    exists ([hc; ac] ++ [pushCmd c]).
    destruct (cmdError (outcome (pushCmd c) _)); cbn [fst snd ret].
    + split; [now rewrite ?trace_ran, <- ?app_assoc|]. split.
      * intros e' H. inversion H. discriminate.
      * split; discriminate.
    + split; [now rewrite ?trace_ran, <- ?app_assoc|]. split; [discriminate|].
      split; [intros _; exists [hc; ac]; reflexivity|discriminate].
  - cbn [ret fst snd]. rewrite push_eq.
    change (gitCmd (Dir c) (Key (repo c)) false _) with (pushCmd c).
    exists [pushCmd c].
    destruct (cmdError (outcome (pushCmd c) _)); cbn [fst snd ret].
    + split; [now rewrite ?trace_ran, <- ?app_assoc|]. split.
      * intros e' H. inversion H. discriminate.
      * split; [discriminate|reflexivity].
    + split; [now rewrite ?trace_ran, <- ?app_assoc|]. split; [discriminate|].
      split; [intros _; exists []; reflexivity|reflexivity].
Qed.

Lemma check_false_iff (c : Checkout) (w : World) :
  fst (check (Dir c) (Path (repo c)) w) = false
  <-> cmdError (outcome (diffCmd c) w) = None.
Proof.
  rewrite check_eq. fold (diffCmd c). cbn [fst].
  destruct (cmdError _); split; congruence.
Qed.

(** What the push of CommitAndPush gives in the world [w]: nil, or the
    error of the push command, wrapped and made a PushError for the URL. *)
Lemma CommitAndPush_pushes (c : Checkout) (commitMessage : string)
  (note : option Note) (w : World) :
  cmdError (outcome (diffCmd c) w) <> None ->
  cmdError (outcome (commitCmd c commitMessage) (ran (diffCmd c) w)) = None ->
  (note = None ->
     CommitAndPush c commitMessage note w
     = (match cmdError (outcome (pushCmd c)
                          (ran (commitCmd c commitMessage) (ran (diffCmd c) w))) with
        | Some err =>
            Some (mkPushError (URL (repo c))
                    (Wrap err (pushMessage (URL (repo c))
                                 [Branch (repo c); realNotesRef c])))
        | None => None
        end,
        ran (pushCmd c) (ran (commitCmd c commitMessage) (ran (diffCmd c) w))))
  /\ (forall n noteBytes,
        note = Some n ->
        jsonMarshal n = inr noteBytes ->
        cmdError (outcome (GitRepo.headCmd c)
                    (ran (commitCmd c commitMessage) (ran (diffCmd c) w))) = None ->
        cmdError
          (outcome
             (GitRepo.addNoteCmd c
                (TrimSpace (proc_stdout (outcome (GitRepo.headCmd c)
                   (ran (commitCmd c commitMessage) (ran (diffCmd c) w)))))
                noteBytes)
             (ran (GitRepo.headCmd c)
                (ran (commitCmd c commitMessage) (ran (diffCmd c) w)))) = None ->
        CommitAndPush c commitMessage note w
        = (match cmdError
                   (outcome (pushCmd c)
                      (ran (GitRepo.addNoteCmd c
                              (TrimSpace (proc_stdout (outcome (GitRepo.headCmd c)
                                 (ran (commitCmd c commitMessage) (ran (diffCmd c) w)))))
                              noteBytes)
                         (ran (GitRepo.headCmd c)
                            (ran (commitCmd c commitMessage) (ran (diffCmd c) w))))) with
           | Some err =>
               Some (mkPushError (URL (repo c))
                       (Wrap err (pushMessage (URL (repo c))
                                    [Branch (repo c); realNotesRef c])))
           | None => None
           end,
           ran (pushCmd c)
             (ran (GitRepo.addNoteCmd c
                     (TrimSpace (proc_stdout (outcome (GitRepo.headCmd c)
                        (ran (commitCmd c commitMessage) (ran (diffCmd c) w)))))
                     noteBytes)
                (ran (GitRepo.headCmd c)
                   (ran (commitCmd c commitMessage) (ran (diffCmd c) w)))))).
Proof.
  intros Ed Ec. split.
  - intros ->. unfold CommitAndPush, bind. rewrite check_eq. fold (diffCmd c).
    destruct (cmdError (outcome (diffCmd c) w)); [|congruence]. cbn [negb].
    rewrite commit_eq. fold (commitCmd c commitMessage). rewrite Ec.
    cbn [ret]. rewrite push_eq.
    change (gitCmd (Dir c) (Key (repo c)) false _) with (pushCmd c).
    destruct (cmdError (outcome (pushCmd c) _)); reflexivity.
  - intros n noteBytes -> Hm Eh Ea. unfold CommitAndPush, bind.
    rewrite check_eq. fold (diffCmd c).
    destruct (cmdError (outcome (diffCmd c) w)); [|congruence]. cbn [negb].
    rewrite commit_eq. fold (commitCmd c commitMessage). rewrite Ec, Hm.
    rewrite headRevision_eq.
    change (gitCmd (Dir c) "" true ["rev-list"; "--max-count"; "1"; "HEAD"])
      with (GitRepo.headCmd c).
    rewrite Eh. cbn [fst snd]. rewrite addNote_eq.
    change (gitCmd (Dir c) "" false
              ["notes"; "--ref"; realNotesRef c; "add"; "-m"; noteBytes;
               TrimSpace (proc_stdout (outcome (GitRepo.headCmd c)
                  (ran (commitCmd c commitMessage) (ran (diffCmd c) w))))])
      with (GitRepo.addNoteCmd c
              (TrimSpace (proc_stdout (outcome (GitRepo.headCmd c)
                 (ran (commitCmd c commitMessage) (ran (diffCmd c) w)))))
              noteBytes).
    rewrite Ea. rewrite push_eq.
    change (gitCmd (Dir c) (Key (repo c)) false _) with (pushCmd c).
    destruct (cmdError (outcome (pushCmd c) _)); reflexivity.
Qed.

(** C1: CommitAndPush returns the sentinel ErrNoChanges exactly when the
    check finds no change, which is when the diff command under the subpath
    exits without error; among the errors CommitAndPush returns the
    sentinel is the only one of its kind; the diff is then the only
    command that ran (no commit, no note, no push).  When there is a change
    the commit command runs next, and a nil result means that the last
    command was the push.  After a commit that succeeded CommitAndPush
    goes on to the push: at once when no note is given; and when a note is
    given that can be marshalled, after the rev-list of HEAD and the notes
    add of the marshalled note to the revision it printed, if both
    succeed.  The push is then the last command and its outcome the
    result: nil, or a PushError for the URL around the wrapped error of
    the push command. *)
Theorem CommitAndPush_no_changes (c : Checkout) (commitMessage : string)
  (note : option Note) (w : World) :
  (fst (CommitAndPush c commitMessage note w) = Some ErrNoChanges
     <-> fst (check (Dir c) (Path (repo c)) w) = false)
  /\ (fst (check (Dir c) (Path (repo c)) w) = false
        <-> run_err (outcome (diffCmd c) w) = None)
  /\ (forall e, fst (CommitAndPush c commitMessage note w) = Some e ->
                (kind_of e = KNoChanges <-> e = ErrNoChanges))
  /\ (fst (check (Dir c) (Path (repo c)) w) = false ->
        snd (CommitAndPush c commitMessage note w) = ran (diffCmd c) w
        /\ trace (snd (CommitAndPush c commitMessage note w)) = trace w ++ [diffCmd c])
  /\ (fst (check (Dir c) (Path (repo c)) w) = true ->
        exists rest,
          trace (snd (CommitAndPush c commitMessage note w))
            = trace w ++ diffCmd c :: commitCmd c commitMessage :: rest
          /\ (fst (CommitAndPush c commitMessage note w) = None ->
                exists mid, rest = mid ++ [pushCmd c])
          /\ (note = None ->
                run_err (outcome (commitCmd c commitMessage) (ran (diffCmd c) w)) = None ->
                rest = [pushCmd c]))
  /\ (fst (check (Dir c) (Path (repo c)) w) = true ->
      run_err (outcome (commitCmd c commitMessage) (ran (diffCmd c) w)) = None ->
      let committed := ran (commitCmd c commitMessage) (ran (diffCmd c) w) in
      let pushed (w' : World) : option error * World :=
        (match cmdError (outcome (pushCmd c) w') with
         | Some err =>
             Some (mkPushError (URL (repo c))
                     (Wrap err (pushMessage (URL (repo c))
                                  [Branch (repo c); realNotesRef c])))
         | None => None
         end,
         ran (pushCmd c) w') in
      (note = None -> CommitAndPush c commitMessage note w = pushed committed)
      /\ (forall n noteBytes,
            note = Some n ->
            jsonMarshal n = inr noteBytes ->
            run_err (outcome (GitRepo.headCmd c) committed) = None ->
            let rev := TrimSpace (proc_stdout (outcome (GitRepo.headCmd c) committed)) in
            run_err (outcome (GitRepo.addNoteCmd c rev noteBytes)
                       (ran (GitRepo.headCmd c) committed)) = None ->
            CommitAndPush c commitMessage note w
            = pushed (ran (GitRepo.addNoteCmd c rev noteBytes)
                        (ran (GitRepo.headCmd c) committed))
            /\ trace (snd (CommitAndPush c commitMessage note w))
               = trace w ++ [diffCmd c; commitCmd c commitMessage; GitRepo.headCmd c;
                             GitRepo.addNoteCmd c rev noteBytes; pushCmd c])).
Proof.
  split; [|split; [|split; [|split; [|split]]]].
  - rewrite check_false_iff. split.
    + intros H.
      destruct (cmdError (outcome (diffCmd c) w)) eqn:Ed; [|reflexivity].
      destruct (CommitAndPush_dirty c commitMessage note w) as (rest & _ & Hn & _);
        [congruence|].
      exfalso. apply (Hn ErrNoChanges H). reflexivity.
    + intros Ed. rewrite CommitAndPush_clean by exact Ed. reflexivity.
  - rewrite check_false_iff. apply cmdError_None.
  - intros e He. split; [|intros ->; reflexivity].
    intros Hk. destruct (cmdError (outcome (diffCmd c) w)) eqn:Ed.
    + destruct (CommitAndPush_dirty c commitMessage note w) as (rest & _ & Hn & _);
        [congruence|].
      exfalso. exact (Hn e He Hk).
    + rewrite CommitAndPush_clean in He by exact Ed. cbn [fst] in He. congruence.
  - rewrite check_false_iff. intros Ed.
    rewrite CommitAndPush_clean by exact Ed. split; reflexivity.
  - intros Hc.
    assert (Ed : cmdError (outcome (diffCmd c) w) <> None).
    { intros Ed. apply check_false_iff in Ed. congruence. }
    destruct (CommitAndPush_dirty c commitMessage note w Ed) as (rest & Ht & _ & Hp & Hn).
    exists rest. split; [exact Ht|]. split; [exact Hp|].
    intros Hnote Hcommit. apply Hn; [exact Hnote|]. apply cmdError_None. exact Hcommit.
  - intros Hc Hcommit committed pushed.
    assert (Ed : cmdError (outcome (diffCmd c) w) <> None).
    { intros Ed. apply check_false_iff in Ed. congruence. }
    apply cmdError_None in Hcommit.
    destruct (CommitAndPush_pushes c commitMessage note w Ed Hcommit) as [Hnone Hsome].
    split; [exact Hnone|].
    intros n noteBytes Hn Hm Hh rev Ha.
    apply cmdError_None in Hh. apply cmdError_None in Ha.
    rewrite (Hsome n noteBytes Hn Hm Hh Ha). split; [reflexivity|].
    unfold pushed. cbn [snd]. rewrite !trace_ran, <- !app_assoc. reflexivity.
Qed.

(** *** GetNote *)

(** The three ways [GetNote] can end. *)
Lemma GetNote_cases (c : Checkout) (rev : string) (w : World) :
  (exists e, cmdError (outcome (showNoteCmd c rev) w) = Some e
             /\ fst (GetNote c rev w) = (None, Some e))
  \/ (exists msg, run_err (outcome (showNoteCmd c rev) w) = None
                  /\ jsonDecode (proc_stdout (outcome (showNoteCmd c rev) w)) = inl msg
                  /\ fst (GetNote c rev w) = (None, Some (JSONError msg)))
  \/ (exists n, run_err (outcome (showNoteCmd c rev) w) = None
                /\ jsonDecode (proc_stdout (outcome (showNoteCmd c rev) w)) = inr n
                /\ fst (GetNote c rev w) = (Some n, None)).
Proof.
  unfold GetNote. rewrite getNote_eq. fold (showNoteCmd c rev). cbn [fst].
  destruct (cmdError (outcome (showNoteCmd c rev) w)) as [e|] eqn:E.
  - left. exists e. split; reflexivity.
  - apply cmdError_None in E. right.
    destruct (jsonDecode _) as [msg|n] eqn:D.
    + left. exists msg. repeat split; assumption.
    + right. exists n. repeat split; assumption.
Qed.

(** C5: when git finds no note for the revision (the notes show command
    fails) GetNote reports the error of that command, and when a note is
    there but its body does not decode GetNote reports the JSON error: two
    results that differ, of two different kinds.  A JSON error is only ever
    reported for a body that git did print, and no result of GetNote is
    without both a note and an error. *)
Theorem GetNote_absent_distinct_from_undecodable (c : Checkout) (rev : string)
  (w1 w2 : World) (msg : string) :
  run_err (outcome (showNoteCmd c rev) w1) <> None ->
  run_err (outcome (showNoteCmd c rev) w2) = None ->
  jsonDecode (proc_stdout (outcome (showNoteCmd c rev) w2)) = inl msg ->
  (exists e, fst (GetNote c rev w1) = (None, Some e) /\ kind_of e = KCommand)
  /\ fst (GetNote c rev w2) = (None, Some (JSONError msg))
  /\ kind_of (JSONError msg) = KJSON
  /\ fst (GetNote c rev w1) <> fst (GetNote c rev w2)
  /\ (forall w e, snd (fst (GetNote c rev w)) = Some e -> kind_of e = KJSON ->
        run_err (outcome (showNoteCmd c rev) w) = None)
  /\ (forall w, fst (GetNote c rev w) <> (None, None)).
Proof.
  intros H1 H2 D2.
  assert (A1 : exists e, fst (GetNote c rev w1) = (None, Some e) /\ kind_of e = KCommand).
  { destruct (GetNote_cases c rev w1) as [(e & E & G)|[(m & R & _)|(n & R & _)]];
      try contradiction.
    exists e. split; [exact G|]. exact (cmdError_kind _ _ E). }
  assert (A2 : fst (GetNote c rev w2) = (None, Some (JSONError msg))).
  { destruct (GetNote_cases c rev w2) as [(e & E & G)|[(m & R & D & G)|(n & R & D & G)]].
    - apply cmdError_None in H2. congruence.
    - congruence.
    - congruence. }
  split; [exact A1|]. split; [exact A2|]. split; [reflexivity|].
  split; [|split].
  - destruct A1 as (e & G & K). rewrite G, A2. intros H. inversion H. subst e. discriminate.
  - intros w e G K.
    destruct (GetNote_cases c rev w) as [(e' & E & G')|[(m & R & _)|(n & R & _)]];
      try assumption.
    rewrite G' in G. cbn [snd] in G. inversion G. subst e'.
    apply cmdError_kind in E. congruence.
  - intros w.
    destruct (GetNote_cases c rev w) as [(e & _ & G)|[(m & _ & _ & G)|(n & _ & _ & G)]];
      rewrite G; discriminate.
Qed.

(** *** Revision lists *)

Lemma revlist_success (path ref : string) (w : World) (revs : list string) (w' : World) :
  revlist path ref w = ((revs, None), w') ->
  revs = Split (proc_stdout (outcome (gitCmd path "" true ["rev-list"; ref]) w)) newline.
Proof.
  rewrite revlist_eq. destruct (cmdError _); intros H; inversion H; reflexivity.
Qed.

Lemma Split_newline_terminated (out : string) :
  EndsWith out newline = true -> exists init, Split out newline = init ++ [""].
Proof.
  intros E. exists (removelast (Split out newline)).
  pose proof (app_removelast_last "" (Split_not_nil out newline)) as H.
  rewrite (Split_last_empty out newline "" E) in H. exact H.
Qed.

(** C10: a successful RevisionsBetween or RevisionsBefore returns the
    output of git rev-list split at every newline; the list is never empty,
    it is one empty string for an empty output, and its last element is the
    empty string whenever the output ends in a newline. *)
Theorem revisions_are_split_output (c : Checkout) (ref1 ref2 ref : string)
  (w : World) (revs : list string) (w' : World) :
  RevisionsBetween c ref1 ref2 w = ((revs, None), w')
  \/ RevisionsBefore c ref w = ((revs, None), w') ->
  exists out,
    (out = proc_stdout (outcome (revlistCmd c (ref1 ++ ".." ++ ref2)) w)
     \/ out = proc_stdout (outcome (revlistCmd c ref) w))
    /\ revs = Split out newline
    /\ revs <> []
    /\ (out = "" -> revs = [""])
    /\ (EndsWith out newline = true -> exists init, revs = init ++ [""]).
Proof.
  intros H.
  assert (G : exists out,
             (out = proc_stdout (outcome (revlistCmd c (ref1 ++ ".." ++ ref2)) w)
              \/ out = proc_stdout (outcome (revlistCmd c ref) w))
             /\ revs = Split out newline).
  { destruct H as [H|H]; apply revlist_success in H.
    - exists (proc_stdout (outcome (revlistCmd c (ref1 ++ ".." ++ ref2)) w)).
      split; [left; reflexivity|exact H].
    - exists (proc_stdout (outcome (revlistCmd c ref) w)).
      split; [right; reflexivity|exact H]. }
  destruct G as (out & Ho & ->). exists out.
  split; [exact Ho|]. split; [reflexivity|]. split; [apply Split_not_nil|]. split.
  - intros ->. reflexivity.
  - apply Split_newline_terminated.
Qed.

End Facts.

(** *** Clean *)

Lemma filter_all {A : Type} (f : A -> bool) (l : list A) :
  (forall x, In x l -> f x = true) -> filter f l = l.
Proof.
  induction l as [|a l IH]; intros H; simpl; [reflexivity|].
  rewrite (H a (or_introl eq_refl)). f_equal. apply IH.
  intros x Hx. apply H. right. exact Hx.
Qed.

Lemma within_refl (p : string) : within p p = true.
Proof. unfold within. rewrite String.eqb_refl. reflexivity. Qed.

Lemma RemoveAll_idempotent (path : string) (fs : FS) :
  fst (RemoveAll path (fst (RemoveAll path fs))) = fst (RemoveAll path fs).
Proof.
  unfold RemoveAll. cbn [fst]. apply filter_all.
  intros e He. apply filter_In in He. destruct He as [He Hk].
  apply orb_true_iff in Hk. apply orb_true_iff. destruct Hk as [Hk|Hk]; [left; exact Hk|].
  right. unfold blocked in *. apply existsb_exists in Hk.
  destruct Hk as (p & Hp & Hpin). apply existsb_exists. exists p. split; [|exact Hpin].
  apply filter_In. split; [exact Hp|].
  apply orb_true_iff. right. apply existsb_exists. exists p. split; [exact Hp|].
  apply andb_true_iff in Hpin. destruct Hpin as [Hpin _].
  rewrite Hpin, within_refl. reflexivity.
Qed.

(** C6: Clean has no result to fail with, whatever RemoveAll reports.
    Cleaning twice leaves what cleaning once leaves; on the zero Checkout
    and on any Checkout with an empty Dir it changes nothing; it changes
    nothing either when the directory is already gone; it only ever
    removes entries, and it removes every entry of the directory that is
    not held back by a pinned one. *)
Theorem Clean_idempotent (c : Checkout) (fs : FS) :
  Clean c (Clean c fs) = Clean c fs
  /\ Clean zeroCheckout fs = fs
  /\ Clean (mkCheckout (repo c) "" (config c) (realNotesRef c)) fs = fs
  /\ ((forall e, In e fs -> within (Dir c) (entry_path e) = false) -> Clean c fs = fs)
  /\ (forall e, In e (Clean c fs) -> In e fs)
  /\ (Dir c <> "" ->
      forall e, In e fs -> within (Dir c) (entry_path e) = true ->
                blocked fs (entry_path e) = false -> ~ In e (Clean c fs)).
Proof.
  unfold Clean.
  split; [|split; [|split; [|split; [|split]]]].
  - destruct (String.eqb (Dir c) ""); cbn [negb]; [reflexivity|].
    apply RemoveAll_idempotent.
  - reflexivity.
  - reflexivity.
  - intros H. destruct (String.eqb (Dir c) ""); cbn [negb]; [reflexivity|].
    unfold RemoveAll. cbn [fst]. apply filter_all.
    intros e He. rewrite (H e He). reflexivity.
  - intros e. destruct (String.eqb (Dir c) ""); cbn [negb]; [tauto|].
    unfold RemoveAll. cbn [fst]. intros He. apply filter_In in He. tauto.
  - intros Hd e He Hw Hb. apply String.eqb_neq in Hd. rewrite Hd. cbn [negb].
    unfold RemoveAll. cbn [fst]. intros Hin. apply filter_In in Hin.
    destruct Hin as [_ Hk]. rewrite Hw, Hb in Hk. discriminate.
Qed.

(** *** The functions run on the demonstration host *)

Import Fixtures.

Example CommitAndPush_clean_run :
  fst (@CommitAndPush demoHost demoCheckout "bump" None (demoWorld false []))
  = Some ErrNoChanges.
Proof. reflexivity. Qed.

Example CommitAndPush_dirty_run :
  let out := @CommitAndPush demoHost demoCheckout "bump"
               (Some (@mkNote demoHost "job-1" "spec")) (demoWorld true []) in
  fst out = None
  /\ map subcommand (trace (snd out))
     = ["diff"; "commit"; "rev-list"; "notes"; "push"].
Proof. split; reflexivity. Qed.

Example findFatalMessage_run :
  findFatalMessage
    (line "warning: redirecting" ++ line "fatal: unable to access" ++ "more")%string
  = "fatal: unable to access".
Proof. reflexivity. Qed.

Lemma CommitAndPush_no_changes_witness :
  fst (@check demoHost (Dir demoCheckout) (Path (repo demoCheckout)) (demoWorld false []))
    = false
  /\ fst (@CommitAndPush demoHost demoCheckout "bump" None (demoWorld false []))
     = Some ErrNoChanges
  /\ fst (@CommitAndPush demoHost demoCheckout "bump"
            (Some (@mkNote demoHost "job-1" "spec")) (demoWorld true []))
     = None
  /\ trace (snd (@CommitAndPush demoHost demoCheckout "bump"
                   (Some (@mkNote demoHost "job-1" "spec")) (demoWorld true [])))
     = [@diffCmd demoHost demoCheckout; @commitCmd demoHost demoCheckout "bump";
        @GitRepo.headCmd demoHost demoCheckout;
        @GitRepo.addNoteCmd demoHost demoCheckout (line "c0ffee") "{spec";
        @pushCmd demoHost demoCheckout].
Proof.
  split; [reflexivity|]. split.
  - apply (proj1 (@CommitAndPush_no_changes demoHost demoCheckout "bump" None
                    (demoWorld false []))).
    reflexivity.
  - pose proof (@CommitAndPush_no_changes demoHost demoCheckout "bump"
                  (Some (@mkNote demoHost "job-1" "spec")) (demoWorld true []))
      as (_ & _ & _ & _ & _ & Hpush).
    destruct (Hpush eq_refl eq_refl) as [_ Hnote].
    destruct (Hnote (@mkNote demoHost "job-1" "spec") "{spec" eq_refl eq_refl eq_refl eq_refl)
      as [Hrun Htrace].
    split; [rewrite Hrun; reflexivity|exact Htrace].
Defined.

Lemma GetNote_absent_distinct_witness :
  (exists e, fst (@GetNote demoHost demoCheckout "c0ffee" (demoWorld false []))
             = (None, Some e) /\ kind_of e = KCommand)
  /\ fst (@GetNote demoHost demoCheckout "c0ffee" (demoWorld false [("c0ffee", "oops")]))
     = (None, Some (JSONError "invalid character looking for beginning of value")).
Proof.
  destruct (@GetNote_absent_distinct_from_undecodable demoHost demoCheckout "c0ffee"
              (demoWorld false []) (demoWorld false [("c0ffee", "oops")])
              "invalid character looking for beginning of value")
    as (A & B & _).
  - discriminate.
  - reflexivity.
  - reflexivity.
  - split; [exact A|exact B].
Defined.

Lemma revisions_are_split_output_witness :
  exists out,
    (out = proc_stdout (@outcome demoHost (@revlistCmd demoHost demoCheckout ("v1" ++ ".." ++ "v2"))
                          (demoWorld false []))
     \/ out = proc_stdout (@outcome demoHost (@revlistCmd demoHost demoCheckout "HEAD")
                             (demoWorld false [])))
    /\ ["c0ffee"; "beef"; ""] = Split out newline
    /\ ["c0ffee"; "beef"; ""] <> []
    /\ (out = "" -> ["c0ffee"; "beef"; ""] = [""])
    /\ (EndsWith out newline = true -> exists init, ["c0ffee"; "beef"; ""] = init ++ [""]).
Proof.
  apply (@revisions_are_split_output demoHost demoCheckout "v1" "v2" "HEAD"
           (demoWorld false []) ["c0ffee"; "beef"; ""]
           (snd (@RevisionsBefore demoHost demoCheckout "HEAD" (demoWorld false [])))).
  right. reflexivity.
Defined.

Example Clean_run :
  Clean demoCheckout
    [mkEntry "/tmp/flux-gitclone1/repo" false;
     mkEntry "/tmp/flux-gitclone1/repo/.git" false;
     mkEntry "/tmp/flux-gitclone1/repository" false;
     mkEntry "/tmp/other" false]
  = [mkEntry "/tmp/flux-gitclone1/repository" false; mkEntry "/tmp/other" false].
Proof. reflexivity. Qed.

Example Clean_pinned_run :
  Clean demoCheckout
    [mkEntry "/tmp/flux-gitclone1/repo" false;
     mkEntry "/tmp/flux-gitclone1/repo/a" false;
     mkEntry "/tmp/flux-gitclone1/repo/b" false;
     mkEntry "/tmp/flux-gitclone1/repo/b/locked" true]
  = [mkEntry "/tmp/flux-gitclone1/repo" false;
     mkEntry "/tmp/flux-gitclone1/repo/b" false;
     mkEntry "/tmp/flux-gitclone1/repo/b/locked" true]
  /\ snd (RemoveAll "/tmp/flux-gitclone1/repo"
            [mkEntry "/tmp/flux-gitclone1/repo/b/locked" true]) <> None.
Proof. split; [reflexivity|discriminate]. Qed.

End GitFacts.

(* ================================================================== *)
(** ** package main of fluxctl                                         *)
(* ================================================================== *)

Module FluxctlFacts.
Import Fluxctl.

Local Open Scope Z_scope.

(** *** Durations *)

Lemma min_is_Zmin (a b : Z) : min a b = Z.min a b.
Proof. unfold min. destruct (Z.ltb_spec a b); lia. Qed.

Lemma wrap64_small (z : Z) : isDuration z -> wrap64 z = z.
Proof.
  unfold isDuration, wrap64, minDuration, maxDuration. intros H.
  rewrite Z.mod_small; lia.
Qed.

Lemma wrap64_isDuration (z : Z) : isDuration (wrap64 z).
Proof.
  unfold isDuration, wrap64, minDuration, maxDuration.
  pose proof (Z.mod_pos_bound (z + 2 ^ 63) (2 ^ 64) ltac:(lia)). lia.
Qed.

(** *** The log *)

Lemma sleeps_app (a b : list Event) : sleeps (a ++ b) = sleeps a ++ sleeps b.
Proof.
  induction a as [|e a IH]; simpl; [reflexivity|].
  destruct e; simpl; rewrite IH; reflexivity.
Qed.

Lemma calls_app (a b : list Event) : calls (a ++ b) = (calls a + calls b)%nat.
Proof.
  induction a as [|e a IH]; simpl; [reflexivity|].
  destruct e; simpl; rewrite IH; reflexivity.
Qed.

Section Loop.
Context {sched : Scheduler} {St : Type}.
Variable f : Predicate St.

(** *** One iteration *)

Lemma invoke_log (w : World St) :
  log (snd (invoke f w))
  = log w ++ [Called (fst (fst (invoke f w))) (snd (fst (invoke f w)))].
Proof.
  unfold invoke. destruct (f (state w) (clock w)) as [[r s'] t']. reflexivity.
Qed.

Lemma invoke_clock (w : World St) :
  clock (snd (invoke f w)) = snd (f (state w) (clock w)).
Proof.
  unfold invoke. destruct (f (state w) (clock w)) as [[r s'] t']. reflexivity.
Qed.

Lemma pause_log (finish delay : Z) (w : World St) :
  log (pause finish delay w)
  = log w ++ (if clock w + delay <? finish then [Slept delay] else []).
Proof.
  unfold pause, Sleep. destruct (clock w + delay <? finish); simpl;
    [reflexivity|now rewrite app_nil_r].
Qed.

Lemma pause_clock (finish delay : Z) (w : World St) :
  (forall t d, 0 < d -> t <= wakeup t d) ->
  clock w <= clock (pause finish delay w).
Proof.
  intros Hw. unfold pause, Sleep.
  destruct (clock w + delay <? finish); simpl; [|lia].
  destruct (Z.leb_spec delay 0); [lia|]. apply Hw. assumption.
Qed.

Lemma backoffLoop_step (fuel : nat) (finish maxDelay factor delay : Z) (w : World St) :
  backoffLoop (S fuel) finish maxDelay factor delay f w
  = if clock w <? finish then
      if fst (fst (invoke f w)) || isSome (snd (fst (invoke f w)))
      then Some (snd (fst (invoke f w)), snd (invoke f w))
      else backoffLoop fuel finish maxDelay factor (nextDelay maxDelay factor delay) f
             (pause finish delay (snd (invoke f w)))
    else Some (Some ErrTimeout, w).
Proof.
  cbn [backoffLoop]. destruct (invoke f w) as [r w1]. reflexivity.
Qed.

Lemma backoffLoop_expired (fuel : nat) (finish maxDelay factor delay : Z) (w : World St) :
  finish <= clock w ->
  backoffLoop fuel finish maxDelay factor delay f w = Some (Some ErrTimeout, w).
Proof.
  intros H. apply Z.ltb_ge in H. destruct fuel; cbn [backoffLoop]; rewrite H; reflexivity.
Qed.

Lemma backoffLoop_done (fuel : nat) (finish maxDelay factor delay : Z) (w : World St) :
  clock w < finish ->
  fst (fst (invoke f w)) = true \/ snd (fst (invoke f w)) <> None ->
  backoffLoop (S fuel) finish maxDelay factor delay f w
  = Some (snd (fst (invoke f w)), snd (invoke f w)).
Proof.
  intros Ht Hd. rewrite backoffLoop_step. apply Z.ltb_lt in Ht. rewrite Ht.
  destruct Hd as [-> | Hd]; [reflexivity|].
  destruct (snd (fst (invoke f w))); [|contradiction].
  rewrite orb_true_r. reflexivity.
Qed.

Lemma backoffLoop_pending (fuel : nat) (finish maxDelay factor delay : Z) (w : World St) :
  clock w < finish ->
  fst (invoke f w) = (false, None) ->
  backoffLoop (S fuel) finish maxDelay factor delay f w
  = backoffLoop fuel finish maxDelay factor (nextDelay maxDelay factor delay) f
      (pause finish delay (snd (invoke f w))).
Proof.
  intros Ht Hp. rewrite backoffLoop_step. apply Z.ltb_lt in Ht. rewrite Ht, Hp. reflexivity.
Qed.

(** *** Fuel *)

Lemma backoffLoop_more_fuel (n : nat) :
  forall (m : nat) (finish maxDelay factor delay : Z) (w : World St) x,
    (n <= m)%nat ->
    backoffLoop n finish maxDelay factor delay f w = Some x ->
    backoffLoop m finish maxDelay factor delay f w = Some x.
Proof.
  induction n as [|n IH]; intros m finish maxDelay factor delay w x Hm H.
  - cbn [backoffLoop] in H. destruct (clock w <? finish) eqn:E; [discriminate|].
    rewrite backoffLoop_expired; [exact H|]. apply Z.ltb_ge. exact E.
  - destruct m as [|m]; [lia|].
    rewrite backoffLoop_step in *.
    destruct (clock w <? finish); [|exact H].
    destruct (fst (fst (invoke f w)) || isSome (snd (fst (invoke f w)))); [exact H|].
    apply IH; [lia|exact H].
Qed.

Lemma backoffLoop_total :
  (forall s t, t < snd (f s t)) ->
  (forall t d, 0 < d -> t <= wakeup t d) ->
  forall (n : nat) (finish maxDelay factor delay : Z) (w : World St),
    finish - clock w <= Z.of_nat n ->
    exists x, backoffLoop n finish maxDelay factor delay f w = Some x.
Proof.
  intros Hf Hw. induction n as [|n IH]; intros finish maxDelay factor delay w Hn.
  - rewrite backoffLoop_expired; [eauto|lia].
  - rewrite backoffLoop_step.
    destruct (clock w <? finish); [|eauto].
    destruct (fst (fst (invoke f w)) || isSome (snd (fst (invoke f w)))); [eauto|].
    apply IH.
    pose proof (pause_clock finish delay (snd (invoke f w)) Hw) as Hp.
    rewrite invoke_clock in Hp. pose proof (Hf (state w) (clock w)). lia.
Qed.

(** *** What a finished run looks like *)

Lemma backoffLoop_ended (fuel : nat) :
  forall (finish maxDelay factor delay : Z) (w : World St) r w',
    backoffLoop fuel finish maxDelay factor delay f w = Some (r, w') ->
    ended finish (log w) r w'.
Proof.
  induction fuel as [|fuel IH]; intros finish maxDelay factor delay w r w' H.
  - cbn [backoffLoop] in H. destruct (clock w <? finish) eqn:E; [discriminate|].
    inversion H; subst. exists []. split; [now rewrite app_nil_r|].
    left. apply Z.ltb_ge in E. auto.
  - rewrite backoffLoop_step in H.
    destruct (clock w <? finish) eqn:E.
    + destruct (fst (fst (invoke f w)) || isSome (snd (fst (invoke f w)))) eqn:D.
      * inversion H; subst. unfold ended. rewrite invoke_log.
        exists [Called (fst (fst (invoke f w))) (snd (fst (invoke f w)))].
        split; [reflexivity|]. right.
        exists [], (fst (fst (invoke f w))), (snd (fst (invoke f w))).
        repeat split; auto.
        apply orb_true_iff in D. destruct D as [D|D]; [left; exact D|right].
        destruct (snd (fst (invoke f w))); [discriminate|discriminate].
      * apply orb_false_iff in D. destruct D as [Dok Derr].
        apply IH in H. unfold ended in *. destruct H as (evs & Hlog & Hcase).
        rewrite pause_log, invoke_log, <- !app_assoc in Hlog.
        set (sl := if clock (snd (invoke f w)) + delay <? finish
                   then [Slept delay] else []) in *.
        assert (Hsl : Forall pending sl).
        { unfold sl. destruct (clock (snd (invoke f w)) + delay <? finish);
            repeat constructor. }
        assert (Hc : pending (Called (fst (fst (invoke f w))) (snd (fst (invoke f w))))).
        { split; [exact Dok|]. destruct (snd (fst (invoke f w))); [discriminate|reflexivity]. }
        eexists. split; [exact Hlog|].
        destruct Hcase as [(Hr & Hfin & Hall)|(pre & ok & err & Hevs & Hpre & Hd & Hr)].
        -- left. repeat split; auto.
           constructor; [exact Hc|]. apply Forall_app. split; assumption.
        -- right. exists (Called (fst (fst (invoke f w))) (snd (fst (invoke f w))) :: sl ++ pre), ok, err.
           repeat split; auto.
           ++ rewrite Hevs. simpl. now rewrite <- app_assoc.
           ++ constructor; [exact Hc|]. apply Forall_app. split; assumption.
    + inversion H; subst. exists []. split; [now rewrite app_nil_r|].
      left. apply Z.ltb_ge in E. auto.
Qed.

(** *** The delays *)

Lemma delayAt_shift (maxDelay factor delay : Z) (n : nat) :
  delayAt maxDelay factor (nextDelay maxDelay factor delay) n
  = delayAt maxDelay factor delay (S n).
Proof. induction n as [|n IH]; simpl; [reflexivity|now rewrite IH]. Qed.

Lemma sorted_map_S (ks : list nat) :
  StronglySorted lt ks -> StronglySorted lt (map S ks).
Proof.
  induction 1 as [|k ks Hs IH Hall]; simpl; constructor; [exact IH|].
  apply Forall_map. eapply Forall_impl; [|exact Hall]. intros a Ha. simpl. lia.
Qed.

Lemma sorted_cons_0 (ks : list nat) :
  StronglySorted lt ks -> StronglySorted lt (O :: map S ks).
Proof.
  intros H. constructor; [apply sorted_map_S; exact H|].
  apply Forall_map. apply Forall_forall. intros a _. simpl. lia.
Qed.

(** The durations slept by a run are values of the loop variable, at
    iterations taken in increasing order. *)
Lemma backoffLoop_sleeps (fuel : nat) :
  forall (finish maxDelay factor delay : Z) (w : World St) r w',
    backoffLoop fuel finish maxDelay factor delay f w = Some (r, w') ->
    exists ks,
      StronglySorted lt ks
      /\ sleeps (log w') = sleeps (log w) ++ map (delayAt maxDelay factor delay) ks.
Proof.
  induction fuel as [|fuel IH]; intros finish maxDelay factor delay w r w' H.
  - cbn [backoffLoop] in H. destruct (clock w <? finish); [discriminate|].
    inversion H; subst. exists []. split; [constructor|now rewrite app_nil_r].
  - rewrite backoffLoop_step in H.
    destruct (clock w <? finish).
    + destruct (fst (fst (invoke f w)) || isSome (snd (fst (invoke f w)))).
      * inversion H; subst. exists []. split; [constructor|].
        rewrite invoke_log, sleeps_app. reflexivity.
      * apply IH in H. destruct H as (ks & Hs & Hl).
        rewrite pause_log, invoke_log, !sleeps_app in Hl. cbn [sleeps] in Hl.
        rewrite app_nil_r in Hl.
        assert (Hm : map (delayAt maxDelay factor (nextDelay maxDelay factor delay)) ks
                     = map (delayAt maxDelay factor delay) (map S ks)).
        { rewrite map_map. apply map_ext. intros k. apply delayAt_shift. }
        rewrite Hm in Hl.
        destruct (clock (snd (invoke f w)) + delay <? finish).
        -- exists (O :: map S ks). split; [apply sorted_cons_0; exact Hs|].
           rewrite Hl. cbn [sleeps map delayAt]. rewrite <- app_assoc. reflexivity.
        -- exists (map S ks). split; [apply sorted_map_S; exact Hs|].
           rewrite Hl. cbn [sleeps]. rewrite app_nil_r. reflexivity.
    + inversion H; subst. exists []. split; [constructor|now rewrite app_nil_r].
Qed.

(** A loop that starts one iteration later, with the next delay and in
    the world the pause left, goes through the same worlds. *)
Lemma iterationAt_shift (finish maxDelay factor delay : Z) (w : World St) (n : nat) :
  iterationAt finish maxDelay factor (nextDelay maxDelay factor delay) f
    (pause finish delay (snd (invoke f w))) n
  = iterationAt finish maxDelay factor delay f w (S n).
Proof.
  induction n as [|n IH]; [reflexivity|].
  cbn [iterationAt] in *. rewrite IH, delayAt_shift. reflexivity.
Qed.

(** A run that returned went through some number of pending iterations,
    each started before the deadline, and ended either on the deadline or
    with one more invocation that reported completion or an error. *)
Lemma backoffLoop_iterations (fuel : nat) :
  forall (finish maxDelay factor delay : Z) (w : World St) r w',
    backoffLoop fuel finish maxDelay factor delay f w = Some (r, w') ->
    exists n,
      (forall i, (i < n)%nat ->
         clock (iterationAt finish maxDelay factor delay f w i) < finish
         /\ fst (invoke f (iterationAt finish maxDelay factor delay f w i)) = (false, None))
      /\ ((r = Some ErrTimeout
           /\ w' = iterationAt finish maxDelay factor delay f w n
           /\ finish <= clock w')
          \/ (clock (iterationAt finish maxDelay factor delay f w n) < finish
              /\ r = snd (fst (invoke f (iterationAt finish maxDelay factor delay f w n)))
              /\ w' = snd (invoke f (iterationAt finish maxDelay factor delay f w n))
              /\ (fst (fst (invoke f (iterationAt finish maxDelay factor delay f w n))) = true
                  \/ r <> None))).
Proof.
  induction fuel as [|fuel IH]; intros finish maxDelay factor delay w r w' H.
  - cbn [backoffLoop] in H. destruct (clock w <? finish) eqn:E; [discriminate|].
    inversion H; subst. apply Z.ltb_ge in E. exists O. split; [intros i Hi; lia|].
    left. cbn [iterationAt]. auto.
  - rewrite backoffLoop_step in H. destruct (clock w <? finish) eqn:E.
    + apply Z.ltb_lt in E.
      destruct (fst (fst (invoke f w)) || isSome (snd (fst (invoke f w)))) eqn:D.
      * inversion H; subst. exists O. split; [intros i Hi; lia|].
        right. cbn [iterationAt]. repeat split; auto.
        apply orb_true_iff in D. destruct D as [D|D]; [left; exact D|right].
        destruct (snd (fst (invoke f w))); discriminate.
      * apply orb_false_iff in D. destruct D as [Dok Derr].
        assert (Hp : fst (invoke f w) = (false, None)).
        { destruct (fst (invoke f w)) as [ok [e|]]; cbn in *; [discriminate|].
          now rewrite Dok. }
        apply IH in H. destruct H as (n & Hpend & Hend).
        exists (S n). split.
        -- intros [|i] Hi; [cbn [iterationAt]; auto|].
           rewrite <- iterationAt_shift. apply Hpend. lia.
        -- rewrite <- iterationAt_shift. exact Hend.
    + inversion H; subst. apply Z.ltb_ge in E. exists O. split; [intros i Hi; lia|].
      left. cbn [iterationAt]. auto.
Qed.

Lemma pauses_called_slept (ok : bool) (err : option error) (d : Z) (l : list Event) :
  pauses (Called ok err :: Slept d :: l) = Some d :: pauses l.
Proof. reflexivity. Qed.

(** What a run adds to the log is empty or starts with an invocation, and
    the sleep that follows its [i]-th invocation, if there is one, lasts
    as long as the value of the loop variable in iteration [i]. *)
Lemma backoffLoop_pauses (fuel : nat) :
  forall (finish maxDelay factor delay : Z) (w : World St) r w',
    backoffLoop fuel finish maxDelay factor delay f w = Some (r, w') ->
    exists evs,
      log w' = log w ++ evs
      /\ (evs = [] \/ exists ok err rest, evs = Called ok err :: rest)
      /\ (forall i d, nth_error (pauses evs) i = Some (Some d) ->
                      d = delayAt maxDelay factor delay i).
Proof.
  induction fuel as [|fuel IH]; intros finish maxDelay factor delay w r w' H.
  - cbn [backoffLoop] in H. destruct (clock w <? finish); [discriminate|].
    inversion H; subst. exists []. split; [now rewrite app_nil_r|].
    split; [left; reflexivity|]. intros [|i] d Hn; discriminate.
  - rewrite backoffLoop_step in H. destruct (clock w <? finish).
    + destruct (fst (fst (invoke f w)) || isSome (snd (fst (invoke f w)))).
      * inversion H; subst. eexists. split; [apply invoke_log|].
        split; [right; eauto|]. intros [|[|i]] d Hn; discriminate.
      * apply IH in H. destruct H as (evs & Hlog & Hhead & Hp).
        rewrite pause_log, invoke_log, <- !app_assoc in Hlog.
        eexists. split; [exact Hlog|]. split; [right; cbn [app]; eauto|].
        intros i d Hn. cbn [app] in Hn.
        destruct (clock (snd (invoke f w)) + delay <? finish).
        -- cbn [app] in Hn. rewrite pauses_called_slept in Hn.
           destruct i as [|i]; cbn [nth_error] in Hn.
           ++ inversion Hn. reflexivity.
           ++ rewrite <- delayAt_shift. apply Hp. exact Hn.
        -- cbn [app] in Hn.
           assert (Hq : pauses (Called (fst (fst (invoke f w))) (snd (fst (invoke f w))) :: evs)
                        = None :: pauses evs).
           { destruct Hhead as [-> | (ok & err & rest & ->)]; reflexivity. }
           rewrite Hq in Hn. destruct i as [|i]; cbn [nth_error] in Hn; [discriminate|].
           rewrite <- delayAt_shift. apply Hp. exact Hn.
    + inversion H; subst. exists []. split; [now rewrite app_nil_r|].
      split; [left; reflexivity|]. intros [|i] d Hn; discriminate.
Qed.

Lemma mul_exact (a b : Z) : isDuration (a * b) -> mul a b = a * b.
Proof. apply wrap64_small. Qed.

Section Growth.
Variables initialDelay factor maxFactor : Z.
Hypothesis delay_nonneg : 0 <= initialDelay.
Hypothesis factor_pos : 1 <= factor.
Hypothesis maxFactor_pos : 1 <= maxFactor.
Hypothesis no_overflow : initialDelay * maxFactor * factor <= maxDuration.

Lemma cap_bounds :
  initialDelay <= initialDelay * maxFactor
  /\ initialDelay * maxFactor <= initialDelay * maxFactor * factor.
Proof. split; nia. Qed.

Lemma cap_exact : mul initialDelay maxFactor = initialDelay * maxFactor.
Proof.
  apply mul_exact. pose proof cap_bounds.
  unfold isDuration, minDuration, maxDuration in *. lia.
Qed.

Lemma below_cap_exact (d : Z) :
  0 <= d <= initialDelay * maxFactor -> mul d factor = d * factor /\ d <= d * factor.
Proof.
  intros Hd.
  assert (H1 : d * factor <= initialDelay * maxFactor * factor)
    by (apply Z.mul_le_mono_nonneg_r; lia).
  assert (H2 : d <= d * factor) by nia.
  split; [|exact H2]. apply mul_exact.
  unfold isDuration, minDuration, maxDuration in *. lia.
Qed.

Lemma delayAt_bounds (n : nat) :
  initialDelay <= delayAt (mul initialDelay maxFactor) factor initialDelay n
               <= initialDelay * maxFactor.
Proof.
  pose proof cap_bounds as Hc.
  induction n as [|n IH]; cbn [delayAt]; [lia|].
  set (d := delayAt (mul initialDelay maxFactor) factor initialDelay n) in *.
  unfold nextDelay. rewrite min_is_Zmin, cap_exact.
  assert (Hd : 0 <= d <= initialDelay * maxFactor) by lia.
  destruct (below_cap_exact d Hd) as [-> Hle]. lia.
Qed.

Lemma delayAt_step (n : nat) :
  delayAt (mul initialDelay maxFactor) factor initialDelay (S n)
  = Z.min (delayAt (mul initialDelay maxFactor) factor initialDelay n * factor)
          (initialDelay * maxFactor).
Proof.
  cbn [delayAt]. pose proof (delayAt_bounds n) as Hb.
  set (d := delayAt (mul initialDelay maxFactor) factor initialDelay n) in *.
  unfold nextDelay. rewrite min_is_Zmin, cap_exact.
  assert (Hd : 0 <= d <= initialDelay * maxFactor) by lia.
  destruct (below_cap_exact d Hd) as [-> _]. reflexivity.
Qed.

Lemma delayAt_grows (n : nat) :
  delayAt (mul initialDelay maxFactor) factor initialDelay n
  <= delayAt (mul initialDelay maxFactor) factor initialDelay (S n).
Proof.
  rewrite delayAt_step. pose proof (delayAt_bounds n) as Hb.
  set (d := delayAt (mul initialDelay maxFactor) factor initialDelay n) in *.
  assert (Hd : 0 <= d <= initialDelay * maxFactor) by lia.
  destruct (below_cap_exact d Hd) as [_ Hle]. lia.
Qed.

Lemma delayAt_monotone (n m : nat) :
  (n <= m)%nat ->
  delayAt (mul initialDelay maxFactor) factor initialDelay n
  <= delayAt (mul initialDelay maxFactor) factor initialDelay m.
Proof.
  induction 1 as [|m Hm IH]; [lia|]. pose proof (delayAt_grows m). lia.
Qed.

Lemma sorted_delays (ks : list nat) :
  StronglySorted lt ks ->
  StronglySorted Z.le (map (delayAt (mul initialDelay maxFactor) factor initialDelay) ks).
Proof.
  induction 1 as [|k ks Hs IH Hall]; simpl; constructor; [exact IH|].
  apply Forall_map. eapply Forall_impl; [|exact Hall].
  intros a Ha. apply delayAt_monotone. lia.
Qed.

(** C3, amended: for a non-negative initial delay, factors of at least 1
    and a cap that, multiplied by the factor, still is a Duration, the
    delay starts at initialDelay, each next delay is the minimum of the
    previous one times the factor and of initialDelay*maxFactor, the
    delays never decrease and never exceed initialDelay*maxFactor.  A run
    of backoff that returns has gone through some number [n] of iterations
    whose invocation was pending; iteration [i], counting from 0, started
    before the deadline, and between its invocation and the next one
    backoff slept for exactly the [i]-th delay when the invocation
    returned at a time from which that sleep ends before the deadline, and
    did not sleep at all otherwise; after them the run ended on the
    deadline with ErrTimeout, or with one more invocation, made before the
    deadline, and its error.  In the log the sleep that follows the
    [i]-th invocation of the run, if there is one, is the [i]-th delay;
    and the durations slept are sorted and below the cap. *)
Theorem backoff_delays_grow_to_cap :
  delayAt (mul initialDelay maxFactor) factor initialDelay 0 = initialDelay
  /\ (forall n,
        delayAt (mul initialDelay maxFactor) factor initialDelay (S n)
        = Z.min (delayAt (mul initialDelay maxFactor) factor initialDelay n * factor)
                (initialDelay * maxFactor))
  /\ (forall n,
        delayAt (mul initialDelay maxFactor) factor initialDelay n
        <= delayAt (mul initialDelay maxFactor) factor initialDelay (S n))
  /\ (forall n,
        delayAt (mul initialDelay maxFactor) factor initialDelay n
        <= initialDelay * maxFactor)
  /\ (forall fuel timeout w r w',
        backoff fuel initialDelay factor maxFactor timeout f w = Some (r, w') ->
        let finish := clock w + timeout in
        let delay := delayAt (mul initialDelay maxFactor) factor initialDelay in
        let iteration :=
          iterationAt finish (mul initialDelay maxFactor) factor initialDelay f w in
        exists n,
          (forall i, (i < n)%nat ->
             clock (iteration i) < finish
             /\ fst (invoke f (iteration i)) = (false, None)
             /\ iteration (S i)
                = if clock (snd (invoke f (iteration i))) + delay i <? finish
                  then Sleep (delay i) (snd (invoke f (iteration i)))
                  else snd (invoke f (iteration i)))
          /\ ((r = Some ErrTimeout /\ w' = iteration n /\ finish <= clock w')
              \/ (clock (iteration n) < finish
                  /\ r = snd (fst (invoke f (iteration n)))
                  /\ w' = snd (invoke f (iteration n))
                  /\ (fst (fst (invoke f (iteration n))) = true \/ r <> None)))
          /\ exists evs,
               log w' = log w ++ evs
               /\ (forall i d, nth_error (pauses evs) i = Some (Some d) -> d = delay i))
  /\ (forall fuel timeout w r w',
        backoff fuel initialDelay factor maxFactor timeout f w = Some (r, w') ->
        exists ks,
          StronglySorted lt ks
          /\ sleeps (log w')
             = sleeps (log w)
               ++ map (delayAt (mul initialDelay maxFactor) factor initialDelay) ks
          /\ StronglySorted Z.le
               (map (delayAt (mul initialDelay maxFactor) factor initialDelay) ks)
          /\ Forall (fun d => d <= initialDelay * maxFactor)
               (map (delayAt (mul initialDelay maxFactor) factor initialDelay) ks)).
Proof.
  split; [reflexivity|]. split; [exact delayAt_step|]. split; [exact delayAt_grows|].
  split; [intros n; apply delayAt_bounds|]. split.
  - intros fuel timeout w r w' H finish delay iteration. unfold backoff in H.
    destruct (backoffLoop_iterations _ _ _ _ _ _ _ _ H) as (n & Hpend & Hend).
    destruct (backoffLoop_pauses _ _ _ _ _ _ _ _ H) as (evs & Hlog & _ & Hp).
    exists n. split; [|split; [exact Hend|exists evs; split; assumption]].
    intros i Hi. destruct (Hpend i Hi) as [Hc Hf].
    split; [exact Hc|]. split; [exact Hf|]. reflexivity.
  - intros fuel timeout w r w' H. unfold backoff in H.
    apply backoffLoop_sleeps in H. destruct H as (ks & Hs & Hl).
    exists ks. split; [exact Hs|]. split; [exact Hl|]. split; [apply sorted_delays; exact Hs|].
    apply Forall_map. apply Forall_forall. intros k _. apply delayAt_bounds.
Qed.

End Growth.

(** *** Termination and result of backoff *)

(** C2: backoff takes clock + timeout as its deadline; an invocation,
    made before the deadline, that reports completion or an error ends the
    run at once with that error (nil on completion); whatever backoff
    returns, it returns ErrTimeout on or after the deadline when every
    invocation was pending, or the error of its last invocation otherwise;
    if every invocation takes time and no sleep ends before it starts,
    there is an amount of fuel from which on backoff returns (it never
    hangs); and a predicate that is pending on its first two calls and
    completes on the third is invoked three times, after which backoff
    returns nil, for every factor and maxFactor, provided the deadline has
    not passed when the second and the third call are due. *)
Theorem backoff_polls_until_done_or_deadline
  (initialDelay factor maxFactor timeout : Z) (w : World St) :
  (forall fuel,
     backoff fuel initialDelay factor maxFactor timeout f w
     = backoffLoop fuel (clock w + timeout) (mul initialDelay maxFactor) factor
         initialDelay f w)
  /\ (forall fuel finish maxDelay delay w0,
        clock w0 < finish ->
        fst (fst (invoke f w0)) = true \/ snd (fst (invoke f w0)) <> None ->
        backoffLoop (S fuel) finish maxDelay factor delay f w0
        = Some (snd (fst (invoke f w0)), snd (invoke f w0)))
  /\ (forall fuel r w',
        backoff fuel initialDelay factor maxFactor timeout f w = Some (r, w') ->
        ended (clock w + timeout) (log w) r w')
  /\ ((forall s t, t < snd (f s t)) ->
      (forall t d, 0 < d -> t <= wakeup t d) ->
      exists fuel r w',
        forall fuel', (fuel <= fuel')%nat ->
          backoff fuel' initialDelay factor maxFactor timeout f w = Some (r, w'))
  /\ (forall w1 w2,
        0 < timeout ->
        invoke f w = ((false, None), w1) ->
        clock (pause (clock w + timeout) initialDelay w1) < clock w + timeout ->
        invoke f (pause (clock w + timeout) initialDelay w1) = ((false, None), w2) ->
        clock (pause (clock w + timeout)
                 (nextDelay (mul initialDelay maxFactor) factor initialDelay) w2)
          < clock w + timeout ->
        fst (invoke f (pause (clock w + timeout)
                         (nextDelay (mul initialDelay maxFactor) factor initialDelay) w2))
          = (true, None) ->
        forall fuel, (3 <= fuel)%nat ->
          backoff fuel initialDelay factor maxFactor timeout f w
          = Some (None,
                  snd (invoke f (pause (clock w + timeout)
                          (nextDelay (mul initialDelay maxFactor) factor initialDelay) w2)))
          /\ calls (log (snd (invoke f (pause (clock w + timeout)
                          (nextDelay (mul initialDelay maxFactor) factor initialDelay) w2))))
             = (calls (log w) + 3)%nat).
Proof.
  split; [reflexivity|]. split; [intros; apply backoffLoop_done; assumption|].
  split; [intros fuel r w' H; exact (backoffLoop_ended fuel _ _ _ _ _ _ _ H)|].
  split.
  - intros Hf Hw.
    destruct (backoffLoop_total Hf Hw (Z.to_nat timeout) (clock w + timeout)
                (mul initialDelay maxFactor) factor initialDelay w ltac:(lia))
      as ([r w'] & H).
    exists (Z.to_nat timeout), r, w'. intros fuel' Hle.
    exact (backoffLoop_more_fuel _ _ _ _ _ _ _ _ Hle H).
  - intros w1 w2 Ht H1 Hc2 H2 Hc3 H3 fuel Hfuel.
    set (finish := clock w + timeout) in *.
    set (d1 := nextDelay (mul initialDelay maxFactor) factor initialDelay) in *.
    split.
    + apply (backoffLoop_more_fuel 3); [exact Hfuel|]. unfold backoff. fold finish.
      rewrite backoffLoop_pending; [|lia|now rewrite H1].
      rewrite H1. cbn [snd]. fold d1.
      rewrite backoffLoop_pending; [|exact Hc2|now rewrite H2].
      rewrite H2. cbn [snd].
      rewrite backoffLoop_done; [|exact Hc3|left; now rewrite H3].
      rewrite H3. reflexivity.
    + rewrite invoke_log, pause_log.
      assert (L2 : log w2 = log (pause finish initialDelay w1) ++ [Called false None]).
      { pose proof (invoke_log (pause finish initialDelay w1)) as L. rewrite H2 in L. exact L. }
      assert (L1 : log w1 = log w ++ [Called false None]).
      { pose proof (invoke_log w) as L. rewrite H1 in L. exact L. }
      rewrite L2, pause_log, L1, !calls_app.
      destruct (clock w2 + d1 <? finish), (clock w1 + initialDelay <? finish);
        cbn [calls]; lia.
Qed.

(** C9: when the deadline is not after the current time (a timeout of
    zero or less) backoff returns ErrTimeout in an unchanged world: the
    predicate is not invoked, not even once. *)
Theorem backoff_without_attempt
  (fuel : nat) (initialDelay factor maxFactor timeout : Z) (w : World St) :
  clock w + timeout <= clock w ->
  timeout <= 0
  /\ backoff fuel initialDelay factor maxFactor timeout f w = Some (Some ErrTimeout, w)
  /\ (forall r w',
        backoff fuel initialDelay factor maxFactor timeout f w = Some (r, w') ->
        calls (log w') = calls (log w)).
Proof.
  intros H. split; [lia|].
  assert (E : backoff fuel initialDelay factor maxFactor timeout f w
              = Some (Some ErrTimeout, w))
    by (unfold backoff; apply backoffLoop_expired; exact H).
  split; [exact E|]. intros r w' H'. rewrite E in H'. inversion H'. reflexivity.
Qed.

End Loop.

(** *** Runs on the demonstration scheduler *)

Import Fixtures.

Example backoff_third_call_run :
  @backoff exactScheduler nat 10 100 2 100 1000 (countingPredicate 3 1) (startWorld O)
  = Some (None,
          mkWorld 303 3%nat
            [Called false None; Slept 100; Called false None; Slept 200; Called true None]).
Proof. reflexivity. Qed.

Example backoff_timeout_run :
  @backoff exactScheduler nat 10 100 2 100 500 (countingPredicate 0 150) (startWorld O)
  = Some (Some ErrTimeout,
          mkWorld 550 3%nat
            [Called false None; Slept 100; Called false None; Called false None]).
Proof. reflexivity. Qed.

Lemma backoff_polls_witness :
  (exists fuel r w',
     forall fuel', (fuel <= fuel')%nat ->
       @backoff exactScheduler nat fuel' 100 7 3 1000 (countingPredicate 3 1) (startWorld O)
       = Some (r, w'))
  /\ calls (log (snd (invoke (countingPredicate 3 1)
                        (@pause exactScheduler nat 1000 (nextDelay (mul 100 3) 7 100)
                           (mkWorld 102 2%nat [Called false None; Slept 100; Called false None])))))
     = 3%nat.
Proof.
  pose proof (@backoff_polls_until_done_or_deadline exactScheduler nat
                (countingPredicate 3 1) 100 7 3 1000 (startWorld O))
    as (_ & _ & _ & Htotal & Hthird).
  split.
  - apply Htotal.
    + intros s t. simpl. lia.
    + intros t d Hd. simpl. lia.
  - apply (Hthird (mkWorld 1 1%nat [Called false None])
                  (mkWorld 102 2%nat [Called false None; Slept 100; Called false None])
                  ltac:(lia) eq_refl ltac:(vm_compute; reflexivity) eq_refl
                  ltac:(vm_compute; reflexivity) eq_refl 3%nat (le_n 3)).
Defined.

Lemma backoff_without_attempt_witness :
  (0 <= 0)
  /\ @backoff exactScheduler nat 5 100 2 100 0 (countingPredicate 1 1) (startWorld O)
     = Some (Some ErrTimeout, startWorld O).
Proof.
  pose proof (@backoff_without_attempt exactScheduler nat (countingPredicate 1 1)
                5 100 2 100 0 (startWorld O) ltac:(simpl; lia))
    as (H0 & H & _).
  split; [exact H0|exact H].
Defined.

Lemma backoff_delays_grow_witness :
  (100 * Millisecond * 100 * 2 <= maxDuration)
  /\ (forall n,
        delayAt (mul (100 * Millisecond) 100) 2 (100 * Millisecond) n
        <= delayAt (mul (100 * Millisecond) 100) 2 (100 * Millisecond) (S n))
  /\ (forall n,
        delayAt (mul (100 * Millisecond) 100) 2 (100 * Millisecond) n
        <= 100 * Millisecond * 100)
  /\ @backoff exactScheduler nat 10 100 2 100 1000 (countingPredicate 0 50) (startWorld O)
     = Some (Some ErrTimeout,
             mkWorld 1000 6%nat
               [Called false None; Slept 100; Called false None; Slept 200;
                Called false None; Slept 400; Called false None; Called false None;
                Called false None])
  /\ (exists evs,
        [Called false None; Slept 100; Called false None; Slept 200;
         Called false None; Slept 400; Called false None; Called false None;
         Called false None] = [] ++ evs
        /\ (forall i d, nth_error (pauses evs) i = Some (Some d) ->
                        d = delayAt (mul 100 100) 2 100 i)).
Proof.
  assert (H : 100 * Millisecond * 100 * 2 <= maxDuration) by (vm_compute; discriminate).
  pose proof (@backoff_delays_grow_to_cap exactScheduler nat (countingPredicate 0 1)
                (100 * Millisecond) 2 100
                ltac:(vm_compute; discriminate) ltac:(lia) ltac:(lia) H)
    as (_ & _ & Hgrow & Hcap & _).
  split; [exact H|]. split; [exact Hgrow|]. split; [exact Hcap|].
  pose proof (@backoff_delays_grow_to_cap exactScheduler nat (countingPredicate 0 50)
                100 2 100 ltac:(lia) ltac:(lia) ltac:(lia)
                ltac:(vm_compute; discriminate))
    as (_ & _ & _ & _ & Hrun & _).
  assert (Hr : @backoff exactScheduler nat 10 100 2 100 1000 (countingPredicate 0 50)
                 (startWorld O)
               = Some (Some ErrTimeout,
                       mkWorld 1000 6%nat
                         [Called false None; Slept 100; Called false None; Slept 200;
                          Called false None; Slept 400; Called false None;
                          Called false None; Called false None]))
    by reflexivity.
  split; [exact Hr|].
  destruct (Hrun _ _ _ _ _ Hr) as (n & _ & _ & Hev). exact Hev.
Defined.

(** With the parameters of the amended claim and a deadline 1000ns away,
    a predicate that takes 50ns and never completes is invoked six times:
    backoff sleeps 100, 200 and 400 after the first three invocations, and
    not at all after the others, since a sleep of 800 would end after the
    deadline. *)
Example backoff_pauses_run :
  option_map (fun x => pauses (log (snd x)))
    (@backoff exactScheduler nat 10 100 2 100 1000 (countingPredicate 0 50) (startWorld O))
  = Some [Some 100; Some 200; Some 400; None; None; None].
Proof. reflexivity. Qed.

(** C3 as stated fails: with factor 2 (at least 1) and maxFactor 0 the cap
    is 0, the first delay is the initial delay of 100, above the cap, and
    the second delay, 0, is smaller than the first; a run sleeps 100, then
    0.  And whatever the factors, the time between two invocations stops
    following the delays near the deadline: with factor 2 and maxFactor
    100 the run above sleeps 100, 200, 400 and then invokes the predicate
    three times in a row without a sleep. *)
Lemma backoff_delay_above_cap :
  (1 <= 2)
  /\ mul 100 0 = 0
  /\ delayAt (mul 100 0) 2 100 0 = 100
  /\ delayAt (mul 100 0) 2 100 1 = 0
  /\ ~ (forall n, delayAt (mul 100 0) 2 100 n <= mul 100 0)
  /\ ~ (forall n, delayAt (mul 100 0) 2 100 n <= delayAt (mul 100 0) 2 100 (S n))
  /\ option_map (fun x => sleeps (log (snd x)))
       (@backoff exactScheduler nat 10 100 2 0 1000 (countingPredicate 0 400) (startWorld O))
     = Some [100; 0]
  /\ option_map (fun x => pauses (log (snd x)))
       (@backoff exactScheduler nat 10 100 2 100 1000 (countingPredicate 0 50) (startWorld O))
     = Some [Some 100; Some 200; Some 400; None; None; None].
Proof.
  split; [lia|]. split; [reflexivity|]. split; [reflexivity|]. split; [reflexivity|].
  split; [|split; [|split; reflexivity]].
  - intros H. specialize (H O). vm_compute in H. apply H. reflexivity.
  - intros H. specialize (H O). vm_compute in H. apply H. reflexivity.
Qed.

(** The other two conditions of the amended claim are needed as well: a
    negative initial delay starts above the cap, and a product that leaves
    the range of a Duration wraps around to a negative delay. *)
Example backoff_negative_initial_delay :
  mul (-1) 100 = -100 /\ delayAt (mul (-1) 100) 2 (-1) 0 = -1
  /\ delayAt (mul (-1) 100) 2 (-1) 1 = -100.
Proof. repeat split. Qed.

Example backoff_delay_overflow :
  mul (2 ^ 61) 2 = 2 ^ 62
  /\ delayAt (mul (2 ^ 61) 2) 4 (2 ^ 61) 0 = 2 ^ 61
  /\ delayAt (mul (2 ^ 61) 2) 4 (2 ^ 61) 1 = - 2 ^ 63.
Proof. repeat split. Qed.

End FluxctlFacts.

(* ================================================================== *)
(** ** The registration handler                                        *)
(* ================================================================== *)

Module ServerFacts.
Import Server.

Local Open Scope Z_scope.

Section Facts.
Context {svc : Service}.

(** C7: when the upgrade of the connection fails, doRegister (and with it
    RegisterV4, RegisterV5 and RegisterV6) writes the status 400 and the
    message of the error after whatever the upgrade wrote, and returns with
    the server's state as it was: RegisterDaemon was not called and the
    registry is unchanged.  The client sees 400 when the failed upgrade
    has written nothing itself. *)
Theorem doRegister_upgrade_failure (w : ResponseWriter) (r : Request)
  (newRPCFn : Conn -> Client) (s : State) (err : string) (w1 : ResponseWriter) :
  Upgrade w r = (inl err, w1) ->
  doRegister w r newRPCFn s
    = (w1 ++ [WriteHeader StatusBadRequest; WriteBody (Sprintf err)], s)
  /\ StatusBadRequest = 400
  /\ registry (snd (doRegister w r newRPCFn s)) = registry s
  /\ registrations (snd (doRegister w r newRPCFn s)) = registrations s
  /\ (w1 = [] -> statusSent (fst (doRegister w r newRPCFn s)) = Some 400)
  /\ snd (RegisterV4 w r s) = s
  /\ snd (RegisterV5 w r s) = s
  /\ snd (RegisterV6 w r s) = s.
Proof.
  intros H.
  assert (E : forall fn, doRegister w r fn s
                         = (w1 ++ [WriteHeader StatusBadRequest; WriteBody (Sprintf err)], s)).
  { intros fn. unfold doRegister. rewrite H. rewrite <- app_assoc. reflexivity. }
  split; [apply E|]. split; [reflexivity|].
  unfold RegisterV4, RegisterV5, RegisterV6. rewrite !E. cbn [fst snd].
  repeat split. intros ->. reflexivity.
Qed.

(** On the other path RegisterDaemon is called, once. *)
Lemma doRegister_upgrade_success (w : ResponseWriter) (r : Request)
  (newRPCFn : Conn -> Client) (s : State) (conn : Conn) (w1 : ResponseWriter) :
  Upgrade w r = (inr conn, w1) ->
  fst (doRegister w r newRPCFn s) = w1
  /\ registrations (snd (doRegister w r newRPCFn s))
     = registrations s ++ [(getInstanceID r, newRPCFn conn)].
Proof.
  intros H. unfold doRegister. rewrite H.
  destruct (RegisterDaemon _ _ _) as [e1 reg1]. destruct (Close _ reg1) as [e2 reg2].
  split; reflexivity.
Qed.

End Facts.

Import Fixtures.

Lemma doRegister_upgrade_failure_witness :
  @doRegister demoService [] false (@NewClientV6 demoService)
    (@mkState demoService ["tenant-a"] [])
  = ([WriteHeader 400; WriteBody "websocket: not a websocket handshake"],
     @mkState demoService ["tenant-a"] []).
Proof.
  apply (@doRegister_upgrade_failure demoService [] false (@NewClientV6 demoService)
           (@mkState demoService ["tenant-a"] [])
           "websocket: not a websocket handshake" []).
  reflexivity.
Defined.

Example doRegister_success_run :
  @RegisterV5 demoService [] true (@mkState demoService ["tenant-a"] [])
  = ([], @mkState demoService ["default"; "tenant-a"] [("default", (5%nat, 7%nat))]).
Proof. reflexivity. Qed.

End ServerFacts.

(* ================================================================== *)
(** ** package git, the rest                                           *)
(* ================================================================== *)

Module GitRepoFacts.
Import GoStrings.
Import GoStringsFacts.
Import Git.
Import GitFacts.
Import GitRepo.

Local Open Scope Z_scope.

(** *** findFatalMessage *)

Lemma scanFatal_first (pre : list string) (l : string) (post : list string) :
  Forall (fun x => scannable x /\ notFatal x) pre ->
  scannable l ->
  HasPrefix (dropCR l) "fatal:" = true ->
  scanFatal (pre ++ l :: post) = dropCR l.
Proof.
  unfold scannable, notFatal. intros Hpre Hs Hf.
  induction Hpre as [|x pre [Hx Hn] _ IH]; simpl.
  - apply N.leb_gt in Hs. rewrite Hs, Hf. reflexivity.
  - apply N.leb_gt in Hx. rewrite Hx, Hn. exact IH.
Qed.

Lemma scanFatal_none (lines : list string) :
  Forall notFatal lines -> scanFatal lines = "".
Proof.
  unfold notFatal. induction 1 as [|x lines Hx _ IH]; simpl; [reflexivity|].
  destruct (_ <=? _)%N; [reflexivity|]. rewrite Hx. exact IH.
Qed.

Lemma scanFatal_result (lines : list string) :
  scanFatal lines = "" \/
  (HasPrefix (scanFatal lines) "fatal:" = true
   /\ exists l, In l lines /\ scanFatal lines = dropCR l).
Proof.
  induction lines as [|x lines IH]; simpl; [left; reflexivity|].
  destruct (_ <=? _)%N; [left; reflexivity|].
  destruct (HasPrefix (dropCR x) "fatal:") eqn:E.
  - right. split; [exact E|]. exists x. split; [left|]; reflexivity.
  - destruct IH as [IH|[IH (l & Hl & El)]]; [left; exact IH|].
    right. split; [exact IH|]. exists l. split; [right; exact Hl|exact El].
Qed.

(** findFatalMessage returns the first line of the output that starts
    with fatal:, without its carriage return, when the lines before it are
    no longer than the scanner's buffer; it returns the empty string when
    no line starts with fatal:; and whatever it returns is empty or a line
    of the output that starts with fatal:. *)
Theorem findFatalMessage_first_fatal_line (output : string) :
  (forall pre l post,
     rawLines output = pre ++ l :: post ->
     Forall (fun x => scannable x /\ notFatal x) pre ->
     scannable l ->
     HasPrefix (dropCR l) "fatal:" = true ->
     findFatalMessage output = dropCR l)
  /\ (Forall notFatal (rawLines output) -> findFatalMessage output = "")
  /\ (findFatalMessage output = "" \/
      (HasPrefix (findFatalMessage output) "fatal:" = true
       /\ exists l, In l (rawLines output) /\ findFatalMessage output = dropCR l)).
Proof.
  unfold findFatalMessage. split; [|split].
  - intros pre l post -> Hpre Hs Hf. apply scanFatal_first; assumption.
  - apply scanFatal_none.
  - apply scanFatal_result.
Qed.

Example findFatalMessage_first_witness :
  findFatalMessage
    (Fixtures.line "warning: redirecting" ++ Fixtures.line "fatal: first"
     ++ Fixtures.line "fatal: second")%string
  = "fatal: first".
Proof.
  apply (proj1 (findFatalMessage_first_fatal_line _)
           ["warning: redirecting"] "fatal: first" ["fatal: second"]).
  - reflexivity.
  - repeat constructor.
  - reflexivity.
  - reflexivity.
Defined.

Lemma Contains_app_r (s t sub : string) :
  Contains t sub = true -> Contains (s ++ t) sub = true.
Proof.
  rewrite !Contains_spec. intros (l & r & ->). exists (s ++ l)%string, r.
  clear. induction s as [|a s IH]; simpl; [reflexivity|now f_equal].
Qed.

Section Facts.
Context {host : Host} {os : OS}.

(** *** What each operation runs and returns *)

Lemma fetch_eq (keyPath workingDir upstream refspec : string) (w : World) :
  fetch keyPath workingDir upstream refspec w =
  (match cmdError (outcome (gitCmd workingDir keyPath false ["fetch"; upstream; refspec]) w) with
   | Some err => Some (Wrap err ("git fetch " ++ upstream ++ " " ++ refspec)%string)
   | None => None
   end,
   ran (gitCmd workingDir keyPath false ["fetch"; upstream; refspec]) w).
Proof.
  unfold fetch, bind. rewrite execGitCmd_eq. cbn [fst].
  destruct (cmdError _); reflexivity.
Qed.

Lemma pull_eq (keyPath workingDir upstream ref : string) (w : World) :
  pull keyPath workingDir upstream ref w =
  (match cmdError (outcome (gitCmd workingDir keyPath false
                      ["pull"; "--ff-only"; upstream; ref]) w) with
   | Some err => Some (Wrap err ("git pull --ff-only " ++ upstream ++ " " ++ ref)%string)
   | None => None
   end,
   ran (gitCmd workingDir keyPath false ["pull"; "--ff-only"; upstream; ref]) w).
Proof.
  unfold pull, bind. rewrite execGitCmd_eq. cbn [fst].
  destruct (cmdError _); reflexivity.
Qed.

Lemma clone_eq (workingDir keyPath repoURL repoBranch : string) (w : World) :
  clone workingDir keyPath repoURL repoBranch w =
  (match cmdError (outcome (gitCmd workingDir keyPath false
                      (cloneArgs repoBranch repoURL (Join workingDir "repo"))) w) with
   | Some err => ("", Some (Wrap err "git clone"))
   | None => (Join workingDir "repo", None)
   end,
   ran (gitCmd workingDir keyPath false
          (cloneArgs repoBranch repoURL (Join workingDir "repo"))) w).
Proof.
  unfold clone, bind. rewrite execGitCmd_eq. cbn [fst].
  destruct (cmdError _); reflexivity.
Qed.

Lemma getNotesRef_eq (workingDir ref : string) (w : World) :
  getNotesRef workingDir ref w =
  (match cmdError (outcome (gitCmd workingDir "" true
                      ["notes"; "--ref"; ref; "get-ref"]) w) with
   | Some err => ("", Some err)
   | None => (TrimSpace (proc_stdout (outcome (gitCmd workingDir "" true
                                        ["notes"; "--ref"; ref; "get-ref"]) w)), None)
   end,
   ran (gitCmd workingDir "" true ["notes"; "--ref"; ref; "get-ref"]) w).
Proof.
  unfold getNotesRef, bind. rewrite execGitCmd_eq. cbn [fst snd].
  destruct (cmdError _); reflexivity.
Qed.

(** A failed command whose first fatal line names the missing remote ref
    gives an error that the notes fetch lets pass. *)
Lemma missing_ref_tolerated (r : ProcResult) (msg : string) :
  Contains (findFatalMessage (proc_stderr r)) "Couldn't find remote ref" = true ->
  fetchFailed (match cmdError r with
               | Some err => Some (Wrap err msg)
               | None => None
               end) = None.
Proof.
  intros H. unfold cmdError. destruct (run_err r) as [e|]; [|reflexivity].
  destruct (String.eqb (findFatalMessage (proc_stderr r)) "") eqn:E.
  - apply String.eqb_eq in E. rewrite E in H. discriminate.
  - unfold fetchFailed. cbn [Error].
    rewrite Contains_app_r; [reflexivity|]. apply Contains_app_r. exact H.
Qed.

(** *** Pull *)

(** Pull runs a fast-forward-only pull with the key; when that fails it
    returns the wrapped error and fetches nothing.  Otherwise it fetches
    the notes ref onto itself and returns nil when the fetch succeeds or
    when the first fatal line of its diagnostics says that the remote ref
    could not be found; an error of the fetch whose text lacks that
    phrase is returned. *)
Theorem Pull_tolerates_missing_notes (c : Checkout) (w : World) :
  (forall err, cmdError (outcome (pullCmd c) w) = Some err ->
     Pull c w
     = (Some (Wrap err ("git pull --ff-only " ++ URL (repo c) ++ " "
                          ++ Branch (repo c))%string),
        ran (pullCmd c) w))
  /\ (cmdError (outcome (pullCmd c) w) = None ->
      snd (Pull c w) = ran (fetchNotesCmd c) (ran (pullCmd c) w)
      /\ (run_err (outcome (fetchNotesCmd c) (ran (pullCmd c) w)) = None ->
            fst (Pull c w) = None)
      /\ (Contains (findFatalMessage
                      (proc_stderr (outcome (fetchNotesCmd c) (ran (pullCmd c) w))))
             "Couldn't find remote ref" = true ->
            fst (Pull c w) = None)
      /\ (forall err,
            cmdError (outcome (fetchNotesCmd c) (ran (pullCmd c) w)) = Some err ->
            Contains
              (Error (Wrap err ("git fetch " ++ URL (repo c) ++ " "
                                  ++ (realNotesRef c ++ ":" ++ realNotesRef c))%string))
              "Couldn't find remote ref" = false ->
            fst (Pull c w)
            = Some (Wrap err ("git fetch " ++ URL (repo c) ++ " "
                                ++ (realNotesRef c ++ ":" ++ realNotesRef c))%string))).
Proof.
  unfold Pull, bind. rewrite pull_eq. fold (pullCmd c). split.
  - intros err E. rewrite E. reflexivity.
  - intros E. rewrite E. rewrite fetch_eq. fold (fetchNotesCmd c). cbn [fst snd ret].
    split; [reflexivity|]. split; [|split].
    + intros Hr. apply cmdError_None in Hr. rewrite Hr. reflexivity.
    + apply missing_ref_tolerated.
    + intros err Ee Hc. rewrite Ee. unfold fetchFailed. rewrite Hc. reflexivity.
Qed.

(** *** MoveTagAndPush *)

Lemma moveTagAndPush_eq (path key tag ref msg upstream : string) (w : World) :
  moveTagAndPush path key tag ref msg upstream w =
  match cmdError (outcome (gitCmd path "" false
                     ["tag"; "--force"; "-a"; "-m"; msg; tag; ref]) w) with
  | Some err =>
      (Some (Wrap err ("moving tag " ++ tag)%string),
       ran (gitCmd path "" false ["tag"; "--force"; "-a"; "-m"; msg; tag; ref]) w)
  | None =>
      (match cmdError (outcome (gitCmd path key false
                          ["push"; "--force"; upstream; "tag"; tag])
                         (ran (gitCmd path "" false
                                 ["tag"; "--force"; "-a"; "-m"; msg; tag; ref]) w)) with
       | Some err => Some (Wrap err "pushing tag to origin")
       | None => None
       end,
       ran (gitCmd path key false ["push"; "--force"; upstream; "tag"; tag])
         (ran (gitCmd path "" false ["tag"; "--force"; "-a"; "-m"; msg; tag; ref]) w))
  end.
Proof.
  unfold moveTagAndPush, bind. rewrite execGitCmd_eq. cbn [fst].
  destruct (cmdError _); [reflexivity|].
  rewrite execGitCmd_eq. cbn [fst]. destruct (cmdError _); reflexivity.
Qed.

(** MoveTagAndPush first moves the sync tag with a forced, annotated tag
    command that is not given the key; when that fails nothing is pushed
    and the error says which tag could not be moved.  Only after the tag
    has moved does it force-push the tag, with the key, and it returns nil
    exactly when both commands succeeded. *)
Theorem MoveTagAndPush_tag_then_push (c : Checkout) (ref msg : string) (w : World) :
  cmd_env (tagCmd c ref msg) = [base]
  /\ (forall err, cmdError (outcome (tagCmd c ref msg) w) = Some err ->
        MoveTagAndPush c ref msg w
        = (Some (Wrap err ("moving tag " ++ SyncTag (Git.config c))%string),
           ran (tagCmd c ref msg) w))
  /\ (cmdError (outcome (tagCmd c ref msg) w) = None ->
      trace (snd (MoveTagAndPush c ref msg w))
        = trace w ++ [tagCmd c ref msg; pushTagCmd c]
      /\ (forall err,
            cmdError (outcome (pushTagCmd c) (ran (tagCmd c ref msg) w)) = Some err ->
            fst (MoveTagAndPush c ref msg w) = Some (Wrap err "pushing tag to origin")))
  /\ (fst (MoveTagAndPush c ref msg w) = None
      <-> run_err (outcome (tagCmd c ref msg) w) = None
          /\ run_err (outcome (pushTagCmd c) (ran (tagCmd c ref msg) w)) = None).
Proof.
  unfold MoveTagAndPush. rewrite moveTagAndPush_eq.
  fold (tagCmd c ref msg). fold (pushTagCmd c).
  split; [reflexivity|]. split; [|split].
  - intros err E. rewrite E. reflexivity.
  - intros E. rewrite E. cbn [fst snd]. split.
    + rewrite !trace_ran, <- app_assoc. reflexivity.
    + intros err Ep. rewrite Ep. reflexivity.
  - rewrite <- !cmdError_None.
    destruct (cmdError (outcome (tagCmd c ref msg) w)) as [e|]; cbn [fst].
    + split; [discriminate|]. intros [H _]. discriminate.
    + destruct (cmdError (outcome (pushTagCmd c) _)); split; try discriminate; auto.
      intros [_ H]. discriminate.
Qed.

(** *** Clone and WorkingClone *)

Lemma configLoop_trace (dir : string) (entries : list (string * string)) :
  forall w,
    exists cmds,
      trace (snd (configLoop dir entries w)) = trace w ++ cmds
      /\ Forall (fun cmd => cmd_env cmd = [base]) cmds
      /\ (fst (configLoop dir entries w) = None ->
            cmds = map (fun kv => gitCmd dir "" false ["config"; fst kv; snd kv]) entries).
Proof.
  induction entries as [|[k v] rest IH]; intros w; cbn [configLoop].
  - exists []. cbn. rewrite app_nil_r. repeat split. constructor.
  - unfold bind. rewrite execGitCmd_eq. cbn [fst].
    destruct (cmdError _) as [e|].
    + exists [gitCmd dir "" false ["config"; k; v]]. cbn [ret fst snd].
      split; [reflexivity|]. split; [repeat constructor|discriminate].
    + destruct (IH (ran (gitCmd dir "" false ["config"; k; v]) w)) as (cmds & Ht & Hf & Hs).
      exists (gitCmd dir "" false ["config"; k; v] :: cmds).
      split; [rewrite Ht, trace_ran, <- app_assoc; reflexivity|].
      split; [constructor; [reflexivity|exact Hf]|].
      intros Hn. cbn [map fst snd]. f_equal. exact (Hs Hn).
Qed.

Lemma tempDir_eq (dir prefix : string) (w : World) :
  tempDir dir prefix w
  = (fst (TempDir dir prefix (machine w)),
     mkWorld (snd (TempDir dir prefix (machine w))) (trace w) (console w)).
Proof. unfold tempDir. destruct (TempDir _ _ _). reflexivity. Qed.

Lemma checkKey_result (key : string) (w : World) :
  trace (snd (checkKey key w)) = trace w
  /\ (forall e, fst (checkKey key w) = Some e -> exists msg, e = OSError msg).
Proof.
  unfold checkKey, bind, stat, narrowKeyPerms, ret.
  destruct (negb (String.eqb key "")); [|split; [reflexivity|discriminate]].
  destruct (Stat key (machine w)) as [e|mode].
  - split; [reflexivity|]. intros e' H. inversion H. eauto.
  - destruct (negb (Z.land mode ModePerm =? ownerReadOnly));
      [|split; [reflexivity|discriminate]].
    destruct (Chmod key ownerReadOnly (machine w)) as [[e|] m'].
    + split; [reflexivity|]. intros e' H. inversion H. eauto.
    + split; [reflexivity|discriminate].
Qed.

(** Clone answers an empty URL with NoRepoError, and with nothing else,
    before it touches anything.  Whenever Clone fails it returns the zero
    Checkout, whose directory is empty, so that cleaning what Clone
    returned removes nothing: the temporary directory made for a clone
    that failed stays.  A CloningError carries the URL of the repository
    and wraps the error of the clone command. *)
Theorem Clone_failure_returns_zero_checkout (r : Repo) (c : Config)
  (nameFirst : bool) (w : World) :
  (snd (fst (Clone r c nameFirst w)) = Some NoRepoError <-> URL r = "")
  /\ (URL r = "" -> snd (Clone r c nameFirst w) = w)
  /\ (snd (fst (Clone r c nameFirst w)) <> None ->
      fst (fst (Clone r c nameFirst w)) = zeroCheckout
      /\ forall fs, Clean (fst (fst (Clone r c nameFirst w))) fs = fs)
  /\ (forall url e,
        snd (fst (Clone r c nameFirst w)) = Some (CloningError url e) ->
        url = URL r /\ exists err, e = Wrap err "git clone").
Proof.
  unfold Clone, bind.
  destruct (String.eqb (URL r) "") eqn:Eu.
  { apply String.eqb_eq in Eu. cbn [ret fst snd]. split_all. }
  apply String.eqb_neq in Eu. rewrite tempDir_eq.
  set (w1 := mkWorld _ (trace w) (console w)).
  destruct (fst (TempDir osTempDir "flux-gitclone" (machine w))) as [e|workingDir].
  { cbn [ret fst snd]. split_all. }
  destruct (checkKey (Key r) w1) as [k w2] eqn:Ek.
  destruct k as [ke|].
  { destruct (proj2 (checkKey_result (Key r) w1) ke) as (m & ->); [now rewrite Ek|].
    cbn [ret fst snd]. split_all. }
  rewrite clone_eq.
  destruct (cmdError _) as [ce|].
  { cbn [ret fst snd]. split_all.
    match goal with H : Some _ = Some _ |- _ => inversion H end. eauto. }
  cbn [fst snd].
  destruct (config _ _ _ _ _) as [cfe w4]. destruct cfe as [cfe|].
  { cbn [ret fst snd]. split_all. }
  rewrite getNotesRef_eq.
  destruct (cmdError _) as [ne|].
  { cbn [ret fst snd]. split_all. }
  cbn [fst snd]. rewrite fetch_eq.
  destruct (fetchFailed _) as [fe|].
  { cbn [ret fst snd]. split_all. }
  cbn [ret fst snd]. split_all.
Qed.

Lemma config_success (repoDir user email : string) (nameFirst : bool) (w w' : World) :
  config repoDir user email nameFirst w = (None, w') ->
  trace w' = trace w ++ configCmds repoDir user email nameFirst.
Proof.
  intros H. unfold config in H.
  destruct (configLoop_trace repoDir (configEntries user email nameFirst) w)
    as (cmds & Ht & _ & Hs).
  rewrite H in Ht, Hs. cbn [fst snd] in Ht, Hs. rewrite Ht, (Hs eq_refl). reflexivity.
Qed.

Lemma configLoop_world (dir : string) (entries : list (string * string)) :
  forall w,
    fst (configLoop dir entries w) = None ->
    snd (configLoop dir entries w)
    = fold_left (fun w0 cmd => ran cmd w0)
        (map (fun kv => gitCmd dir "" false ["config"; fst kv; snd kv]) entries) w.
Proof.
  induction entries as [|[k v] rest IH]; intros w; cbn [configLoop]; [reflexivity|].
  unfold bind. rewrite execGitCmd_eq. cbn [fst].
  destruct (cmdError _) as [e|]; [discriminate|].
  intros H. cbn [map fold_left fst snd]. apply IH. exact H.
Qed.

(** A Clone that succeeds was given a URL.  The Checkout it returns holds
    the repository and the configuration it was given, its directory is
    the entry repo of the temporary directory, and its notes ref is the
    trimmed output of the get-ref command, run after the config commands.
    Clone ran, in this order, the clone (with the key), the two config
    commands and the get-ref command (without it), and the fetch of that
    notes ref onto itself (with the key); the clone and the get-ref
    command succeeded, and the world Clone leaves is the one after the
    fetch. *)
Theorem Clone_success_shape (r : Repo) (c : Config) (nameFirst : bool)
  (w : World) (co : Checkout) (w' : World) :
  Clone r c nameFirst w = ((co, None), w') ->
  URL r <> ""
  /\ exists workingDir,
       fst (TempDir osTempDir "flux-gitclone" (machine w)) = inr workingDir
       /\ let repoDir := Join workingDir "repo" in
          let keyed :=
            snd (checkKey (Key r)
                   (onMachine (snd (TempDir osTempDir "flux-gitclone" (machine w))) w)) in
          let cloned := ran (cloneCmd workingDir (Key r) (URL r) (Branch r)) keyed in
          let configured :=
            fold_left (fun w0 cmd => ran cmd w0)
              (configCmds repoDir (UserName c) (UserEmail c) nameFirst) cloned in
          let notesRef :=
            TrimSpace (proc_stdout (outcome (getRefCmd repoDir (NotesRef c)) configured)) in
          run_err (outcome (cloneCmd workingDir (Key r) (URL r) (Branch r)) keyed) = None
          /\ run_err (outcome (getRefCmd repoDir (NotesRef c)) configured) = None
          /\ co = mkCheckout r repoDir c notesRef
          /\ w' = ran (fetchCmd (Key r) repoDir (URL r) notesRef)
                    (ran (getRefCmd repoDir (NotesRef c)) configured)
          /\ trace w'
             = trace w
               ++ cloneCmd workingDir (Key r) (URL r) (Branch r)
                  :: configCmds repoDir (UserName c) (UserEmail c) nameFirst
               ++ [getRefCmd repoDir (NotesRef c);
                   fetchCmd (Key r) repoDir (URL r) notesRef].
Proof.
  unfold Clone, bind.
  destruct (String.eqb (URL r) "") eqn:Eu; [discriminate|].
  apply String.eqb_neq in Eu. rewrite tempDir_eq.
  destruct (fst (TempDir osTempDir "flux-gitclone" (machine w))) as [e|workingDir];
    [discriminate|].
  fold (onMachine (snd (TempDir osTempDir "flux-gitclone" (machine w))) w).
  set (w1 := onMachine _ w).
  pose proof (proj1 (checkKey_result (Key r) w1)) as Tk.
  destruct (checkKey (Key r) w1) as [k w2]. cbn [snd] in Tk |- *.
  destruct k; [discriminate|].
  rewrite clone_eq. fold (cloneCmd workingDir (Key r) (URL r) (Branch r)).
  destruct (cmdError (outcome (cloneCmd workingDir (Key r) (URL r) (Branch r)) w2))
    eqn:Ecl; [discriminate|].
  cbn [fst snd].
  pose proof (configLoop_world (Join workingDir "repo")
                (configEntries (UserName c) (UserEmail c) nameFirst)
                (ran (cloneCmd workingDir (Key r) (URL r) (Branch r)) w2)) as Hw.
  fold (configCmds (Join workingDir "repo") (UserName c) (UserEmail c) nameFirst) in Hw.
  destruct (config _ _ _ _ _) as [cfe w4] eqn:Ec. destruct cfe; [discriminate|].
  pose proof (config_success _ _ _ _ _ _ Ec) as Tc.
  unfold config in Ec. rewrite Ec in Hw. specialize (Hw eq_refl). cbn [snd] in Hw.
  rewrite getNotesRef_eq. fold (getRefCmd (Join workingDir "repo") (NotesRef c)).
  destruct (cmdError (outcome (getRefCmd (Join workingDir "repo") (NotesRef c)) w4))
    eqn:Eg; [discriminate|].
  cbn [fst snd].
  rewrite fetch_eq. destruct (fetchFailed _); [discriminate|].
  cbn [ret]. intros H. inversion H; subst co w'. clear H. split; [exact Eu|].
  exists workingDir. split; [reflexivity|]. cbn zeta. rewrite <- Hw.
  split; [apply cmdError_None; exact Ecl|].
  split; [apply cmdError_None; exact Eg|].
  split; [reflexivity|]. split; [reflexivity|].
  rewrite !trace_ran, Tc, trace_ran, Tk. unfold w1, onMachine. cbn [trace].
  unfold fetchCmd. rewrite <- !app_assoc. reflexivity.
Qed.

(** Once the key has passed, the clone command is the first command
    Clone runs. *)
Lemma Clone_runs_clone (r : Repo) (c : Config) (nameFirst : bool)
  (w : World) (workingDir : string) (m1 : Machine) (wk : World) :
  URL r <> "" ->
  TempDir osTempDir "flux-gitclone" (machine w) = (inr workingDir, m1) ->
  checkKey (Key r) (onMachine m1 w) = (None, wk) ->
  exists rest,
    trace (snd (Clone r c nameFirst w))
    = trace w ++ cloneCmd workingDir (Key r) (URL r) (Branch r) :: rest.
Proof.
  intros Eu Et Ek.
  pose proof (proj1 (checkKey_result (Key r) (onMachine m1 w))) as Tk.
  rewrite Ek in Tk. cbn [snd onMachine trace] in Tk.
  unfold Clone, bind. apply String.eqb_neq in Eu. rewrite Eu.
  rewrite tempDir_eq, Et. cbn [fst snd]. fold (onMachine m1 w). rewrite Ek.
  rewrite clone_eq. fold (cloneCmd workingDir (Key r) (URL r) (Branch r)).
  set (cc := cloneCmd workingDir (Key r) (URL r) (Branch r)).
  destruct (cmdError (outcome cc wk)).
  { exists []. cbn [ret fst snd]. now rewrite trace_ran, Tk. }
  cbn [fst snd].
  destruct (configLoop_trace (Join workingDir "repo")
              (configEntries (UserName c) (UserEmail c) nameFirst) (ran cc wk))
    as (cmds & Ht & _ & _).
  unfold config. destruct (configLoop _ _ _) as [cfe w4]. cbn [snd] in Ht.
  destruct cfe as [cfe|].
  { exists cmds. cbn [ret fst snd]. now rewrite Ht, trace_ran, Tk, <- app_assoc. }
  rewrite getNotesRef_eq.
  set (gc := gitCmd (Join workingDir "repo") "" true _).
  destruct (cmdError (outcome gc w4)).
  { exists (cmds ++ [gc]). cbn [ret fst snd].
    now rewrite trace_ran, Ht, trace_ran, Tk, <- !app_assoc. }
  cbn [fst snd]. rewrite fetch_eq.
  set (fc := gitCmd (Join workingDir "repo") (Key r) false _).
  exists (cmds ++ [gc; fc]).
  destruct (fetchFailed _); cbn [ret fst snd];
    rewrite !trace_ran, Ht, trace_ran, Tk, <- !app_assoc; reflexivity.
Qed.

(** Clone looks at the key file only when a key is given: without a key
    the check passes and leaves the world as the temporary directory left
    it, whatever stat would say, and the clone command runs next.  With a
    key, a failure of stat, or of the chmod that follows a mode whose
    permission bits are not 0400, ends Clone with that error before any
    git command has run; the check passes on the unchanged machine when
    the mode is 0400, and on the machine after chmod(key, 0400) when the
    mode was another.  Whenever the check passes the clone command is the
    first command Clone runs, in the world the check left, and its failure
    ends Clone with a CloningError; whenever the check fails Clone returns
    that error and no command has run. *)
Theorem Clone_narrows_loose_key (r : Repo) (c : Config) (nameFirst : bool)
  (w : World) (workingDir : string) (m1 : Machine) :
  URL r <> "" ->
  TempDir osTempDir "flux-gitclone" (machine w) = (inr workingDir, m1) ->
  (Key r = "" ->
     checkKey (Key r) (onMachine m1 w) = (None, onMachine m1 w)
     /\ exists rest,
          trace (snd (Clone r c nameFirst w))
          = trace w ++ cloneCmd workingDir "" (URL r) (Branch r) :: rest)
  /\ (Key r <> "" ->
      (forall e, Stat (Key r) m1 = inl e ->
         Clone r c nameFirst w = ((zeroCheckout, Some (OSError e)), onMachine m1 w))
      /\ (forall mode, Stat (Key r) m1 = inr mode ->
            Z.land mode ModePerm = ownerReadOnly ->
            checkKey (Key r) (onMachine m1 w) = (None, onMachine m1 w))
      /\ (forall mode e m2, Stat (Key r) m1 = inr mode ->
            Z.land mode ModePerm <> ownerReadOnly ->
            Chmod (Key r) ownerReadOnly m1 = (Some e, m2) ->
            Clone r c nameFirst w = ((zeroCheckout, Some (OSError e)), onMachine m2 w))
      /\ (forall mode m2, Stat (Key r) m1 = inr mode ->
            Z.land mode ModePerm <> ownerReadOnly ->
            Chmod (Key r) ownerReadOnly m1 = (None, m2) ->
            checkKey (Key r) (onMachine m1 w) = (None, onMachine m2 w)))
  /\ (forall wk,
        checkKey (Key r) (onMachine m1 w) = (None, wk) ->
        (exists rest,
           trace (snd (Clone r c nameFirst w))
           = trace w ++ cloneCmd workingDir (Key r) (URL r) (Branch r) :: rest)
        /\ (forall err,
              cmdError (outcome (cloneCmd workingDir (Key r) (URL r) (Branch r)) wk)
              = Some err ->
              Clone r c nameFirst w
              = ((zeroCheckout, Some (CloningError (URL r) (Wrap err "git clone"))),
                 ran (cloneCmd workingDir (Key r) (URL r) (Branch r)) wk)))
  /\ (forall e wk,
        checkKey (Key r) (onMachine m1 w) = (Some e, wk) ->
        Clone r c nameFirst w = ((zeroCheckout, Some e), wk)
        /\ trace wk = trace w).
Proof.
  intros Eu Et.
  assert (EC : forall k wk,
             checkKey (Key r) (onMachine m1 w) = (Some k, wk) ->
             Clone r c nameFirst w = ((zeroCheckout, Some k), wk)).
  { intros k wk Ek. unfold Clone, bind. apply String.eqb_neq in Eu. rewrite Eu.
    rewrite tempDir_eq, Et. cbn [fst snd]. fold (onMachine m1 w). rewrite Ek. reflexivity. }
  split; [|split; [|split]].
  - intros Hk.
    assert (Ek : checkKey (Key r) (onMachine m1 w) = (None, onMachine m1 w))
      by (rewrite Hk; reflexivity).
    split; [exact Ek|].
    destruct (Clone_runs_clone r c nameFirst w workingDir m1 _ Eu Et Ek) as [rest Hr].
    exists rest. rewrite Hr, Hk. reflexivity.
  - intros Hk. apply String.eqb_neq in Hk.
    split; [|split; [|split]].
    + intros e Hs. apply EC. unfold checkKey, bind, stat. rewrite Hk. cbn [negb machine onMachine].
      rewrite Hs. reflexivity.
    + intros mode Hs Hm. unfold checkKey, bind, stat. rewrite Hk. cbn [negb machine onMachine].
      rewrite Hs. apply Z.eqb_eq in Hm. rewrite Hm. reflexivity.
    + intros mode e m2 Hs Hm Hc. apply EC.
      unfold checkKey, bind, stat, narrowKeyPerms. rewrite Hk. cbn [negb machine onMachine].
      rewrite Hs. apply Z.eqb_neq in Hm. rewrite Hm. cbn [negb]. unfold ret at 1.
      cbn [machine onMachine]. rewrite Hc. reflexivity.
    + intros mode m2 Hs Hm Hc.
      unfold checkKey, bind, stat, narrowKeyPerms. rewrite Hk. cbn [negb machine onMachine].
      rewrite Hs. apply Z.eqb_neq in Hm. rewrite Hm. cbn [negb]. unfold ret at 1.
      cbn [machine onMachine]. rewrite Hc. reflexivity.
  - intros wk Ek. split; [exact (Clone_runs_clone r c nameFirst w workingDir m1 wk Eu Et Ek)|].
    intros err Ec. unfold Clone, bind. apply String.eqb_neq in Eu. rewrite Eu.
    rewrite tempDir_eq, Et. cbn [fst snd]. fold (onMachine m1 w). rewrite Ek.
    rewrite clone_eq. fold (cloneCmd workingDir (Key r) (URL r) (Branch r)).
    rewrite Ec. reflexivity.
  - intros e wk Ek. split; [exact (EC e wk Ek)|].
    pose proof (proj1 (checkKey_result (Key r) (onMachine m1 w))) as Tk.
    rewrite Ek in Tk. exact Tk.
Qed.

(** WorkingClone hands no key to git: every command it runs, whether it
    succeeds or fails, has the environment of a call without a key.  When
    it succeeds, the Checkout it returns has the repository, the
    configuration and the notes ref of the Checkout it was made from, in
    the entry repo of a new temporary directory, and it ran the clone and
    the fetch of the notes ref against the directory of that Checkout,
    not against the URL of the remote. *)
Theorem WorkingClone_is_local (c : Checkout) (nameFirst : bool) (w : World) :
  exists cmds,
    trace (snd (WorkingClone c nameFirst w)) = trace w ++ cmds
    /\ Forall (fun cmd => cmd_env cmd = [base]) cmds
    /\ (forall co,
          fst (WorkingClone c nameFirst w) = (co, None) ->
          exists workingDir,
            fst (TempDir osTempDir "flux-working" (machine w)) = inr workingDir
            /\ co = mkCheckout (repo c) (Join workingDir "repo") (Git.config c)
                      (realNotesRef c)
            /\ cmds = cloneCmd workingDir "" (Dir c) (Branch (repo c))
                      :: configCmds (Dir co) (UserName (Git.config c))
                           (UserEmail (Git.config c)) nameFirst
                      ++ [fetchCmd "" (Dir co) (Dir c) (realNotesRef c)]).
Proof.
  unfold WorkingClone, bind. rewrite tempDir_eq.
  destruct (fst (TempDir osTempDir "flux-working" (machine w))) as [e|workingDir].
  { exists []. cbn [ret fst snd trace]. rewrite app_nil_r. split_all. }
  rewrite clone_eq. fold (cloneCmd workingDir "" (Dir c) (Branch (repo c))).
  set (cc := cloneCmd workingDir "" (Dir c) (Branch (repo c))).
  set (w1 := mkWorld _ (trace w) (console w)).
  destruct (cmdError (outcome cc w1)).
  { exists [cc]. cbn [ret fst snd]. split; [reflexivity|]. split; [repeat constructor|].
    intros co H. discriminate. }
  cbn [fst snd].
  destruct (configLoop_trace (Join workingDir "repo")
              (configEntries (UserName (Git.config c)) (UserEmail (Git.config c)) nameFirst)
              (ran cc w1)) as (cmds & Ht & Hf & Hs).
  unfold config.
  destruct (configLoop _ _ _) as [cfe w3]. cbn [fst snd] in Ht, Hs.
  destruct cfe as [cfe|].
  { exists (cc :: cmds). cbn [ret fst snd].
    split; [rewrite Ht, trace_ran; cbn [trace w1]; now rewrite <- app_assoc|].
    split; [constructor; [reflexivity|exact Hf]|]. intros co H. discriminate. }
  rewrite fetch_eq.
  set (fc := gitCmd (Join workingDir "repo") "" false _).
  exists (cc :: cmds ++ [fc]).
  split.
  { destruct (fetchFailed _); cbn [ret fst snd];
      rewrite trace_ran, Ht, trace_ran; cbn [trace w1];
      rewrite <- !app_assoc; reflexivity. }
  split.
  { constructor; [reflexivity|]. apply Forall_app. split; [exact Hf|repeat constructor]. }
  intros co H. destruct (fetchFailed _); cbn [ret fst snd] in H; [discriminate|].
  inversion H; subst. exists workingDir. split; [reflexivity|]. split; [reflexivity|].
  rewrite (Hs eq_refl). reflexivity.
Qed.

(** *** CommitAndPush with a note, and GetNote after it *)

Lemma CommitAndPush_note_success (c : Checkout) (commitMessage : string)
  (n : Note) (w w' : World) :
  CommitAndPush c commitMessage (Some n) w = (None, w') ->
  exists noteBytes,
    jsonMarshal n = inr noteBytes
    /\ cmdError (outcome
                   (addNoteCmd c
                      (TrimSpace (proc_stdout (outcome (headCmd c)
                         (ran (commitCmd c commitMessage) (ran (diffCmd c) w)))))
                      noteBytes)
                   (ran (headCmd c) (ran (commitCmd c commitMessage) (ran (diffCmd c) w))))
       = None
    /\ w' = ran (pushCmd c)
              (ran (addNoteCmd c
                      (TrimSpace (proc_stdout (outcome (headCmd c)
                         (ran (commitCmd c commitMessage) (ran (diffCmd c) w)))))
                      noteBytes)
                 (ran (headCmd c) (ran (commitCmd c commitMessage) (ran (diffCmd c) w)))).
Proof.
  unfold CommitAndPush, bind. rewrite check_eq. fold (diffCmd c).
  destruct (cmdError (outcome (diffCmd c) w)); cbn [negb]; [|discriminate].
  rewrite commit_eq. fold (commitCmd c commitMessage).
  destruct (cmdError (outcome (commitCmd c commitMessage) _)); [discriminate|].
  destruct (jsonMarshal n) as [m|noteBytes]; [discriminate|].
  rewrite headRevision_eq. fold (headCmd c).
  destruct (cmdError (outcome (headCmd c) _)); cbn [fst snd ret]; [discriminate|].
  rewrite addNote_eq.
  change (gitCmd (Dir c) "" false
            ["notes"; "--ref"; realNotesRef c; "add"; "-m"; noteBytes; ?rev])
    with (addNoteCmd c rev noteBytes).
  destruct (cmdError (outcome (addNoteCmd c _ noteBytes) _)) eqn:Ea;
    cbn [fst snd ret]; [discriminate|].
  rewrite push_eq.
  change (gitCmd (Dir c) (Key (repo c)) false _) with (pushCmd c).
  destruct (cmdError (outcome (pushCmd c) _)); cbn [fst snd ret]; [discriminate|].
  intros H. inversion H; subst. exists noteBytes. repeat split. exact Ea.
Qed.

(** When CommitAndPush with a note returns nil it has run exactly five
    commands: the diff, the commit, the rev-list of HEAD, the notes add of
    the marshalled note to the revision that rev-list printed, under the
    notes ref of the Checkout, and the push.  When the note cannot be
    marshalled, the commit has already been made: CommitAndPush returns
    the JSON error after the commit command and pushes nothing. *)
Theorem CommitAndPush_attaches_note_to_head (c : Checkout) (commitMessage : string)
  (n : Note) (w : World) :
  (fst (CommitAndPush c commitMessage (Some n) w) = None ->
     exists noteBytes,
       jsonMarshal n = inr noteBytes
       /\ trace (snd (CommitAndPush c commitMessage (Some n) w))
          = trace w
            ++ [diffCmd c; commitCmd c commitMessage; headCmd c;
                addNoteCmd c
                  (TrimSpace (proc_stdout (outcome (headCmd c)
                     (ran (commitCmd c commitMessage) (ran (diffCmd c) w)))))
                  noteBytes;
                pushCmd c])
  /\ (forall msg,
        jsonMarshal n = inl msg ->
        run_err (outcome (diffCmd c) w) <> None ->
        run_err (outcome (commitCmd c commitMessage) (ran (diffCmd c) w)) = None ->
        CommitAndPush c commitMessage (Some n) w
        = (Some (JSONError msg), ran (commitCmd c commitMessage) (ran (diffCmd c) w))).
Proof.
  split.
  - intros H.
    destruct (CommitAndPush c commitMessage (Some n) w) as [res w'] eqn:E.
    cbn [fst] in H. subst res.
    destruct (CommitAndPush_note_success _ _ _ _ _ E) as (noteBytes & Hm & _ & ->).
    exists noteBytes. split; [exact Hm|]. cbn [snd].
    rewrite !trace_ran, <- !app_assoc. reflexivity.
  - intros msg Hm Hd Hc. unfold CommitAndPush, bind. rewrite check_eq. fold (diffCmd c).
    destruct (cmdError (outcome (diffCmd c) w)) eqn:Ed;
      [|apply cmdError_None in Ed; contradiction].
    cbn [negb]. rewrite commit_eq. fold (commitCmd c commitMessage).
    apply cmdError_None in Hc. rewrite Hc, Hm. reflexivity.
Qed.


End Facts.

(** *** Runs on the demonstration hosts *)

Import Fixtures.
Import MoreFixtures.

Lemma Pull_tolerates_missing_notes_witness :
  cmdError (@outcome freshHost (@pullCmd freshHost demoCheckout) (freshWorld false)) = None
  /\ fst (@Pull freshHost (demoOS 256) demoCheckout (freshWorld false)) = None.
Proof.
  split; [reflexivity|].
  apply (proj2 (@Pull_tolerates_missing_notes freshHost (demoOS 256) demoCheckout
                  (freshWorld false)) eq_refl).
  reflexivity.
Defined.

Lemma MoveTagAndPush_witness :
  trace (snd (@MoveTagAndPush freshHost demoCheckout "c0ffee" "sync" (freshWorld false)))
  = [@tagCmd freshHost demoCheckout "c0ffee" "sync"; @pushTagCmd freshHost demoCheckout].
Proof.
  apply (proj1 (proj2 (proj2 (@MoveTagAndPush_tag_then_push freshHost demoCheckout
                                "c0ffee" "sync" (freshWorld false))))).
  reflexivity.
Defined.

Lemma Clone_success_witness :
  URL (repo demoCheckout) <> ""
  /\ fst (fst (@Clone freshHost (demoOS 420) (repo demoCheckout)
                 (Git.config demoCheckout) true (freshWorld false)))
     = mkCheckout (repo demoCheckout) "/tmp/flux-gitclone1/repo"
         (Git.config demoCheckout) "refs/notes/flux".
Proof.
  destruct (@Clone_success_shape freshHost (demoOS 420) (repo demoCheckout)
              (Git.config demoCheckout) true (freshWorld false)
              (fst (fst (@Clone freshHost (demoOS 420) (repo demoCheckout)
                           (Git.config demoCheckout) true (freshWorld false))))
              (snd (@Clone freshHost (demoOS 420) (repo demoCheckout)
                      (Git.config demoCheckout) true (freshWorld false)))
              eq_refl)
    as (Hu & workingDir & Ht & _ & _ & Hc & _).
  split; [exact Hu|].
  injection Ht as <-. exact Hc.
Defined.

Example Clone_run :
  fst (@Clone freshHost (demoOS 420) (repo demoCheckout) (Git.config demoCheckout) true
         (freshWorld false))
  = (mkCheckout (repo demoCheckout) "/tmp/flux-gitclone1/repo" (Git.config demoCheckout)
       "refs/notes/flux", None)
  /\ map subcommand
       (trace (snd (@Clone freshHost (demoOS 420) (repo demoCheckout)
                      (Git.config demoCheckout) true (freshWorld false))))
     = ["clone"; "config"; "config"; "notes"; "fetch"]
  /\ notes (machine (snd (@Clone freshHost (demoOS 420) (repo demoCheckout)
                            (Git.config demoCheckout) true (freshWorld false))))
     = [("chmod", "0400")].
Proof. repeat split. Qed.

Lemma Clone_narrows_loose_key_witness :
  @checkKey freshHost (demoOS 420) "/etc/key" (freshWorld false)
  = (None, @onMachine freshHost (mkDemo false [("chmod", "0400")]) (freshWorld false))
  /\ @checkKey freshHost (demoOS 420) "" (freshWorld false)
     = (None, @onMachine freshHost (mkDemo false []) (freshWorld false)).
Proof.
  split.
  - apply (proj2 (proj2 (proj2 (proj1 (proj2
            (@Clone_narrows_loose_key freshHost (demoOS 420) (repo demoCheckout)
               (Git.config demoCheckout) true (freshWorld false) "/tmp/flux-gitclone1"
               (mkDemo false []) ltac:(discriminate) eq_refl))
            ltac:(discriminate)))) 420 _ eq_refl ltac:(discriminate) eq_refl).
  - apply (proj1 (proj1
            (@Clone_narrows_loose_key freshHost (demoOS 420)
               (mkRepo "git@example.com:org/conf" "master" "" "manifests")
               (Git.config demoCheckout) true (freshWorld false) "/tmp/flux-gitclone1"
               (mkDemo false []) ltac:(discriminate) eq_refl)
            eq_refl)).
Defined.


(** On that host git shows the note with a newline after it, and GetNote
    reads the note back all the same. *)
Example GetNote_shown_run :
  proc_stdout
    (@outcome notesHost (@showNoteCmd notesHost demoCheckout "c0ffee")
       (snd (@CommitAndPush notesHost demoCheckout "bump"
               (Some (@mkNote notesHost "job-1" "spec")) (notesWorld true))))
  = line "{spec".
Proof. reflexivity. Qed.

End GitRepoFacts.

(* ================================================================== *)
(** ** package main of fluxctl, the rest                               *)
(* ================================================================== *)

Module FluxctlMoreFacts.
Import Fluxctl.
Import FluxctlFacts.
Import FluxctlSync.

Local Open Scope Z_scope.

Section Bounds.
Context {sched : Scheduler} {St : Type}.
Variable f : Predicate St.

Lemma backoffLoop_clock_bound (cost : Z) :
  0 <= cost ->
  (forall s t, snd (f s t) <= t + cost) ->
  (forall t d, 0 < d -> wakeup t d = t + d) ->
  forall (fuel : nat) (finish maxDelay factor delay : Z) (w : World St) r w',
    backoffLoop fuel finish maxDelay factor delay f w = Some (r, w') ->
    clock w' <= Z.max (clock w) (finish - 1 + cost).
Proof.
  intros Hc Hf Hw. induction fuel as [|fuel IH];
    intros finish maxDelay factor delay w r w' H.
  - cbn [backoffLoop] in H. destruct (clock w <? finish); [discriminate|].
    inversion H; subst. lia.
  - rewrite backoffLoop_step in H.
    destruct (Z.ltb_spec (clock w) finish) as [Hlt|Hge]; [|inversion H; subst; lia].
    pose proof (invoke_clock f w) as Hi. pose proof (Hf (state w) (clock w)) as Hb.
    destruct (fst (fst (invoke f w)) || isSome (snd (fst (invoke f w)))).
    + inversion H; subst. lia.
    + apply IH in H.
      assert (Hp : clock (pause finish delay (snd (invoke f w))) <= finish - 1 + cost).
      { unfold pause, Sleep.
        destruct (Z.ltb_spec (clock (snd (invoke f w)) + delay) finish); cbn [clock]; [|lia].
        destruct (Z.leb_spec delay 0); [lia|]. rewrite Hw by assumption. lia. }
      lia.
Qed.

(** With a scheduler that wakes a sleeper on time and a predicate whose
    invocations take at most [cost], backoff sleeps only while the sleep
    ends before the deadline, so that it returns less than [cost] after
    the deadline (or at the moment it was called, when the deadline had
    passed already). *)
Theorem backoff_returns_soon_after_deadline
  (cost : Z) (fuel : nat) (initialDelay factor maxFactor timeout : Z)
  (w : World St) (r : option error) (w' : World St) :
  0 <= cost ->
  (forall s t, snd (f s t) <= t + cost) ->
  (forall t d, 0 < d -> wakeup t d = t + d) ->
  backoff fuel initialDelay factor maxFactor timeout f w = Some (r, w') ->
  clock w' <= Z.max (clock w) (clock w + timeout - 1 + cost).
Proof.
  intros Hc Hf Hw H. unfold backoff in H.
  exact (backoffLoop_clock_bound cost Hc Hf Hw _ _ _ _ _ _ _ _ H).
Qed.

End Bounds.

Section AwaitSyncFacts.
Context {sched : Scheduler} {client : SyncService}.

Lemma pollSync_eq (commitRef : string) (tr : SyncTracker) (now : Z) :
  pollSync commitRef tr now
  = ((negb (isSome (snd (fst (fst (SyncStatus noInstanceID commitRef tr now)))))
      && Nat.eqb (List.length (fst (fst (fst (SyncStatus noInstanceID commitRef tr now))))) 0,
      snd (fst (fst (SyncStatus noInstanceID commitRef tr now)))),
     snd (fst (SyncStatus noInstanceID commitRef tr now)),
     snd (SyncStatus noInstanceID commitRef tr now)).
Proof.
  unfold pollSync. destruct (SyncStatus _ _ _ _) as [[r tr'] now']. reflexivity.
Qed.

(** What awaitSync makes of the answer to its first query, which it
    always makes (the deadline is a minute away): an error ends the
    polling with that error, whatever the refs; no error and no
    outstanding ref ends it with nil; no error and some outstanding ref
    lets it sleep and poll again.  And whenever awaitSync returns nil the
    last thing it did was a query that was answered without an error and
    without outstanding refs. *)
Theorem awaitSync_maps_refs (fuel : nat) (commitRef : string)
  (w : World SyncTracker) (refs : list string) (err : option error)
  (tr : SyncTracker) (t' : Z) :
  SyncStatus noInstanceID commitRef (state w) (clock w) = ((refs, err), tr, t') ->
  (forall e, err = Some e ->
     awaitSync (S fuel) commitRef w
     = Some (Some e, mkWorld t' tr (log w ++ [Called false (Some e)])))
  /\ (err = None -> refs = [] ->
      awaitSync (S fuel) commitRef w
      = Some (None, mkWorld t' tr (log w ++ [Called true None])))
  /\ (err = None -> refs <> [] ->
      awaitSync (S fuel) commitRef w
      = backoffLoop fuel (clock w + 1 * Minute) (mul (100 * Millisecond) 100) 2
          (nextDelay (mul (100 * Millisecond) 100) 2 (100 * Millisecond))
          (pollSync commitRef)
          (pause (clock w + 1 * Minute) (100 * Millisecond)
             (mkWorld t' tr (log w ++ [Called false None]))))
  /\ (forall fuel' w',
        awaitSync fuel' commitRef w = Some (None, w') ->
        exists pre, log w' = log w ++ pre ++ [Called true None]).
Proof.
  intros H.
  assert (E : (clock w <? clock w + 1 * Minute) = true)
    by (apply Z.ltb_lt; unfold Minute; lia).
  assert (I : invoke (pollSync commitRef) w
              = ((negb (isSome err) && Nat.eqb (List.length refs) 0, err),
                 mkWorld t' tr
                   (log w ++ [Called (negb (isSome err) && Nat.eqb (List.length refs) 0) err]))).
  { unfold invoke. rewrite pollSync_eq, H. reflexivity. }
  split; [|split; [|split]].
  - intros e ->. unfold awaitSync, backoff. rewrite backoffLoop_step, E, I. reflexivity.
  - intros -> ->. unfold awaitSync, backoff. rewrite backoffLoop_step, E, I. reflexivity.
  - intros -> Hr. unfold awaitSync, backoff. rewrite backoffLoop_step, E, I.
    destruct refs; [contradiction|]. reflexivity.
  - intros fuel' w' Hs. unfold awaitSync, backoff in Hs.
    apply backoffLoop_ended in Hs.
    destruct Hs as (evs & Hl & [(Hr & _)|(pre & ok & e & He & _ & Hd & Hr)]);
      [discriminate|].
    subst e. destruct Hd as [->|Hd]; [|contradiction].
    exists pre. rewrite Hl, He. reflexivity.
Qed.

End AwaitSyncFacts.

Import Fixtures.
Import MoreFixtures.

Example awaitSync_run :
  @awaitSync exactScheduler demoSync 10 "deadbeef" (startWorld O)
  = Some (None,
          mkWorld 303000000 3%nat
            [Called false None; Slept 100000000; Called false None; Slept 200000000;
             Called true None]).
Proof. reflexivity. Qed.

Lemma awaitSync_maps_refs_witness :
  @awaitSync exactScheduler demoSync 1 "deadbeef" (@mkWorld nat 0 2%nat [])
  = Some (None, mkWorld Millisecond 3%nat [Called true None]).
Proof.
  apply (proj1 (proj2 (@awaitSync_maps_refs exactScheduler demoSync 0 "deadbeef"
                         (@mkWorld nat 0 2%nat []) [] None 3%nat Millisecond eq_refl))
           eq_refl eq_refl).
Defined.

Lemma backoff_returns_soon_witness :
  (0 <= 150)
  /\ clock (mkWorld 550 3%nat
             [Called false None; Slept 100; Called false None; Called false None])
     <= Z.max (clock (@startWorld nat O)) (clock (@startWorld nat O) + 500 - 1 + 150).
Proof.
  split; [lia|].
  apply (@backoff_returns_soon_after_deadline exactScheduler nat (countingPredicate 0 150)
           150 10 100 2 100 500 (startWorld O) (Some ErrTimeout)).
  - lia.
  - intros s t. cbn. lia.
  - intros t d _. reflexivity.
  - reflexivity.
Defined.

End FluxctlMoreFacts.

(* ================================================================== *)
(** ** http/server/server.go, the rest                                 *)
(* ================================================================== *)

Module ServerMoreFacts.
Import GoStrings.
Import Server.
Import ServerMore.

Local Open Scope Z_scope.

(** *** The md5 fingerprint *)

Lemma length_append (a b : string) :
  String.length (a ++ b) = (String.length a + String.length b)%nat.
Proof. induction a as [|c a IH]; simpl; [reflexivity|now rewrite IH]. Qed.

Lemma append_assoc (a b c : string) : ((a ++ b) ++ c = a ++ (b ++ c))%string.
Proof. induction a as [|x a IH]; simpl; [reflexivity|now rewrite IH]. Qed.

Lemma append_nil_r (a : string) : (a ++ "" = a)%string.
Proof. induction a as [|x a IH]; simpl; [reflexivity|now rewrite IH]. Qed.

Lemma hexDigit_not_colon (n : N) : hexDigit n <> ":"%char.
Proof.
  unfold hexDigit, hexDigits. generalize (N.to_nat n). intros k.
  do 16 (destruct k as [|k]; [discriminate|]). discriminate.
Qed.

Lemma fingerprintLoop_join (rest : list Byte.byte) :
  forall (len i : Z) (acc : string),
    len = i + Z.of_nat (List.length rest) ->
    fingerprintLoop len i rest acc = (acc ++ Join (map hex2 rest) ":")%string.
Proof.
  induction rest as [|b rest IH]; intros len i acc Hlen; cbn [fingerprintLoop map Join].
  - now rewrite append_nil_r.
  - destruct rest as [|b' rest'].
    + cbn [List.length] in Hlen.
      destruct (Z.ltb_spec i (len - 1)); [lia|]. cbn [fingerprintLoop map]. reflexivity.
    + cbn [List.length] in Hlen.
      destruct (Z.ltb_spec i (len - 1)); [|lia].
      rewrite IH by (cbn [List.length]; lia).
      cbn [map]. rewrite !append_assoc. reflexivity.
Qed.

Lemma Join_hex_length (l : list Byte.byte) :
  l <> [] ->
  Z.of_nat (String.length (Join (map hex2 l) ":")) = 3 * Z.of_nat (List.length l) - 1.
Proof.
  induction l as [|b l IH]; [contradiction|]. intros _.
  destruct l as [|b' l'].
  - reflexivity.
  - cbn [map Join] in *. rewrite !length_append.
    specialize (IH ltac:(discriminate)).
    change (String.length (hex2 b)) with 2%nat. change (String.length ":") with 1%nat.
    cbn [List.length] in *. lia.
Qed.

Lemma EndsWith_app (a b : string) (c : ascii) :
  b <> "" -> EndsWith (a ++ b) c = EndsWith b c.
Proof.
  intros Hb. induction a as [|x a IH]; [reflexivity|].
  cbn [append EndsWith]. destruct (a ++ b)%string eqn:E; [|exact IH].
  destruct a; cbn [append] in E; [contradiction|discriminate].
Qed.

Lemma Join_hex_nonempty (b : Byte.byte) (l : list Byte.byte) :
  Join (map hex2 (b :: l)) ":" <> "".
Proof. cbn [map Join]. destruct (map hex2 l); unfold hex2; discriminate. Qed.

Lemma Join_hex_end (l : list Byte.byte) :
  EndsWith (Join (map hex2 l) ":") ":" = false.
Proof.
  induction l as [|b l IH]; [reflexivity|].
  destruct l as [|b' l'].
  - cbn [map Join]. unfold hex2. cbn [EndsWith].
    apply Ascii.eqb_neq. apply hexDigit_not_colon.
  - change (Join (map hex2 (b :: b' :: l')) ":")
      with (hex2 b ++ (":" ++ Join (map hex2 (b' :: l')) ":"))%string.
    rewrite EndsWith_app by discriminate.
    rewrite EndsWith_app by apply Join_hex_nonempty. exact IH.
Qed.

(** The md5 fingerprint that GetConfig builds from the bytes of a hash is
    their two-digit hexadecimal forms joined by colons: for a hash that
    is not empty it has three characters a byte less one, 47 for the 16
    bytes of an md5 sum, and it does not end in a colon. *)
Theorem md5Fingerprint_format (hash : list Byte.byte) :
  md5Fingerprint hash = Join (map hex2 hash) ":"
  /\ (hash <> [] ->
      Z.of_nat (String.length (md5Fingerprint hash)) = 3 * Z.of_nat (List.length hash) - 1)
  /\ (List.length hash = 16%nat -> String.length (md5Fingerprint hash) = 47%nat)
  /\ EndsWith (md5Fingerprint hash) ":" = false.
Proof.
  assert (E : md5Fingerprint hash = Join (map hex2 hash) ":").
  { unfold md5Fingerprint. rewrite fingerprintLoop_join by lia. reflexivity. }
  rewrite E. split; [reflexivity|]. split; [apply Join_hex_length|].
  split; [|apply Join_hex_end].
  intros H16. pose proof (Join_hex_length hash) as Hl.
  destruct hash; [discriminate|]. specialize (Hl ltac:(discriminate)). lia.
Qed.

Example md5Fingerprint_run :
  md5Fingerprint [Byte.x00; Byte.x0f; Byte.xa0; Byte.xff] = "00:0f:a0:ff".
Proof. reflexivity. Qed.

(** *** PostIntegrationsGithub *)

Section GithubFacts.
Context {integ : Integration}.

(** PostIntegrationsGithub refuses a request without repository, owner or
    token with the status 422, and then neither the service nor GitHub is
    touched.  GitHub is asked to insert the key only after the service has
    generated a key and returned its public part; when GitHub refuses, the
    response has the status code of the API error, or 500 for another
    error, and the generated key stays with the service. *)
Theorem PostIntegrationsGithub_guards (w : ResponseWriter) (r : GithubRequest)
  (s : Instances) (g : Github) :
  (repository r = "" \/ owner r = "" \/ token r = "" ->
     PostIntegrationsGithub w r s g
     = (w ++ WriteError StatusUnprocessableEntity "repo, owner or token is empty", s, g))
  /\ (snd (PostIntegrationsGithub w r s g) <> g ->
      repository r <> "" /\ owner r <> "" /\ token r <> ""
      /\ fst (GenerateDeployKey (instance r) s) = None
      /\ exists key,
           fst (GetPublicKey (instance r) (snd (GenerateDeployKey (instance r) s)))
           = inr key)
  /\ (repository r <> "" -> owner r <> "" -> token r <> "" ->
      forall s1 key s2 e g1,
        GenerateDeployKey (instance r) s = (None, s1) ->
        GetPublicKey (instance r) s1 = (inr key, s2) ->
        InsertDeployKey (token r) (owner r) (repository r) key g = (Some e, g1) ->
        PostIntegrationsGithub w r s g
        = (w ++ WriteError (match e with
                            | APIError StatusCode _ => StatusCode
                            | OtherError _ => StatusInternalServerError
                            end) (githubErrorText e),
           s2, g1)).
Proof.
  unfold PostIntegrationsGithub. split; [|split].
  - intros [H|[H|H]]; rewrite H; cbn [String.eqb orb];
      rewrite ?orb_true_r; reflexivity.
  - destruct (String.eqb (repository r) "") eqn:Er; cbn [orb]; [cbn; congruence|].
    destruct (String.eqb (owner r) "") eqn:Eo; cbn [orb]; [cbn; congruence|].
    destruct (String.eqb (token r) "") eqn:Et; [cbn; congruence|].
    apply String.eqb_neq in Er, Eo, Et.
    destruct (GenerateDeployKey (instance r) s) as [[e|] s1]; cbn [fst snd];
      [congruence|].
    destruct (GetPublicKey (instance r) s1) as [[e|key] s2]; cbn [fst snd];
      [congruence|].
    intros _. repeat split; auto. exists key. reflexivity.
  - intros Hr Ho Ht s1 key s2 e g1 Hg Hp Hi.
    apply String.eqb_neq in Hr, Ho, Ht. rewrite Hr, Ho, Ht. cbn [orb].
    rewrite Hg, Hp, Hi. reflexivity.
Qed.

End GithubFacts.

(** *** The logging middleware *)

Lemma ServeHTTP_writes (calls : list WriterCall) :
  forall tw,
    cw_writer (tw_writer (ServeHTTP calls tw)) = cw_writer (tw_writer tw) ++ calls
    /\ buf (ServeHTTP calls tw) = (buf tw ++ written calls)%string
    /\ code (tw_writer (ServeHTTP calls tw)) = lastCode calls (code (tw_writer tw)).
Proof.
  unfold ServeHTTP.
  induction calls as [|c calls IH]; intros tw; cbn [fold_left written lastCode].
  - rewrite app_nil_r, append_nil_r. repeat split.
  - destruct (IH (teeWriter_call tw c)) as (Hw & Hb & Hc). rewrite Hw, Hb, Hc.
    destruct c; cbn; rewrite <- ?app_assoc, ?append_assoc; repeat split.
Qed.

Lemma lastCode_last (calls : list WriterCall) (c : Z) :
  forall d, lastCode (calls ++ [WriteHeader c]) d = c.
Proof.
  induction calls as [|x calls IH]; intros d; [reflexivity|].
  destruct x; cbn [app lastCode]; apply IH.
Qed.

Section LoggingFacts.
Context {lenv : LogEnv}.

Lemma logging_eq (next : list WriterCall) (w : ResponseWriter)
  (url : string) (begin now : Z) :
  logging next w url begin now
  = (w ++ next,
     [("url", VString (mustUnescape url));
      ("took", VString (DurationString (now - begin)));
      ("status_code", VInt (lastCode next StatusOK))]
     ++ (if lastCode next StatusOK =? StatusOK then []
         else [("error", VString (LogTrimSpace (written next)))])).
Proof.
  unfold logging.
  destruct (ServeHTTP_writes next (mkTeeWriter (mkCodeWriter w StatusOK) ""))
    as (Hw & Hb & Hc).
  cbn [tw_writer cw_writer buf code] in Hw, Hb, Hc.
  rewrite Hw, Hb, Hc. cbn [append].
  destruct (lastCode next StatusOK =? StatusOK); cbn [negb]; [|reflexivity].
  now rewrite app_nil_r.
Qed.

(** The logging middleware passes every call of the handler on to the
    writer, in order.  The status code it logs is that of the last
    WriteHeader the handler called, 200 when it called none; it logs an
    error, the trimmed text of everything the handler wrote, exactly when
    that code is not 200.  The code it logs can differ from the status
    the client was sent: for a handler that writes to the body first and
    calls WriteHeader(c) last, the client is sent 200 and c is logged. *)
Theorem logging_records_last_status (next : list WriterCall) (w : ResponseWriter)
  (url : string) (begin now : Z) :
  fst (logging next w url begin now) = w ++ next
  /\ (lastCode next StatusOK = StatusOK ->
      snd (logging next w url begin now)
      = [("url", VString (mustUnescape url));
         ("took", VString (DurationString (now - begin)));
         ("status_code", VInt StatusOK)])
  /\ (lastCode next StatusOK <> StatusOK ->
      snd (logging next w url begin now)
      = [("url", VString (mustUnescape url));
         ("took", VString (DurationString (now - begin)));
         ("status_code", VInt (lastCode next StatusOK));
         ("error", VString (LogTrimSpace (written next)))])
  /\ (forall p c,
        statusSent (fst (logging (WriteBody p :: next ++ [WriteHeader c]) []
                           url begin now))
        = Some 200
        /\ In ("status_code", VInt c)
             (snd (logging (WriteBody p :: next ++ [WriteHeader c]) [] url begin now))).
Proof.
  rewrite logging_eq. cbn [fst snd].
  split; [reflexivity|]. split; [|split].
  - intros H. rewrite H. reflexivity.
  - intros H. apply Z.eqb_neq in H. rewrite H. reflexivity.
  - intros p c. rewrite logging_eq. cbn [fst snd app statusSent lastCode].
    split; [reflexivity|]. rewrite lastCode_last. right. right. left. reflexivity.
Qed.

End LoggingFacts.

Section UpdateImagesFacts.
Context {rel : Release}.

Lemma parseServiceSpecs_all (values : list string) (specs acc : list ServiceSpec) :
  Forall2 (fun v p => ParseServiceSpec v = inr p) values specs ->
  parseServiceSpecs values acc = inr (acc ++ specs).
Proof.
  intros H. revert acc. induction H as [|v p values specs Hv _ IH]; intros acc.
  - cbn. now rewrite app_nil_r.
  - cbn. rewrite Hv, IH, <- app_assoc. reflexivity.
Qed.

Lemma parseServiceSpecs_first_bad (pre post : list string) (bad err : string)
  (specs acc : list ServiceSpec) :
  Forall2 (fun v p => ParseServiceSpec v = inr p) pre specs ->
  ParseServiceSpec bad = inl err ->
  parseServiceSpecs (pre ++ bad :: post) acc = inl (bad, err).
Proof.
  intros H Hb. revert acc. induction H as [|v p pre specs Hv _ IH]; intros acc.
  - cbn. now rewrite Hb.
  - cbn. rewrite Hv. apply IH.
Qed.

Lemma parseExcludes_all (values : list string) (ids acc : list ServiceID) :
  Forall2 (fun v p => ParseServiceID v = inr p) values ids ->
  parseExcludes values acc = inr (acc ++ ids).
Proof.
  intros H. revert acc. induction H as [|v p values ids Hv _ IH]; intros acc.
  - cbn. now rewrite app_nil_r.
  - cbn. rewrite Hv, IH, <- app_assoc. reflexivity.
Qed.

Lemma parseExcludes_first_bad (pre post : list string) (bad err : string)
  (ids acc : list ServiceID) :
  Forall2 (fun v p => ParseServiceID v = inr p) pre ids ->
  ParseServiceID bad = inl err ->
  parseExcludes (pre ++ bad :: post) acc = inl (bad, err).
Proof.
  intros H Hb. revert acc. induction H as [|v p pre ids Hv _ IH]; intros acc.
  - cbn. now rewrite Hb.
  - cbn. rewrite Hv. apply IH.
Qed.

(** Whatever a loop returns on the right is the parse of every value, in
    the order of the values. *)
Lemma parseServiceSpecs_inr (values : list string) (acc out : list ServiceSpec) :
  parseServiceSpecs values acc = inr out ->
  exists specs,
    out = acc ++ specs
    /\ Forall2 (fun v p => ParseServiceSpec v = inr p) values specs.
Proof.
  revert acc. induction values as [|v values IH]; intros acc H; cbn in H.
  - inversion H; subst. exists []. now rewrite app_nil_r.
  - destruct (ParseServiceSpec v) as [e|p] eqn:Hv; [discriminate|].
    destruct (IH _ H) as [specs [-> HF]].
    exists (p :: specs). rewrite <- app_assoc. split; [reflexivity|].
    now constructor.
Qed.

Lemma parseExcludes_inr (values : list string) (acc out : list ServiceID) :
  parseExcludes values acc = inr out ->
  exists ids,
    out = acc ++ ids
    /\ Forall2 (fun v p => ParseServiceID v = inr p) values ids.
Proof.
  revert acc. induction values as [|v values IH]; intros acc H; cbn in H.
  - inversion H; subst. exists []. now rewrite app_nil_r.
  - destruct (ParseServiceID v) as [e|p] eqn:Hv; [discriminate|].
    destruct (IH _ H) as [ids [-> HF]].
    exists (p :: ids). rewrite <- app_assoc. split; [reflexivity|].
    now constructor.
Qed.

(** The answer of the handler once the service has been called. *)
Lemma UpdateImages_released (w : ResponseWriter) (r : UpdateRequest) (s : Fleet)
  (specs : list ServiceSpec) (img : ImageSpec) (kind : ReleaseKind)
  (ids : list ServiceID) :
  ur_parseForm r = None ->
  Forall2 (fun v p => ParseServiceSpec v = inr p) (ur_services r) specs ->
  ParseImageSpec (ur_image r) = inr img ->
  ParseReleaseKind (ur_kind r) = inr kind ->
  Forall2 (fun v p => ParseServiceID v = inr p) (ur_excludes r) ids ->
  UpdateImages w r s =
    (w ++ match fst (ServiceUpdateImages (ur_instance r)
                       (specs, img, kind, ids, (ur_user r, ur_message r)) s) with
          | inl err => ErrorResponseText err
          | inr jobID => JSONResponse jobID
          end,
     snd (ServiceUpdateImages (ur_instance r)
            (specs, img, kind, ids, (ur_user r, ur_message r)) s)).
Proof.
  intros Hf Hs Hi Hk He. unfold UpdateImages.
  rewrite Hf, (parseServiceSpecs_all _ _ [] Hs), Hi, Hk,
    (parseExcludes_all _ _ [] He). cbn [app].
  destruct (ServiceUpdateImages _ _ s) as [[e|j] s']; reflexivity.
Qed.

(** UpdateImages validates the whole request before it asks for a
    release.  Either the form, every [service] value, the image, the
    kind and every [exclude] value parsed, and the service was called
    once, with the parsed values in the order of the request and the
    [user] and [message] of the form, its error or its job id being the
    answer; or the answer is one 400 error and the state behind the
    service is the one before the request.  The error names the first
    value that does not parse, in the order form, services, image, kind,
    excludes: a bad [service] value is reported whatever the image, the
    kind and the [exclude] values are. *)
Theorem UpdateImages_validates_before_release
  (w : ResponseWriter) (r : UpdateRequest) (s : Fleet) :
  ((exists specs img kind ids,
       ur_parseForm r = None
       /\ Forall2 (fun v p => ParseServiceSpec v = inr p) (ur_services r) specs
       /\ ParseImageSpec (ur_image r) = inr img
       /\ ParseReleaseKind (ur_kind r) = inr kind
       /\ Forall2 (fun v p => ParseServiceID v = inr p) (ur_excludes r) ids
       /\ UpdateImages w r s =
            (w ++ match fst (ServiceUpdateImages (ur_instance r)
                               (specs, img, kind, ids,
                                (ur_user r, ur_message r)) s) with
                  | inl err => ErrorResponseText err
                  | inr jobID => JSONResponse jobID
                  end,
             snd (ServiceUpdateImages (ur_instance r)
                    (specs, img, kind, ids, (ur_user r, ur_message r)) s)))
   \/ (exists msg,
         UpdateImages w r s = (w ++ WriteErrorText StatusBadRequest400 msg, s)))
  /\ (forall err, ur_parseForm r = Some err ->
        UpdateImages w r s =
          (w ++ WriteErrorText StatusBadRequest400 ("parsing form: " ++ err)%string, s))
  /\ (forall pre bad post specs err,
        ur_parseForm r = None ->
        ur_services r = pre ++ bad :: post ->
        Forall2 (fun v p => ParseServiceSpec v = inr p) pre specs ->
        ParseServiceSpec bad = inl err ->
        UpdateImages w r s =
          (w ++ WriteErrorText StatusBadRequest400
                  (wrapf err "parsing service spec" bad), s))
  /\ (forall specs err,
        ur_parseForm r = None ->
        Forall2 (fun v p => ParseServiceSpec v = inr p) (ur_services r) specs ->
        ParseImageSpec (ur_image r) = inl err ->
        UpdateImages w r s =
          (w ++ WriteErrorText StatusBadRequest400
                  (wrapf err "parsing image spec" (ur_image r)), s))
  /\ (forall specs img err,
        ur_parseForm r = None ->
        Forall2 (fun v p => ParseServiceSpec v = inr p) (ur_services r) specs ->
        ParseImageSpec (ur_image r) = inr img ->
        ParseReleaseKind (ur_kind r) = inl err ->
        UpdateImages w r s =
          (w ++ WriteErrorText StatusBadRequest400
                  (wrapf err "parsing release kind" (ur_kind r)), s))
  /\ (forall specs img kind pre bad post ids err,
        ur_parseForm r = None ->
        Forall2 (fun v p => ParseServiceSpec v = inr p) (ur_services r) specs ->
        ParseImageSpec (ur_image r) = inr img ->
        ParseReleaseKind (ur_kind r) = inr kind ->
        ur_excludes r = pre ++ bad :: post ->
        Forall2 (fun v p => ParseServiceID v = inr p) pre ids ->
        ParseServiceID bad = inl err ->
        UpdateImages w r s =
          (w ++ WriteErrorText StatusBadRequest400
                  (wrapf err "parsing excluded service" bad), s)).
Proof.
  split; [|split; [|split; [|split; [|split]]]].
  - destruct (ur_parseForm r) as [e|] eqn:Hf.
    { right. eexists. unfold UpdateImages. rewrite Hf. reflexivity. }
    destruct (parseServiceSpecs (ur_services r) []) as [[bad e]|specs] eqn:Hs.
    { right. eexists. unfold UpdateImages. rewrite Hf, Hs. reflexivity. }
    destruct (ParseImageSpec (ur_image r)) as [e|img] eqn:Hi.
    { right. eexists. unfold UpdateImages. rewrite Hf, Hs, Hi. reflexivity. }
    destruct (ParseReleaseKind (ur_kind r)) as [e|kind] eqn:Hk.
    { right. eexists. unfold UpdateImages. rewrite Hf, Hs, Hi, Hk. reflexivity. }
    destruct (parseExcludes (ur_excludes r) []) as [[bad e]|ids] eqn:He.
    { right. eexists. unfold UpdateImages. rewrite Hf, Hs, Hi, Hk, He. reflexivity. }
    left. destruct (parseServiceSpecs_inr _ _ _ Hs) as [specs' [-> HFs]].
    destruct (parseExcludes_inr _ _ _ He) as [ids' [-> HFe]].
    cbn [app]. exists specs', img, kind, ids'.
    repeat (split; [assumption || reflexivity|]).
    now apply UpdateImages_released.
  - intros err Hf. unfold UpdateImages. now rewrite Hf.
  - intros pre bad post specs err Hf Hv HF Hb. unfold UpdateImages.
    now rewrite Hf, Hv, (parseServiceSpecs_first_bad _ _ _ _ _ [] HF Hb).
  - intros specs err Hf HF Hi. unfold UpdateImages.
    now rewrite Hf, (parseServiceSpecs_all _ _ [] HF), Hi.
  - intros specs img err Hf HF Hi Hk. unfold UpdateImages.
    now rewrite Hf, (parseServiceSpecs_all _ _ [] HF), Hi, Hk.
  - intros specs img kind pre bad post ids err Hf HF Hi Hk Hv HFe Hb.
    unfold UpdateImages.
    now rewrite Hf, (parseServiceSpecs_all _ _ [] HF), Hi, Hk, Hv,
      (parseExcludes_first_bad _ _ _ _ _ [] HFe Hb).
Qed.

End UpdateImagesFacts.

Import Fixtures.
Import MoreFixtures.

(** A request whose second [service] value and whose image are both bad
    is answered with the error of the service value, and no release is
    asked for; the same request with good values is released once. *)
Example UpdateImages_run :
  @UpdateImages demoRelease []
    (mkUpdateRequest "default" "" "all" None ["a"; ""; "c"] ["x"] "me" "msg") 7%nat
  = ([WriteHeader 400; WriteBody (@wrapf demoRelease "empty" "parsing service spec" "")],
     7%nat)
  /\ @UpdateImages demoRelease []
       (mkUpdateRequest "default" "img" "all" None ["a"; "c"] ["x"] "me" "msg") 7%nat
     = ([WriteBody "job"], 8%nat).
Proof. split; reflexivity. Qed.

Example PostIntegrationsGithub_refused_run :
  @PostIntegrationsGithub demoIntegration []
    (mkGithubRequest "default" "nobody" "conf" "token") [] []
  = ([WriteHeader 404; WriteBody "Not Found"], ["default"], []).
Proof. reflexivity. Qed.

Example logging_run :
  @logging demoLogEnv [WriteBody "oops"; WriteHeader 500] [] "/v6/sync" 0 1000000
  = ([WriteBody "oops"; WriteHeader 500],
     [("url", VString "/v6/sync"); ("took", VString "1ms");
      ("status_code", VInt 500); ("error", VString "oops")])
  /\ statusSent [WriteBody "oops"; WriteHeader 500] = Some 200.
Proof. split; reflexivity. Qed.

End ServerMoreFacts.
